(** * sentinelPot: guided filtering and harmonic regression of raster stacks

    A shallow embedding of [sentinelPot/guided_filter.py], of the
    harmonic-regression part of [sentinelPot/preprocess_level3.py] and of
    [_divide_chunks] of [sentinelPot/internal_functions.py].

    - numpy's float32/float64 scalars are IEEE-754 values ([spec_float] with
      the binary32 and binary64 parameters), so NaN, signed zeros, rounding
      and the [np.float32] conversion are the ones of the code;
    - numpy arrays are lists (2-D arrays: lists of rows), indexed with
      stdpp's lookup and updated with its insert;
    - a Python exception is [None] in the option monad;
    - library code the repository calls but does not contain
      ([cv2.boxFilter], [sklearn.linear_model.Lasso], [np.cos]) is a
      section variable;
      the process pool of [multiprocessing] is a parameter of the fit, with
      the pool that runs its tasks and the pool as CPython runs it on a
      local function as its two instances;
    - file names are ASCII strings. *)

From Stdlib Require Import ZArith List Bool Lia Permutation Ascii String.
From Stdlib Require Import Floats.SpecFloat.
From stdpp Require Import base option list gmap strings sorting.

Open Scope Z_scope.

(** ** IEEE-754 scalars *)

Module Float.

Definition prec32 : Z := 24.
Definition emax32 : Z := 128.
Definition prec64 : Z := 53.
Definition emax64 : Z := 1024.

Definition add32 := SFadd prec32 emax32.
Definition sub32 := SFsub prec32 emax32.
Definition mul32 := SFmul prec32 emax32.
Definition div32 := SFdiv prec32 emax32.
Definition add64 := SFadd prec64 emax64.
Definition sub64 := SFsub prec64 emax64.
Definition mul64 := SFmul prec64 emax64.
Definition div64 := SFdiv prec64 emax64.

(** [np.isnan] *)
Definition isnan (x : spec_float) : bool :=
  match x with S754_nan => true | _ => false end.

(** [==] on floats: false on NaN, true on zeros of either sign. *)
Definition eqb (x y : spec_float) : bool := SFeqb x y.

(** [==] between two values that need not be of one format (a float64
    array against a float32 scalar): numpy converts both to the larger
    format, which changes no value, and compares there.  It is the
    equality of the numbers [m * 2^e]: false on NaN, true on zeros of
    either sign. *)
Definition eqv (x y : spec_float) : bool :=
  match x, y with
  | S754_zero _, S754_zero _ => true
  | S754_infinity sx, S754_infinity sy => Bool.eqb sx sy
  | S754_finite sx mx ex, S754_finite sy my ey =>
      Bool.eqb sx sy
      && (Z.pos mx * 2 ^ (ex - Z.min ex ey) =? Z.pos my * 2 ^ (ey - Z.min ex ey))
  | _, _ => false
  end.

(** [0 <= x]: false on NaN. *)
Definition nonneg (x : spec_float) : bool := SFleb (S754_zero false) x.

Definition is_zero (x : spec_float) : bool :=
  match x with S754_zero _ => true | _ => false end.

(** [np.float32(x)]: round to nearest even into binary32. *)
Definition float32 (x : spec_float) : spec_float :=
  match x with
  | S754_finite s m e => binary_round prec32 emax32 s m e
  | _ => x
  end.

(** A Python int as a float64 and as a float32. *)
Definition of_int64 (z : Z) : spec_float := binary_normalize prec64 emax64 z 0 false.
Definition of_int32 (z : Z) : spec_float := binary_normalize prec32 emax32 z 0 false.

(** The literal [0.0001]: the binary64 nearest to 1/10000. *)
Definition lit_0_0001 : spec_float := div64 (of_int64 1) (of_int64 10000).

(** [np.pi]: 0x1.921fb54442d18p+1. *)
Definition pi : spec_float := S754_finite false 7074237752028440 (-51).

(** [np.ceil] on a float64: a value with a non-negative exponent is an
    integer; otherwise the integer part of the magnitude is taken, and one
    is added for a positive value with a fraction. *)
Definition ceil64 (x : spec_float) : spec_float :=
  match x with
  | S754_finite s m e =>
      if 0 <=? e then x
      else
        let q := Z.pos m / 2 ^ (- e) in
        let r := Z.pos m mod 2 ^ (- e) in
        if s then binary_normalize prec64 emax64 (- q) 0 true
        else binary_normalize prec64 emax64 (if r =? 0 then q else q + 1) 0 false
  | _ => x
  end.

(** Values of the binary32 format. *)
Definition is_binary32 (x : spec_float) : bool := valid_binary prec32 emax32 x.
Definition is_binary64 (x : spec_float) : bool := valid_binary prec64 emax64 x.

(** *** Rounding of positive mantissas

    [SpecFloat] only defines the operations; the facts used below are
    proved here for any format with a positive precision. *)

Section Rounding.
Variables prec emax : Z.
Hypothesis prec_pos : 0 < prec.

Lemma digits2_pos_log2 (m : positive) :
  Zpos (digits2_pos m) = Z.log2 (Zpos m) + 1.
Proof.
  induction m as [m IH|m IH|]; simpl digits2_pos; try reflexivity.
  - rewrite Pos2Z.inj_succ, IH. rewrite Pos2Z.inj_xI.
    rewrite Z.log2_succ_double by lia. lia.
  - rewrite Pos2Z.inj_succ, IH. rewrite Pos2Z.inj_xO.
    rewrite Z.log2_double by lia. lia.
Qed.

Lemma Zdigits2_log2 (z : Z) : 0 < z → Zdigits2 z = Z.log2 z + 1.
Proof. destruct z; try lia. intros _. apply digits2_pos_log2. Qed.

Lemma shr_1_m (mrs : shr_record) :
  0 ≤ shr_m mrs → shr_m (shr_1 mrs) = shr_m mrs / 2.
Proof.
  destruct mrs as [m r s]; simpl. intros Hm.
  destruct m as [|[p|p|]|p]; cbn [shr_m]; try lia; try reflexivity.
  - apply Z.div_unique with 1; lia.
  - apply Z.div_unique with 0; lia.
Qed.

Lemma iter_shr_1_m (p : positive) : ∀ mrs,
  0 ≤ shr_m mrs → shr_m (SpecFloat.iter_pos shr_1 p mrs) = shr_m mrs / 2 ^ Zpos p.
Proof.
  assert (Hnn : ∀ q mrs, 0 ≤ shr_m mrs → 0 ≤ shr_m mrs / 2 ^ Zpos q).
  { intros. apply Z.div_pos; [done|]. apply Z.pow_pos_nonneg; lia. }
  induction p as [p IH|p IH|]; intros mrs Hm; simpl SpecFloat.iter_pos.
  - assert (H1 : 0 ≤ shr_m (shr_1 mrs)).
    { rewrite shr_1_m by done. apply Z.div_pos; lia. }
    rewrite IH; [|rewrite IH by done; auto].
    rewrite IH, shr_1_m by done.
    rewrite !Z.div_div by (try apply Z.pow_pos_nonneg; lia).
    f_equal. rewrite <- Z.pow_add_r by lia.
    rewrite <- (Z.pow_1_r 2) at 1. rewrite <- Z.pow_add_r by lia.
    f_equal; lia.
  - rewrite IH; [|rewrite IH by done; auto].
    rewrite IH by done.
    rewrite !Z.div_div by (try apply Z.pow_pos_nonneg; lia).
    f_equal. rewrite <- Z.pow_add_r by lia. f_equal; lia.
  - rewrite shr_1_m by done. reflexivity.
Qed.

(** One call of [shr_fexp] on a non-negative mantissa. *)
Lemma shr_fexp_spec (m e : Z) (l : location) :
  0 ≤ m →
  let n := Z.max 0 (fexp prec emax (Zdigits2 m + e) - e) in
  shr_m (shr_fexp prec emax m e l).1 = m / 2 ^ n ∧
  (shr_fexp prec emax m e l).2 = e + n.
Proof.
  intros Hm n. unfold shr_fexp, shr. subst n.
  assert (Hr : shr_m (shr_record_of_loc m l) = m).
  { destruct l as [|[]]; reflexivity. }
  destruct (fexp prec emax (Zdigits2 m + e) - e) as [|p|p] eqn:Hn; simpl.
  - rewrite Hr, Z.div_1_r. lia.
  - rewrite iter_shr_1_m by lia. rewrite Hr.
    replace (Z.max 0 (Z.pos p)) with (Z.pos p) by lia. split; [done|lia].
  - rewrite Hr, Z.div_1_r. lia.
Qed.

Lemma digits_shift (m n : Z) :
  0 < m → 0 ≤ n → n < Zdigits2 m →
  0 < m / 2 ^ n ∧ Zdigits2 (m / 2 ^ n) = Zdigits2 m - n.
Proof.
  intros Hm Hn Hlt. rewrite Zdigits2_log2 in Hlt by done.
  rewrite <- Z.shiftr_div_pow2 by done.
  assert (Hl : Z.log2 (Z.shiftr m n) = Z.log2 m - n).
  { rewrite Z.log2_shiftr by done. lia. }
  assert (Hp : 0 < Z.shiftr m n).
  { rewrite Z.shiftr_div_pow2 by done.
    apply Z.div_str_pos. split; [apply Z.pow_pos_nonneg; lia|].
    transitivity (2 ^ Z.log2 m); [apply Z.pow_le_mono_r; lia|].
    apply Z.log2_spec. done. }
  split; [done|]. rewrite !Zdigits2_log2 by done. lia.
Qed.

Lemma Zdigits2_mono (a b : Z) : 0 < a → a ≤ b → Zdigits2 a ≤ Zdigits2 b.
Proof.
  intros Ha Hab. rewrite !Zdigits2_log2 by lia.
  pose proof (Z.log2_le_mono a b Hab). lia.
Qed.

Lemma round_nearest_even_ge (m : Z) (l : location) :
  m ≤ round_nearest_even m l ≤ m + 1.
Proof. destruct l as [|[]]; simpl; try lia. destruct (Z.even m); lia. Qed.

(** A float that is not a zero and not NaN, with the sign and at least the
    magnitude (digits + exponent) given. *)
Definition at_least (s : bool) (mag : Z) (x : spec_float) : Prop :=
  match x with
  | S754_infinity s' => s' = s
  | S754_finite s' m e => s' = s ∧ mag ≤ Zpos (digits2_pos m) + e
  | _ => False
  end.

Lemma binary_round_aux_at_least (s : bool) (m : positive) (e : Z) (l : location) :
  emin prec emax < Zpos (digits2_pos m) + e →
  at_least s (Zpos (digits2_pos m) + e) (binary_round_aux prec emax s (Zpos m) e l).
Proof.
  intros Hmag. unfold binary_round_aux.
  pose proof (shr_fexp_spec (Zpos m) e l ltac:(lia)) as [H1m H1e].
  destruct (shr_fexp prec emax (Z.pos m) e l) as [mrs1 e1]. simpl in H1m, H1e.
  set (d := Zpos (digits2_pos m)) in *.
  change (Zdigits2 (Z.pos m)) with d in *.
  set (n1 := Z.max 0 (fexp prec emax (d + e) - e)) in *.
  assert (Hn1 : 0 ≤ n1 < d) by (unfold fexp in *; lia).
  pose proof (digits_shift (Zpos m) n1 ltac:(lia) ltac:(lia) ltac:(simpl; fold d; lia))
    as [Hm1 Hd1].
  rewrite <- H1m in Hm1, Hd1. change (Zdigits2 (Z.pos m)) with d in Hd1.
  set (m2 := round_nearest_even (shr_m mrs1) (loc_of_shr_record mrs1)).
  pose proof (round_nearest_even_ge (shr_m mrs1) (loc_of_shr_record mrs1)) as Hm2.
  fold m2 in Hm2.
  pose proof (Zdigits2_mono (shr_m mrs1) m2 Hm1 ltac:(lia)) as Hd2.
  pose proof (shr_fexp_spec m2 e1 loc_Exact ltac:(lia)) as [H3m H3e].
  destruct (shr_fexp prec emax m2 e1 loc_Exact) as [mrs3 e3]. simpl in H3m, H3e.
  set (n2 := Z.max 0 (fexp prec emax (Zdigits2 m2 + e1) - e1)) in *.
  assert (Hn2 : 0 ≤ n2 < Zdigits2 m2) by (unfold fexp in *; lia).
  pose proof (digits_shift m2 n2 ltac:(lia) ltac:(lia) ltac:(lia)) as [Hm3 Hd3].
  rewrite <- H3m in Hm3, Hd3.
  destruct (shr_m mrs3) as [|m3|m3]; try lia.
  simpl in Hd3.
  destruct (e3 <=? emax - prec); simpl; [split|]; try done. lia.
Qed.

Lemma shl_align_spec (m : positive) (e e' : Z) :
  e' ≤ e →
  Zpos (shl_align m e e').1 = Zpos m * 2 ^ (e - e') ∧ (shl_align m e e').2 = e'.
Proof.
  intros He. unfold shl_align.
  destruct (e' - e) as [|p|p] eqn:Hd; try lia.
  - assert (e = e') as -> by lia. simpl. rewrite Z.sub_diag. lia.
  - simpl. replace (e - e') with (Zpos p) by lia. split; [|done].
    clear. induction p using Pos.peano_ind.
    + simpl. lia.
    + rewrite Pos.iter_succ. rewrite Pos2Z.inj_xO, IHp, Pos2Z.inj_succ.
      rewrite Z.pow_succ_r by lia. lia.
Qed.

Lemma digits_shl (m : positive) (k : Z) :
  0 ≤ k → Zdigits2 (Zpos m * 2 ^ k) = Zpos (digits2_pos m) + k.
Proof.
  intros Hk. rewrite Zdigits2_log2 by (apply Z.mul_pos_pos; [lia|apply Z.pow_pos_nonneg; lia]).
  rewrite digits2_pos_log2. rewrite Z.log2_mul_pow2 by lia. lia.
Qed.

Lemma binary_round_at_least (s : bool) (m : positive) (e : Z) :
  emin prec emax < Zpos (digits2_pos m) + e →
  at_least s (Zpos (digits2_pos m) + e) (binary_round prec emax s m e).
Proof.
  intros Hmag. unfold binary_round.
  set (e' := fexp prec emax (Z.pos (digits2_pos m) + e)).
  destruct (Z.le_gt_cases e' e) as [Hle|Hgt].
  - pose proof (shl_align_spec m e e' Hle) as [Hm He].
    destruct (shl_align m e e') as [mz ez]. simpl in Hm, He. subst ez.
    pose proof (digits_shl m (e - e') ltac:(lia)) as Hd. rewrite <- Hm in Hd.
    simpl in Hd.
    replace (Z.pos (digits2_pos m) + e) with (Zpos (digits2_pos mz) + e') by lia.
    apply binary_round_aux_at_least. lia.
  - unfold shl_align. destruct (e' - e) eqn:Hd; try lia.
    by apply binary_round_aux_at_least.
Qed.

(** A canonical value of the format is left as it is. *)
Lemma binary_round_valid (s : bool) (m : positive) (e : Z) :
  bounded prec emax m e = true →
  binary_round prec emax s m e = S754_finite s m e.
Proof.
  unfold bounded, canonical_mantissa. intros [Hc Hb]%andb_prop.
  apply Z.eqb_eq in Hc.
  unfold binary_round. rewrite Hc. unfold shl_align. rewrite Z.sub_diag.
  unfold binary_round_aux, shr_fexp. simpl Zdigits2. rewrite Hc, Z.sub_diag.
  simpl. rewrite Hc, Z.sub_diag. simpl. by rewrite Hb.
Qed.

Lemma at_least_weaken (s : bool) (mag mag' : Z) (x : spec_float) :
  mag ≤ mag' → at_least s mag' x → at_least s mag x.
Proof. destruct x; simpl; try done. intros ? [-> ?]. split; [done|lia]. Qed.

(** The sum of two positive finite floats is positive and at least as large
    in magnitude as the second. *)
Lemma SFadd_pos_at_least (mx my : positive) (ex ey : Z) :
  emin prec emax < Zpos (digits2_pos my) + ey →
  at_least false (Zpos (digits2_pos my) + ey)
    (SFadd prec emax (S754_finite false mx ex) (S754_finite false my ey)).
Proof.
  intros Hmag. unfold SFadd, cond_Zopp.
  set (ez := Z.min ex ey).
  pose proof (shl_align_spec mx ex ez ltac:(lia)) as [Hx _].
  pose proof (shl_align_spec my ey ez ltac:(lia)) as [Hy _].
  destruct (shl_align mx ex ez) as [Mx ?], (shl_align my ey ez) as [My ?].
  simpl in Hx, Hy |- *.
  pose proof (digits_shl my (ey - ez) ltac:(lia)) as Hd. rewrite <- Hy in Hd.
  simpl in Hd.
  eapply at_least_weaken; [|apply binary_round_at_least].
  - pose proof (Zdigits2_mono (Zpos My) (Zpos (Mx + My)) ltac:(lia) ltac:(lia)) as Hm.
    simpl in Hm. lia.
  - pose proof (Zdigits2_mono (Zpos My) (Zpos (Mx + My)) ltac:(lia) ltac:(lia)) as Hm.
    simpl in Hm. lia.
Qed.

(** Rounding a positive mantissa never gives NaN. *)
Lemma binary_round_aux_not_nan (s : bool) (m : Z) (e : Z) (l : location) :
  0 ≤ m → binary_round_aux prec emax s m e l ≠ S754_nan.
Proof.
  intros Hm. unfold binary_round_aux.
  pose proof (shr_fexp_spec m e l Hm) as [H1m _].
  destruct (shr_fexp prec emax m e l) as [mrs1 e1]. simpl in H1m.
  set (m2 := round_nearest_even (shr_m mrs1) (loc_of_shr_record mrs1)).
  pose proof (round_nearest_even_ge (shr_m mrs1) (loc_of_shr_record mrs1)) as Hm2.
  fold m2 in Hm2.
  assert (0 ≤ shr_m mrs1).
  { rewrite H1m. apply Z.div_pos; [done|]. apply Z.pow_pos_nonneg; lia. }
  pose proof (shr_fexp_spec m2 e1 loc_Exact ltac:(lia)) as [H3m _].
  destruct (shr_fexp prec emax m2 e1 loc_Exact) as [mrs3 e3]. simpl in H3m.
  assert (0 ≤ shr_m mrs3).
  { rewrite H3m. apply Z.div_pos; [lia|]. apply Z.pow_pos_nonneg; lia. }
  destruct (shr_m mrs3); try lia; try done.
  by destruct (e3 <=? emax - prec).
Qed.

Lemma binary_round_not_nan (s : bool) (m : positive) (e : Z) :
  binary_round prec emax s m e ≠ S754_nan.
Proof.
  unfold binary_round.
  destruct (shl_align m e _) as [mz ez]. by apply binary_round_aux_not_nan.
Qed.

(** Rounding leaves a canonical mantissa as it is, and halves an even
    mantissa of one digit more. *)
Lemma binary_round_aux_canonical (s : bool) (m : positive) (e : Z) :
  bounded prec emax m e = true →
  binary_round_aux prec emax s (Zpos m) e loc_Exact = S754_finite s m e.
Proof.
  unfold bounded, canonical_mantissa. intros [Hc Hb]%andb_prop.
  apply Z.eqb_eq in Hc.
  unfold binary_round_aux, shr_fexp. simpl Zdigits2. rewrite Hc, Z.sub_diag.
  simpl. rewrite Hc, Z.sub_diag. simpl. by rewrite Hb.
Qed.

Lemma binary_round_aux_double (s : bool) (m : positive) (e : Z) :
  bounded prec emax m (e + 1) = true →
  binary_round_aux prec emax s (Zpos m~0) e loc_Exact = S754_finite s m (e + 1).
Proof.
  unfold bounded, canonical_mantissa. intros [Hc Hb]%andb_prop.
  apply Z.eqb_eq in Hc.
  unfold binary_round_aux, shr_fexp. simpl Zdigits2.
  replace (Z.pos (Pos.succ (digits2_pos m)) + e) with (Z.pos (digits2_pos m) + (e + 1))
    by lia.
  rewrite Hc. replace (e + 1 - e) with 1 by lia. simpl.
  rewrite Hc, Z.sub_diag. simpl. by rewrite Hb.
Qed.

End Rounding.

(** *** Facts on the two formats *)

Lemma nonneg_cases (x : spec_float) :
  nonneg x = true →
  (∃ s, x = S754_zero s) ∨ x = S754_infinity false ∨ ∃ m e, x = S754_finite false m e.
Proof.
  destruct x as [s|[]| |[] m e]; simpl; try done; eauto.
Qed.

Lemma at_least_nonzero (s : bool) (mag : Z) (x : spec_float) :
  at_least s mag x → is_zero x = false ∧ isnan x = false.
Proof. by destruct x. Qed.

Lemma float32_nan : float32 S754_nan = S754_nan.
Proof. reflexivity. Qed.

(** [np.float32] keeps NaN and never makes one. *)
Lemma isnan_float32 (x : spec_float) : isnan (float32 x) = isnan x.
Proof.
  destruct x as [| | |s m e]; try reflexivity.
  pose proof (binary_round_not_nan prec32 emax32 s m e) as H.
  simpl. by destruct (binary_round prec32 emax32 s m e).
Qed.

(** A binary32 value is converted to itself. *)
Lemma float32_binary32 (x : spec_float) : is_binary32 x = true → float32 x = x.
Proof.
  destruct x as [| | |s m e]; try reflexivity.
  apply binary_round_valid.
Qed.

Lemma eqb_refl (x : spec_float) : isnan x = false → eqb x x = true.
Proof.
  destruct x as [s|s| |s m e]; try done; unfold eqb, SFeqb; simpl.
  - by destruct s.
  - by rewrite Z.compare_refl, Pos.compare_cont_refl; destruct s.
Qed.

(** [x == y] holds for two zeros, or for two equal values other than NaN. *)
Lemma eqb_true (x y : spec_float) :
  eqb x y = true →
  (is_zero x = true ∧ is_zero y = true) ∨ (x = y ∧ isnan x = false).
Proof.
  unfold eqb, SFeqb.
  destruct x as [sx|sx| |sx mx ex], y as [sy|sy| |sy my ey]; simpl; try done;
    try (by left); try (by destruct sx); try (by destruct sy).
  - destruct sx, sy; try done; by right.
  - destruct sx, sy; try done; destruct (Z.compare_spec ex ey) as [->| |]; try done;
      destruct (Pos.compare_cont Eq mx my) eqn:Hm; try done;
      apply Pos.compare_eq in Hm as ->; by right.
Qed.

(** Two values that are equal in one format are equal as numbers. *)
Lemma eqv_refl (x : spec_float) : isnan x = false → eqv x x = true.
Proof.
  destruct x as [s|s| |s m e]; try done; simpl.
  - by destruct s.
  - rewrite Z.min_id, Z.sub_diag, Z.eqb_refl. by destruct s.
Qed.

Lemma eqb_eqv (x y : spec_float) : eqb x y = true → eqv x y = true.
Proof.
  intros [[Hx Hy]|[-> Hn]]%eqb_true.
  - by destruct x, y.
  - by apply eqv_refl.
Qed.

Lemma eqv_nan (x : spec_float) : eqv x S754_nan = false.
Proof. by destruct x. Qed.

Lemma eqv_sym (x y : spec_float) : eqv x y = eqv y x.
Proof.
  destruct x as [sx|sx| |sx mx ex], y as [sy|sy| |sy my ey]; simpl; try done.
  - by destruct sx, sy.
  - rewrite (Z.min_comm ey ex), (Z.eqb_sym (Z.pos my * _)). by destruct sx, sy.
Qed.

(** [x - 0.0] is [x]. *)
Lemma sub64_zero (x : spec_float) : sub64 x (S754_zero false) = x.
Proof. by destruct x as [[]| | |]. Qed.

(** *** Integers in float64 *)

(** A positive integer below 2^53 is converted without rounding. *)
Lemma of_int64_pos (j : Z) :
  0 < j < 2 ^ 53 →
  ∃ m : positive,
    of_int64 j = S754_finite false m (Zdigits2 j - 53) ∧
    Z.pos m = j * 2 ^ (53 - Zdigits2 j) ∧ Z.pos (digits2_pos m) = 53.
Proof.
  intros Hj. destruct j as [|p|p]; try lia.
  assert (Hd : 1 ≤ Z.pos (digits2_pos p) ≤ 53).
  { pose proof (digits2_pos_log2 p) as Hl. split; [lia|]. rewrite Hl.
    assert (Z.log2 (Z.pos p) < 53); [|lia]. apply Z.log2_lt_pow2; lia. }
  unfold of_int64, binary_normalize, binary_round. simpl Zdigits2.
  set (d := Z.pos (digits2_pos p)) in *.
  assert (Hf : fexp prec64 emax64 (d + 0) = d - 53).
  { unfold fexp, emin, prec64, emax64. lia. }
  rewrite Hf.
  pose proof (shl_align_spec p 0 (d - 53) ltac:(lia)) as [Hm He].
  destruct (shl_align p 0 (d - 53)) as [mz ez]. simpl in Hm, He. subst ez.
  assert (Hdz : Z.pos (digits2_pos mz) = 53).
  { pose proof (digits_shl p (0 - (d - 53)) ltac:(lia)) as H. rewrite <- Hm in H.
    simpl in H. fold d in H. lia. }
  exists mz. split; [|split; [rewrite Hm; f_equal; f_equal; lia|done]].
  apply binary_round_aux_canonical.
  unfold bounded, canonical_mantissa. rewrite Hdz.
  apply andb_true_intro. split.
  - apply Z.eqb_eq. unfold fexp, emin, prec64, emax64. lia.
  - apply Z.leb_le. unfold prec64, emax64. lia.
Qed.

(** The division by 2 lowers the exponent. *)
Lemma div64_two (m : positive) (e : Z) :
  Z.pos (digits2_pos m) = 53 → -1000 ≤ e ≤ 900 →
  div64 (S754_finite false m e) (of_int64 2) = S754_finite false m (e - 1).
Proof.
  intros Hd He.
  change (of_int64 2) with (S754_finite false 4503599627370496 (-51)).
  assert (Hcore : SFdiv_core_binary prec64 emax64 (Z.pos m) e
                    (Z.pos 4503599627370496) (-51)
                  = (Z.pos m~0, e - 2, loc_Exact)).
  { unfold SFdiv_core_binary.
    change (Zdigits2 (Z.pos 4503599627370496)) with 53.
    change (Zdigits2 (Z.pos m)) with (Z.pos (digits2_pos m)). rewrite Hd.
    assert (Hf : fexp prec64 emax64 (53 + e - (53 + -51)) `min` (e - -51) = e - 2).
    { unfold fexp, emin, prec64, emax64. lia. }
    cbv zeta. rewrite Hf. replace (e - -51 - (e - 2)) with 53 by lia.
    rewrite Z.shiftl_mul_pow2 by lia.
    change (IntDef.Z.div_eucl) with Z.div_eucl.
    pose proof (Z.div_eucl_eq (Z.pos m * 2 ^ 53) 4503599627370496 ltac:(lia)) as Heq.
    pose proof (Z.mod_pos_bound (Z.pos m * 2 ^ 53) 4503599627370496 ltac:(lia)) as Hb.
    unfold Z.modulo in Hb.
    destruct (Z.div_eucl (Z.pos m * 2 ^ 53) 4503599627370496) as [q r].
    change (2 ^ 53) with (2 * 4503599627370496) in Heq.
    assert (r = 0 ∧ q = Z.pos m~0) as [-> ->] by lia. done. }
  unfold div64, SFdiv. rewrite Hcore. cbn [xorb].
  replace (e - 1) with (e - 2 + 1) by lia.
  apply binary_round_aux_double.
  unfold bounded, canonical_mantissa. rewrite Hd.
  apply andb_true_intro. split.
  - apply Z.eqb_eq. unfold fexp, emin, prec64, emax64. lia.
  - apply Z.leb_le. unfold prec64, emax64. lia.
Qed.

(** [np.ceil(j / 2)] for an int [j] is the float64 of the integer
    [ceil(j / 2)]. *)
Lemma ceil64_half (j : Z) :
  0 ≤ j < 2 ^ 53 →
  ceil64 (div64 (of_int64 j) (of_int64 2)) = of_int64 ((j + 1) / 2).
Proof.
  intros Hj. destruct (decide (j = 0)) as [->|Hne]; [reflexivity|].
  destruct (of_int64_pos j ltac:(lia)) as (m & -> & Hm & Hd).
  assert (Hdj : 1 ≤ Zdigits2 j ≤ 53).
  { rewrite Zdigits2_log2 by lia. pose proof (Z.log2_nonneg j).
    assert (Z.log2 j < 53); [apply Z.log2_lt_pow2; lia|lia]. }
  rewrite div64_two by (done || lia).
  unfold ceil64. set (d := Zdigits2 j) in *.
  rewrite (proj2 (Z.leb_gt 0 (d - 53 - 1))) by lia.
  replace (- (d - 53 - 1)) with (1 + (53 - d)) by lia.
  rewrite Z.pow_add_r, Hm by lia. cbv zeta. change (2 ^ 1) with 2.
  assert (Hk : 0 < 2 ^ (53 - d)) by (apply Z.pow_pos_nonneg; lia).
  rewrite Z.div_mul_cancel_r by lia.
  rewrite Z.mul_mod_distr_r by lia.
  unfold of_int64. f_equal.
  pose proof (Z.div_mod j 2 ltac:(lia)) as Hdm.
  pose proof (Z.mod_pos_bound j 2 ltac:(lia)) as Hb.
  pose proof (Z.div_mod (j + 1) 2 ltac:(lia)) as Hdm1.
  pose proof (Z.mod_pos_bound (j + 1) 2 ltac:(lia)) as Hb1.
  destruct (Z.eqb_spec (j mod 2 * 2 ^ (53 - d)) 0) as [H0|H0]; nia.
Qed.

(** Equal values stay equal under [np.float32]. *)
Lemma eqb_float32 (x y : spec_float) :
  eqb x y = true → eqb (float32 x) (float32 y) = true.
Proof.
  intros [[Hx Hy]|[-> Hn]]%eqb_true.
  - by destruct x, y.
  - apply eqb_refl. by rewrite isnan_float32.
Qed.

End Float.

(** ** numpy arrays *)

Module Np.

(** A 2-D array, row major. *)
Abbreviation ndarray := (list (list spec_float)).

Definition px {A} (a : list (list A)) (r c : nat) : option A :=
  a !! r ≫= (.!! c).

Definition shape {A} (a : list (list A)) : list nat := length <$> a.

(** Elementwise unary and binary operations. *)
Definition map1 {A B} (f : A → B) (a : list (list A)) : list (list B) :=
  (λ row : list A, f <$> row) <$> a.

Definition map2 {A B C} (f : A → B → C) (a : list (list A)) (b : list (list B))
  : list (list C) :=
  zip_with (zip_with f) a b.

(** [np.isnan(a)], [a == v] on an array and a scalar of one format,
    [np.float32(a)] *)
Definition isnan (a : ndarray) : list (list bool) := map1 Float.isnan a.
Definition eq_scalar (a : ndarray) (v : spec_float) : list (list bool) :=
  map1 (λ x, Float.eqb x v) a.
(** [a == v] for an array of any data type against a float32 scalar. *)
Definition eqv_scalar (a : ndarray) (v : spec_float) : list (list bool) :=
  map1 (λ x, Float.eqv x v) a.
Definition float32 (a : ndarray) : ndarray := map1 Float.float32 a.

(** [np.where(cond, a, b)] on arrays of one shape, and with a scalar [v]
    in the second position. *)
Definition where_ (cond : list (list bool)) (a b : ndarray) : ndarray :=
  map2 (λ (c : bool) (p : spec_float * spec_float), if c then p.1 else p.2)
       cond (map2 pair a b).

Definition where_scalar (cond : list (list bool)) (v : spec_float) (b : ndarray)
  : ndarray :=
  map2 (λ (c : bool) (x : spec_float), if c then v else x) cond b.

Lemma px_map1 {A B} (f : A → B) (a : list (list A)) (r c : nat) :
  px (map1 f a) r c = f <$> px a r c.
Proof.
  unfold px, map1. rewrite list_lookup_fmap.
  destruct (a !! r) as [row|]; simpl; [|done]. apply list_lookup_fmap.
Qed.

Lemma px_map2 {A B C} (f : A → B → C) (a : list (list A)) (b : list (list B))
    (r c : nat) :
  px (map2 f a b) r c = (x ← px a r c; y ← px b r c; Some (f x y)).
Proof.
  unfold px, map2. rewrite lookup_zip_with.
  destruct (a !! r) as [ra|]; simpl; [|done].
  destruct (b !! r) as [rb|]; simpl.
  - rewrite lookup_zip_with. done.
  - by destruct (ra !! c).
Qed.

Lemma shape_map1 {A B} (f : A → B) (a : list (list A)) :
  shape (map1 f a) = shape a.
Proof.
  unfold shape, map1. rewrite <- list_fmap_compose.
  apply list_fmap_ext. intros i row _. simpl. apply length_fmap.
Qed.

Lemma shape_map2 {A B C} (f : A → B → C) (a : list (list A)) (b : list (list B)) :
  shape b = shape a → shape (map2 f a b) = shape a.
Proof.
  unfold shape, map2. revert b.
  induction a as [|ra a IH]; intros [|rb b]; simpl; try done.
  intros [= Hr Hs]. f_equal; [|by apply IH].
  rewrite length_zip_with. lia.
Qed.

Lemma px_shape {A B} (a : list (list A)) (b : list (list B)) (r c : nat) :
  shape b = shape a → is_Some (px a r c) → is_Some (px b r c).
Proof.
  unfold shape, px. intros Hs [x Hx].
  destruct (a !! r) as [ra|] eqn:Ha; simpl in Hx; [|done].
  assert (Hl : (length <$> b) !! r = Some (length ra)).
  { rewrite Hs, list_lookup_fmap, Ha. done. }
  rewrite list_lookup_fmap in Hl.
  destruct (b !! r) as [rb|]; simpl in Hl |- *; [|done].
  apply lookup_lt_is_Some. injection Hl as ->. by eapply lookup_lt_Some.
Qed.

Lemma px_where_scalar (cond : list (list bool)) (v : spec_float) (b : ndarray)
    (r c : nat) :
  px (where_scalar cond v b) r c
  = (k ← px cond r c; x ← px b r c; Some (if k : bool then v else x)).
Proof. unfold where_scalar. by rewrite px_map2. Qed.

Lemma px_where (cond : list (list bool)) (a b : ndarray) (r c : nat) :
  px (where_ cond a b) r c
  = (k ← px cond r c; x ← px a r c; y ← px b r c; Some (if k : bool then x else y)).
Proof.
  unfold where_. rewrite !px_map2.
  destruct (px cond r c) as [k|]; simpl; [|done].
  destruct (px a r c) as [x|]; simpl; [|done].
  by destruct (px b r c) as [y|].
Qed.

Lemma shape_where_scalar (cond : list (list bool)) (v : spec_float) (b : ndarray) :
  shape b = shape cond → shape (where_scalar cond v b) = shape cond.
Proof. apply shape_map2. Qed.

End Np.

(** ** guided_filter.py *)

Module GuidedFilter.
Import Np.

(** A raster band as GDAL hands it over: [GetNoDataValue()] (a Python float
    or [None]) and [ReadAsArray()], whose values are the band's own data
    type read as IEEE values. *)
Record band := Band {
  nodata : option spec_float;
  data : ndarray
}.

(** A dataset: [RasterXSize], [RasterYSize], its bands ([RasterCount] is
    their number), [GetGeoTransform()] and [GetProjection()]; for an output
    dataset also the driver it was created with and its creation options. *)
Record dataset := Dataset {
  RasterXSize : nat;
  RasterYSize : nat;
  bands : list band;
  GeoTransform : list spec_float;
  Projection : string;
  driver : string;
  options : list string
}.

Definition RasterCount (img : dataset) : nat := length (bands img).

(** [driver.Create(path, width, height, n_band, GDT_Float32, options)]:
    zero-filled bands without a no-data value, GDAL's default geotransform
    (0, 1, 0, 0, 0, 1) and an empty projection. *)
Definition zeros (height width : nat) : ndarray :=
  replicate height (replicate width (S754_zero false)).

Definition default_geotransform : list spec_float :=
  Float.of_int64 <$> [0; 1; 0; 0; 0; 1].

Definition Create (drv : string) (width height n_band : nat) (opts : list string)
  : dataset :=
  {| RasterXSize := width; RasterYSize := height;
     bands := replicate n_band (Band None (zeros height width));
     GeoTransform := default_geotransform; Projection := "";
     driver := drv; options := opts |}.

(** [out_data.GetRasterBand(i + 1)] followed by [WriteArray] and
    [SetNoDataValue] on it: updates of band [i] of the dataset. *)
Definition WriteArray (i : nat) (a : ndarray) (ds : dataset) : dataset :=
  {| RasterXSize := RasterXSize ds; RasterYSize := RasterYSize ds;
     bands := alter (λ b, Band (nodata b) a) i (bands ds);
     GeoTransform := GeoTransform ds; Projection := Projection ds;
     driver := driver ds; options := options ds |}.

Definition SetNoDataValue (i : nat) (v : spec_float) (ds : dataset) : dataset :=
  {| RasterXSize := RasterXSize ds; RasterYSize := RasterYSize ds;
     bands := alter (λ b, Band (Some v) (data b)) i (bands ds);
     GeoTransform := GeoTransform ds; Projection := Projection ds;
     driver := driver ds; options := options ds |}.

Definition SetGeoTransform (g : list spec_float) (ds : dataset) : dataset :=
  {| RasterXSize := RasterXSize ds; RasterYSize := RasterYSize ds;
     bands := bands ds; GeoTransform := g; Projection := Projection ds;
     driver := driver ds; options := options ds |}.

Definition SetProjection (p : string) (ds : dataset) : dataset :=
  {| RasterXSize := RasterXSize ds; RasterYSize := RasterYSize ds;
     bands := bands ds; GeoTransform := GeoTransform ds; Projection := p;
     driver := driver ds; options := options ds |}.

(** The marker [-9999] that replaces no-data pixels in the filter's input. *)
Definition marker : spec_float := Float.of_int32 (-9999).

Section Filter.

(** [cv2.boxFilter(src, -1, (ksize, ksize))] is OpenCV's; the filter is
    written over any such function. *)
Variable boxFilter : ndarray → Z → ndarray.

Definition _boxfilter (src : ndarray) (ksize : Z) : ndarray :=
  let bf := boxFilter src ksize in
  bf.

(** [np.float32(eps + 0.0001)]: [eps] is the Python number of the
    configuration as a float64 (an int is converted by the addition). *)
Definition eps_term (eps : spec_float) : spec_float :=
  Float.float32 (Float.add64 eps Float.lit_0_0001).

(** The divisor of equation 5 at one pixel: [var_g + np.float32(eps + 0.0001)]. *)
Definition divisor (var_g eps : spec_float) : spec_float :=
  Float.add32 var_g (eps_term eps).

Definition _guidedfilter (fsrc src : ndarray) (ksize : Z) (eps : spec_float)
  : ndarray :=
  let mean_guided := _boxfilter fsrc ksize in
  let mean_img := _boxfilter src ksize in
  let mean_gi := _boxfilter (map2 Float.mul32 fsrc src) ksize in
  let mean_gg := _boxfilter (map2 Float.mul32 fsrc fsrc) ksize in
  (* covariance of (I,P) in each local patch *)
  let cov_gi := map2 Float.sub32 mean_gi (map2 Float.mul32 mean_guided mean_img) in
  let var_g := map2 Float.sub32 mean_gg (map2 Float.mul32 mean_guided mean_guided) in
  (* equation 5 *)
  let a := map2 Float.div32 cov_gi (map1 (λ v, divisor v eps) var_g) in
  (* equation 6 *)
  let b := map2 Float.sub32 mean_img (map2 Float.mul32 a mean_guided) in
  let mean_a := _boxfilter a ksize in
  let mean_b := _boxfilter b ksize in
  (* equation 8 *)
  let q := map2 Float.add32 (map2 Float.mul32 mean_a fsrc) mean_b in
  q.

(** The body of the loop over the bands of [guided_filter]: the array
    handed to the filter, the array written out, and the whole step on
    the output dataset. *)
Definition nodata_mask (nd : spec_float) (band_raw : ndarray) : list (list bool) :=
  if Float.isnan nd then isnan band_raw
  else eq_scalar band_raw (Float.float32 nd).

Definition filter_input (b : band) : ndarray :=
  let band_raw := float32 (data b) in
  match nodata b with
  | Some nd => where_scalar (nodata_mask nd band_raw) marker band_raw
  | None => band_raw
  end.

Definition filter_output (ksize : Z) (eps : spec_float) (b : band) : ndarray :=
  match nodata b with
  | Some nd =>
      let novalue := Float.float32 nd in
      let band_raw := float32 (data b) in
      if Float.isnan nd then
        let band := where_scalar (isnan band_raw) marker band_raw in
        let band_filter := _guidedfilter band band ksize eps in
        where_ (isnan band_raw) band_raw band_filter
      else
        let band := where_scalar (eq_scalar band_raw novalue) marker band_raw in
        let band_filter := _guidedfilter band band ksize eps in
        where_ (eq_scalar band_raw novalue) band_raw band_filter
  | None =>
      let band := float32 (data b) in
      _guidedfilter band band ksize eps
  end.

Definition filter_band (ksize : Z) (eps : spec_float) (img : dataset)
    (out_data : dataset) (i : nat) : dataset :=
  match bands img !! i with
  | Some b =>
      let out := filter_output ksize eps b in
      match nodata b with
      | Some nd => WriteArray i out (SetNoDataValue i nd out_data)
      | None => WriteArray i out out_data
      end
  | None => out_data
  end.

(** How a call ends: it returns, or [sys.exit] or an exception leaves it. *)
Inductive outcome :=
  | Returned
  | SystemExit
  | UnboundLocalError (name : string).

(** [del a, b, ...] deletes the names from left to right; a local name that
    no statement has assigned raises.  [bound] holds the assigned names. *)
Definition del (names : list string) (bound : gset string) : outcome :=
  match filter (λ name, name ∉ bound) names with
  | [] => Returned
  | name :: _ => UnboundLocalError name
  end.

(** The local names that round [i] of the loop over the bands assigns. *)
Definition assigned (img : dataset) (i : nat) : gset string :=
  match bands img !! i with
  | Some b =>
      match nodata b with
      | Some _ => {[ "i"; "novalue"; "band_raw"; "band"; "band_filter"; "out"; "outband" ]}
      | None => {[ "i"; "band"; "out"; "outband" ]}
      end
  | None => ∅
  end.

(** [guided_filter(src_path, ksize, eps, dst_dir, out_format)] on the opened
    source [img]: the raster at the destination when the call ends (none
    on an unsupported format, where [sys.exit] comes before [Create]) and
    how the call ends.  The output is closed by [out_data = None]; the
    [del] statement is the last one.  The destination path is left out of
    the dataset. *)
Definition guided_filter (img : dataset) (ksize : Z) (eps : spec_float)
    (out_format : string) : option dataset * outcome :=
  let width := RasterXSize img in
  let height := RasterYSize img in
  let n_band := RasterCount img in
  let locals : gset string :=
    {[ "src_path"; "ksize"; "eps"; "dst_dir"; "out_format";
       "img"; "width"; "height"; "n_band"; "driver"; "dst_path"; "out_data" ]} in
  match
    (if decide (out_format = "ENVI") then
       Some (Create out_format width height n_band ["INTERLEAVE=BIP"])
     else if decide (out_format = "GTiff") then
       Some (Create out_format width height n_band [])
     else None)
  with
  | None => (None, SystemExit)
  | Some out_data =>
      let '(out_data, locals) :=
        foldl (λ '(out_data, locals) i,
                 (filter_band ksize eps img out_data i, locals ∪ assigned img i))
          (out_data, locals) (seq 0 n_band) in
      let out_data := SetGeoTransform (GeoTransform img) out_data in
      let out_data := SetProjection (Projection img) out_data in
      (* band_raw = None *)
      let locals := locals ∪ {[ "band_raw" ]} in
      (Some out_data,
       del ["img"; "band_raw"; "band"; "out_data"; "novalue"; "outband"; "band_filter"]
         locals)
  end.


(** *** The divisor of equation 5 *)

Lemma eps_term_at_least (eps : spec_float) :
  Float.nonneg eps = true → Float.at_least false (-13) (eps_term eps).
Proof.
  intros [[s ->]|[->|(m & e & ->)]]%Float.nonneg_cases.
  - vm_compute. destruct s; split; congruence.
  - vm_compute. done.
  - unfold eps_term, Float.add64.
    pose proof (Float.SFadd_pos_at_least Float.prec64 Float.emax64 ltac:(done)
      m 7378697629483821 e (-66) ltac:(vm_compute; done)) as H.
    change (S754_finite false 7378697629483821 (-66)) with Float.lit_0_0001 in H.
    destruct (SFadd Float.prec64 Float.emax64 (S754_finite false m e) Float.lit_0_0001)
      as [| | |s' m' e']; simpl in H |- *; try done.
    destruct H as [-> H].
    eapply Float.at_least_weaken; [|apply Float.binary_round_at_least];
      [exact H|done|].
    unfold emin, Float.prec32, Float.emax32. lia.
Qed.

Lemma divisor_at_least (v eps : spec_float) :
  Float.nonneg v = true → Float.nonneg eps = true →
  Float.at_least false (-13) (divisor v eps).
Proof.
  intros Hv Heps. pose proof (eps_term_at_least eps Heps) as Hc.
  unfold divisor, Float.add32.
  destruct (eps_term eps) as [| | |sc mc ec]; simpl in Hc; try done.
  - subst. apply Float.nonneg_cases in Hv as [[s ->]|[->|(m & e & ->)]]; simpl; done.
  - destruct Hc as [-> Hc].
    apply Float.nonneg_cases in Hv as [[s ->]|[->|(m & e & ->)]].
    + simpl. done.
    + simpl. done.
    + eapply Float.at_least_weaken; [exact Hc|].
      apply Float.SFadd_pos_at_least; [done|].
      unfold emin, Float.prec32, Float.emax32. lia.
Qed.

(** *** Shapes and pixels of the filter *)

(** [cv2.boxFilter] returns an array of the shape of its input. *)
Definition shape_preserving : Prop :=
  ∀ (a : ndarray) (k : Z), shape (boxFilter a k) = shape a.

Lemma shape_guidedfilter (fsrc src : ndarray) (ksize : Z) (eps : spec_float) :
  shape_preserving → shape src = shape fsrc →
  shape (_guidedfilter fsrc src ksize eps) = shape fsrc.
Proof.
  intros Hbox Hs. unfold _guidedfilter, _boxfilter.
  repeat first
    [ done | congruence
    | rewrite Hbox | rewrite shape_map1
    | rewrite (shape_map2 _ fsrc) | rewrite (shape_map2 _ (boxFilter _ _))
    | rewrite (shape_map2 _ (map2 _ _ _)) ].
Qed.

(** The test the code applies, on the float32 of the pixel and the float32
    of the no-data value. *)
Definition is_nodata (nd v : spec_float) : bool :=
  if Float.isnan nd then Float.isnan v else Float.eqb v nd.

Lemma px_nodata_mask (nd : spec_float) (a : ndarray) (r c : nat) :
  px (nodata_mask nd (float32 a)) r c
  = (λ v, is_nodata (Float.float32 nd) (Float.float32 v)) <$> px a r c.
Proof.
  unfold nodata_mask, is_nodata, isnan, eq_scalar, float32.
  rewrite (Float.isnan_float32 nd).
  destruct (Float.isnan nd); rewrite !px_map1; by destruct (px a r c).
Qed.

Lemma is_nodata_float32 (nd v : spec_float) :
  is_nodata nd v = true → is_nodata (Float.float32 nd) (Float.float32 v) = true.
Proof.
  unfold is_nodata. rewrite !Float.isnan_float32.
  destruct (Float.isnan nd); [done|]. apply Float.eqb_float32.
Qed.

Lemma shape_nodata_mask (nd : spec_float) (a : ndarray) :
  shape (nodata_mask nd a) = shape a.
Proof. unfold nodata_mask. destruct (Float.isnan nd); apply shape_map1. Qed.

Lemma shape_filter_input (b : band) : shape (filter_input b) = shape (data b).
Proof.
  unfold filter_input. destruct (nodata b) as [nd|].
  - rewrite shape_where_scalar; rewrite shape_nodata_mask; [|done].
    apply shape_map1.
  - apply shape_map1.
Qed.

(** What is written out for a band with a no-data value is the filter's
    result on [filter_input], with the masked pixels taken from the band. *)
Lemma filter_output_nodata (ksize : Z) (eps : spec_float) (b : band) (nd : spec_float) :
  nodata b = Some nd →
  filter_output ksize eps b
  = where_ (nodata_mask nd (float32 (data b))) (float32 (data b))
      (_guidedfilter (filter_input b) (filter_input b) ksize eps).
Proof.
  intros Hnd. unfold filter_output, filter_input, nodata_mask. rewrite Hnd.
  by destruct (Float.isnan nd).
Qed.

(** *** The loop over the bands *)

Definition filtered (ksize : Z) (eps : spec_float) (b : band) : band :=
  Band (nodata b) (filter_output ksize eps b).

Lemma filter_band_frame (ksize : Z) (eps : spec_float) (img ds : dataset) (i : nat) :
  let ds' := filter_band ksize eps img ds i in
  GeoTransform ds' = GeoTransform ds ∧ Projection ds' = Projection ds ∧
  driver ds' = driver ds ∧ options ds' = options ds.
Proof.
  unfold filter_band. destruct (bands img !! i) as [b|]; [|done].
  by destruct (nodata b).
Qed.

(** After [n] rounds the first [n] bands are written, the others are as
    [Create] made them. *)
Lemma filter_loop_bands (ksize : Z) (eps : spec_float) (img : dataset)
    (drv : string) (opts : list string) (n : nat) :
  (n ≤ RasterCount img)%nat →
  bands (foldl (filter_band ksize eps img)
           (Create drv (RasterXSize img) (RasterYSize img) (RasterCount img) opts)
           (seq 0 n))
  = (filtered ksize eps <$> take n (bands img))
    ++ replicate (RasterCount img - n)
         (Band None (zeros (RasterYSize img) (RasterXSize img))).
Proof.
  unfold RasterCount. induction n as [|n IH]; intros Hn.
  - simpl. by rewrite Nat.sub_0_r.
  - rewrite seq_S, foldl_app. simpl.
    destruct (lookup_lt_is_Some_2 (bands img) n ltac:(lia)) as [b Hb].
    unfold filter_band at 1. rewrite Hb.
    assert (Hlen : length (filtered ksize eps <$> take n (bands img)) = n).
    { rewrite length_fmap, length_take. lia. }
    replace (length (bands img) - n)%nat with (S (length (bands img) - S n)) in IH by lia.
    rewrite (take_S_r _ _ _ Hb), fmap_app, <- app_assoc. simpl.
    destruct (nodata b) as [nd|] eqn:Hnd; simpl; rewrite IH by lia.
    + rewrite <- (Nat.add_0_r n) at 1 2. rewrite <- Hlen at 1 2.
      rewrite !alter_app_r. simpl. unfold filtered. by rewrite Hnd.
    + rewrite <- (Nat.add_0_r n) at 1. rewrite <- Hlen at 1.
      rewrite !alter_app_r. simpl. unfold filtered. by rewrite Hnd.
Qed.

Lemma filter_loop_frame (ksize : Z) (eps : spec_float) (img ds : dataset)
    (l : list nat) :
  let ds' := foldl (filter_band ksize eps img) ds l in
  GeoTransform ds' = GeoTransform ds ∧ Projection ds' = Projection ds ∧
  driver ds' = driver ds ∧ options ds' = options ds.
Proof.
  revert ds. induction l as [|i l IH]; intros ds; simpl; [done|].
  destruct (IH (filter_band ksize eps img ds i)) as (-> & -> & -> & ->).
  apply filter_band_frame.
Qed.

(** The loop carries the output dataset and the local names side by side. *)
Lemma filter_loop_split (ksize : Z) (eps : spec_float) (img ds : dataset)
    (locals : gset string) (l : list nat) :
  foldl (λ '(out_data, locals) i,
           (filter_band ksize eps img out_data i, locals ∪ assigned img i))
    (ds, locals) l
  = (foldl (filter_band ksize eps img) ds l,
     foldl (λ locals i, locals ∪ assigned img i) locals l).
Proof.
  revert ds locals. induction l as [|i l IH]; intros ds locals; simpl; [done|].
  apply IH.
Qed.

Lemma filter_loop_locals (img : dataset) (locals : gset string) (l : list nat)
    (name : string) :
  name ∈ foldl (λ locals i, locals ∪ assigned img i) locals l
  ↔ name ∈ locals ∨ ∃ i, i ∈ l ∧ name ∈ assigned img i.
Proof.
  revert locals. induction l as [|i l IH]; intros locals; simpl.
  - split; [by left|]. intros [?|(i & Hi & _)]; [done|by inversion Hi].
  - rewrite IH, elem_of_union. split.
    + intros [[?|?]|(j & Hj & ?)]; [by left|right; exists i|right; exists j];
        split; try done; [by left|by right].
    + intros [?|(j & Hj & ?)]; [by left; left|].
      apply elem_of_cons in Hj as [->|Hj]; [by left; right|].
      right. by exists j.
Qed.

(** The result of [guided_filter] for the two supported formats. *)
Lemma guided_filter_result (img : dataset) (ksize : Z) (eps : spec_float)
    (out_format : string) :
  out_format = "ENVI" ∨ out_format = "GTiff" →
  ∃ out, (guided_filter img ksize eps out_format).1 = Some out ∧
    bands out = filtered ksize eps <$> bands img ∧
    GeoTransform out = GeoTransform img ∧ Projection out = Projection img ∧
    driver out = out_format.
Proof.
  intros Hf. unfold guided_filter.
  assert (Hb : ∀ opts,
    bands (foldl (filter_band ksize eps img)
             (Create out_format (RasterXSize img) (RasterYSize img)
                (RasterCount img) opts) (seq 0 (RasterCount img)))
    = filtered ksize eps <$> bands img).
  { intros opts. rewrite filter_loop_bands by done.
    rewrite Nat.sub_diag, app_nil_r. unfold RasterCount. by rewrite firstn_all. }
  destruct Hf as [->| ->]; simpl; rewrite filter_loop_split; simpl;
    eexists; (split; [done|]); simpl;
    rewrite Hb; repeat split;
    apply (filter_loop_frame ksize eps img (Create _ _ _ _ _)).
Qed.

Lemma assigned_lookup (img : dataset) (i : nat) (b : band) :
  bands img !! i = Some b →
  assigned img i
  = match nodata b with
    | Some _ => {[ "i"; "novalue"; "band_raw"; "band"; "band_filter"; "out"; "outband" ]}
    | None => {[ "i"; "band"; "out"; "outband" ]}
    end.
Proof. intros Hb. unfold assigned. by rewrite Hb. Qed.

(** Membership of a name in a set of names that is written out. *)
Ltac bound := apply (bool_decide_unpack (_ ∈ _)); by vm_compute.
Ltac not_bound H := apply (bool_decide_pack (_ ∈ _)) in H; by vm_compute in H.

(** A no-data pixel of a band with a no-data value: the filter sees the
    marker there, and the band's float32 value is what is written out. *)
Lemma nodata_pixel (ksize : Z) (eps : spec_float) (b : band) (nd v : spec_float)
    (r c : nat) :
  shape_preserving → nodata b = Some nd →
  px (data b) r c = Some v →
  is_nodata (Float.float32 nd) (Float.float32 v) = true →
  px (filter_input b) r c = Some marker ∧
  px (filter_output ksize eps b) r c = Some (Float.float32 v).
Proof.
  intros Hbox Hnd Hv Hno.
  assert (Hraw : px (float32 (data b)) r c = Some (Float.float32 v)).
  { unfold float32. by rewrite px_map1, Hv. }
  assert (Hmask : px (nodata_mask nd (float32 (data b))) r c = Some true).
  { by rewrite px_nodata_mask, Hv, <- Hno. }
  split.
  - unfold filter_input. rewrite Hnd, px_where_scalar, Hmask, Hraw. done.
  - rewrite (filter_output_nodata _ _ _ _ Hnd), px_where, Hmask, Hraw. simpl.
    destruct (px_shape (data b)
                (_guidedfilter (filter_input b) (filter_input b) ksize eps) r c)
      as [w ->]; [|by eexists|done].
    rewrite shape_guidedfilter by done. apply shape_filter_input.
Qed.

(** ** Claims on [guided_filter.py] *)

(** The filter is the chain of box-filtered means of the
    paper: with the local means of guide, target, guide*target and
    guide*guide, [a = cov / (var + float32(eps + 0.0001))] and
    [b = mean(target) - a * mean(guide)] at every pixel, and the result is
    [q = mean(a) * guide + mean(b)], of the shape of the guide.  The divisor
    is neither zero nor NaN at a pixel whose [var] is non-negative, for a
    non-negative [eps]. *)
Theorem guidedfilter_equations (fsrc src : ndarray) (ksize : Z) (eps : spec_float) :
  shape_preserving → shape src = shape fsrc →
  let mean_guided := boxFilter fsrc ksize in
  let mean_img := boxFilter src ksize in
  let mean_gi := boxFilter (map2 Float.mul32 fsrc src) ksize in
  let mean_gg := boxFilter (map2 Float.mul32 fsrc fsrc) ksize in
  let cov_gi := map2 Float.sub32 mean_gi (map2 Float.mul32 mean_guided mean_img) in
  let var_g := map2 Float.sub32 mean_gg (map2 Float.mul32 mean_guided mean_guided) in
  let a :=
    map2 Float.div32 cov_gi
      (map1 (λ v, Float.add32 v (Float.float32 (Float.add64 eps Float.lit_0_0001)))
         var_g) in
  let b := map2 Float.sub32 mean_img (map2 Float.mul32 a mean_guided) in
  let q := _guidedfilter fsrc src ksize eps in
  q = map2 Float.add32 (map2 Float.mul32 (boxFilter a ksize) fsrc) (boxFilter b ksize) ∧
  shape q = shape fsrc ∧
  ∀ (r c : nat) (g : spec_float), px fsrc r c = Some g →
    ∃ cov var mi mg ma mb,
      px cov_gi r c = Some cov ∧ px var_g r c = Some var ∧
      px mean_img r c = Some mi ∧ px mean_guided r c = Some mg ∧
      px a r c = Some (Float.div32 cov (divisor var eps)) ∧
      px b r c
      = Some (Float.sub32 mi (Float.mul32 (Float.div32 cov (divisor var eps)) mg)) ∧
      px (boxFilter a ksize) r c = Some ma ∧ px (boxFilter b ksize) r c = Some mb ∧
      px q r c = Some (Float.add32 (Float.mul32 ma g) mb) ∧
      (Float.nonneg var = true → Float.nonneg eps = true →
       Float.is_zero (divisor var eps) = false ∧
       Float.isnan (divisor var eps) = false).
Proof.
  intros Hbox Hs mean_guided mean_img mean_gi mean_gg cov_gi var_g a b q.
  split; [reflexivity|].
  split; [by apply shape_guidedfilter|].
  intros r c g Hg.
  assert (Hpx : ∀ x : ndarray, shape x = shape fsrc → ∃ v, px x r c = Some v).
  { intros x Hx. by apply (px_shape fsrc x r c Hx). }
  assert (Hs_mg : shape mean_guided = shape fsrc) by apply Hbox.
  assert (Hs_mi : shape mean_img = shape fsrc) by (unfold mean_img; by rewrite Hbox).
  assert (Hs_gi : shape mean_gi = shape fsrc).
  { unfold mean_gi. rewrite Hbox. by apply shape_map2. }
  assert (Hs_gg : shape mean_gg = shape fsrc).
  { unfold mean_gg. rewrite Hbox. by apply shape_map2. }
  assert (Hs_cov : shape cov_gi = shape fsrc).
  { unfold cov_gi. rewrite (shape_map2 _ mean_gi); [done|].
    rewrite (shape_map2 _ mean_guided); congruence. }
  assert (Hs_var : shape var_g = shape fsrc).
  { unfold var_g. rewrite (shape_map2 _ mean_gg); [done|].
    rewrite (shape_map2 _ mean_guided); congruence. }
  assert (Hs_a : shape a = shape fsrc).
  { unfold a. rewrite (shape_map2 _ cov_gi); [done|]. rewrite shape_map1. congruence. }
  assert (Hs_b : shape b = shape fsrc).
  { unfold b. rewrite (shape_map2 _ mean_img); [done|].
    rewrite (shape_map2 _ a); congruence. }
  destruct (Hpx cov_gi Hs_cov) as [cov Hcov].
  destruct (Hpx var_g Hs_var) as [var Hvar].
  destruct (Hpx mean_img Hs_mi) as [mi Hmi].
  destruct (Hpx mean_guided Hs_mg) as [mg Hmg].
  destruct (Hpx (boxFilter a ksize) ltac:(by rewrite Hbox)) as [ma Hma].
  destruct (Hpx (boxFilter b ksize) ltac:(by rewrite Hbox)) as [mb Hmb].
  exists cov, var, mi, mg, ma, mb.
  assert (Ha : px a r c = Some (Float.div32 cov (divisor var eps))).
  { unfold a. by rewrite px_map2, px_map1, Hcov, Hvar. }
  repeat split; try done.
  - unfold b. by rewrite !px_map2, Ha, Hmi, Hmg.
  - change q with (map2 Float.add32 (map2 Float.mul32 (boxFilter a ksize) fsrc)
                     (boxFilter b ksize)).
    by rewrite !px_map2, Hma, Hg, Hmb.
  - by apply (Float.at_least_nonzero false (-13)), divisor_at_least.
  - by apply (Float.at_least_nonzero false (-13)), divisor_at_least.
Qed.

(** C4.  The constant does not keep the divisor from zero.  It is added to
    [eps] in float64 and the sum is rounded to float32 before it meets the
    variance: where the rounding gives back [eps] (as for 4096), a pixel
    whose computed variance is [-eps] has [var + eps = 0], which is not
    negative, and the divisor is zero there, so that [a] is infinite or
    NaN whatever the covariance. *)
Theorem divisor_unguarded (eps : spec_float) (m : positive) (e : Z) :
  let var := S754_finite true m e in
  Float.eqv (S754_finite false m e) eps = true →
  eps_term eps = S754_finite false m e →
  Float.nonneg eps = true ∧
  divisor var eps = S754_zero false ∧
  ∀ cov, let a := Float.div32 cov (divisor var eps) in
    Float.isnan a = true ∨ ∃ s, a = S754_infinity s.
Proof.
  intros var Heps Hterm.
  assert (Hd : divisor var eps = S754_zero false).
  { unfold divisor, var. rewrite Hterm. unfold Float.add32, SFadd. cbv zeta.
    rewrite Z.min_id. unfold shl_align. rewrite !Z.sub_diag.
    cbn [fst cond_Zopp]. by rewrite Z.add_opp_diag_l. }
  split; [|split; [done|]].
  - destruct eps as [| | |[] me ee]; try done.
  - intros cov. rewrite Hd.
    destruct cov as [sc|sc| |sc mc ec]; simpl; eauto.
Qed.

(** C5 (amended).  For the two supported formats [guided_filter] writes a
    raster with the geotransform and the projection of the source.  A band
    that declares a no-data value carries that value in the output; a pixel
    of it at a no-data location (the float32 of the pixel compares equal to
    the float32 of the sentinel, or is NaN when the sentinel is NaN: the
    test of the code) is the marker -9999 in the array handed to the
    filter, and the output holds the float32 conversion of the input value
    there, which is the input value itself when that is a binary32 number,
    as every value of a Float32 band is. *)
Theorem guided_filter_restores_nodata (img : dataset) (ksize : Z)
    (eps : spec_float) (out_format : string) :
  shape_preserving →
  out_format = "ENVI" ∨ out_format = "GTiff" →
  ∃ out, (guided_filter img ksize eps out_format).1 = Some out ∧
    GeoTransform out = GeoTransform img ∧ Projection out = Projection img ∧
    ∀ (i : nat) (b : band) (nd : spec_float),
      bands img !! i = Some b → nodata b = Some nd →
      ∃ ob, bands out !! i = Some ob ∧ nodata ob = Some nd ∧
        data ob = where_ (nodata_mask nd (float32 (data b))) (float32 (data b))
                    (_guidedfilter (filter_input b) (filter_input b) ksize eps) ∧
        ∀ (r c : nat) (v : spec_float),
          px (data b) r c = Some v →
          is_nodata (Float.float32 nd) (Float.float32 v) = true →
          px (filter_input b) r c = Some marker ∧
          px (data ob) r c = Some (Float.float32 v) ∧
          (Float.is_binary32 v = true → px (data ob) r c = Some v).
Proof.
  intros Hbox Hf.
  destruct (guided_filter_result img ksize eps out_format Hf)
    as (out & Hout & Hbands & Hg & Hp & _).
  exists out. repeat split; try done.
  intros i b nd Hb Hnd. exists (filtered ksize eps b).
  split; [by rewrite Hbands, list_lookup_fmap, Hb|].
  split; [done|]. split; [by apply filter_output_nodata|].
  intros r c v Hv Hno.
  destruct (nodata_pixel ksize eps b nd v r c Hbox Hnd Hv Hno) as [Hin Ho].
  repeat split; try done.
  intros H32. simpl. by rewrite Ho, Float.float32_binary32.
Qed.

(** C10.  A band without a declared no-data value is filtered as a whole:
    in the raster that [guided_filter] writes, the output band is the
    filter's result on the float32 band itself, with no marker and no
    restored pixel, and it has no no-data value. *)
Theorem guided_filter_undeclared_nodata (img : dataset) (ksize : Z)
    (eps : spec_float) (out_format : string) :
  out_format = "ENVI" ∨ out_format = "GTiff" →
  ∃ out, (guided_filter img ksize eps out_format).1 = Some out ∧
    ∀ (i : nat) (b : band),
      bands img !! i = Some b → nodata b = None →
      ∃ ob, bands out !! i = Some ob ∧ nodata ob = None ∧
        data ob = _guidedfilter (float32 (data b)) (float32 (data b)) ksize eps.
Proof.
  intros Hf.
  destruct (guided_filter_result img ksize eps out_format Hf)
    as (out & Hout & Hbands & _).
  exists out. split; [done|]. intros i b Hb Hnd.
  exists (filtered ksize eps b).
  split; [by rewrite Hbands, list_lookup_fmap, Hb|].
  split; [done|]. simpl. unfold filter_output. by rewrite Hnd.
Qed.

(** X2.  How [guided_filter] ends, after the raster is written and closed.
    The names [novalue] and [band_filter] are assigned in the branch of a
    band with a no-data value only, [band] and [outband] in every round of
    the loop over the bands: the final [del] raises [UnboundLocalError] on
    [novalue] when no band of the source declares a no-data value (on
    [band] when the source has no band), and the call returns when some
    band declares one. *)
Theorem guided_filter_outcome (img : dataset) (ksize : Z) (eps : spec_float)
    (out_format : string) :
  out_format = "ENVI" ∨ out_format = "GTiff" →
  (guided_filter img ksize eps out_format).2
  = match bands img with
    | [] => UnboundLocalError "band"
    | _ :: _ =>
        if decide (Exists (λ b, is_Some (nodata b)) (bands img)) then Returned
        else UnboundLocalError "novalue"
    end.
Proof.
  intros Hf. unfold guided_filter.
  set (L0 := ({[ "src_path"; "ksize"; "eps"; "dst_dir"; "out_format";
       "img"; "width"; "height"; "n_band"; "driver"; "dst_path"; "out_data" ]}
       : gset string)).
  assert (Hloop : ∀ ds,
    (let '(out_data, locals) :=
       foldl (λ '(out_data, locals) i,
                (filter_band ksize eps img out_data i, locals ∪ assigned img i))
         (ds, L0) (seq 0 (RasterCount img)) in
     (Some (SetProjection (Projection img)
              (SetGeoTransform (GeoTransform img) out_data)),
      del ["img"; "band_raw"; "band"; "out_data"; "novalue"; "outband"; "band_filter"]
        (locals ∪ {[ "band_raw" ]}))).2
    = match bands img with
      | [] => UnboundLocalError "band"
      | _ :: _ =>
          if decide (Exists (λ b, is_Some (nodata b)) (bands img)) then Returned
          else UnboundLocalError "novalue"
      end).
  { intros ds. rewrite filter_loop_split. cbn [snd].
    set (L := foldl _ L0 _).
    assert (HL : ∀ name, name ∈ L ∪ {[ "band_raw" ]} ↔
              name ∈ L0 ∨ name = "band_raw" ∨
              ∃ i b, bands img !! i = Some b ∧ name ∈ assigned img i).
    { intros name. rewrite elem_of_union, elem_of_singleton.
      unfold L. rewrite filter_loop_locals. split.
      - intros [[?|(i & Hi & Hn)]|?]; [by left| |by right; left].
        right; right. exists i.
        destruct (bands img !! i) as [b|] eqn:Hb; [by exists b|].
        unfold assigned in Hn. rewrite Hb in Hn. by apply elem_of_empty in Hn.
      - intros [?|[?|(i & b & Hb & Hn)]]; [by left; left|by right|].
        left; right. exists i. split; [|done].
        apply elem_of_seq. apply lookup_lt_Some in Hb. unfold RasterCount. lia. }
    assert (Himg : "img" ∈ L ∪ {[ "band_raw" ]}) by (apply HL; left; bound).
    assert (Hout : "out_data" ∈ L ∪ {[ "band_raw" ]}) by (apply HL; left; bound).
    assert (Hraw : "band_raw" ∈ L ∪ {[ "band_raw" ]}) by (apply HL; right; by left).
    assert (Hround : ∀ name,
      name = "band" ∨ name = "outband" →
      name ∈ L ∪ {[ "band_raw" ]} ↔ bands img ≠ []).
    { intros name Hname. rewrite HL. split.
      - intros [H0|[H0|(i & b & Hb & _)]].
        + exfalso. destruct Hname as [-> | ->]; not_bound H0.
        + exfalso. by destruct Hname as [-> | ->].
        + intros Hnil. by rewrite Hnil in Hb.
      - intros Hne. right; right.
        destruct (bands img) as [|b l] eqn:Hbands; [done|].
        assert (Hb : bands img !! 0%nat = Some b) by (by rewrite Hbands).
        exists 0%nat, b. rewrite <- Hbands. split; [done|].
        rewrite (assigned_lookup img 0 b Hb).
        destruct (nodata b); destruct Hname as [-> | ->]; bound. }
    assert (Hbranch : ∀ name,
      name = "novalue" ∨ name = "band_filter" →
      name ∈ L ∪ {[ "band_raw" ]} ↔ Exists (λ b, is_Some (nodata b)) (bands img)).
    { intros name Hname. rewrite HL, Exists_exists. split.
      - intros [H0|[H0|(i & b & Hb & Hn)]].
        + exfalso. destruct Hname as [-> | ->]; not_bound H0.
        + exfalso. by destruct Hname as [-> | ->].
        + exists b. split; [by eapply list_elem_of_lookup_2|].
          rewrite (assigned_lookup img i b Hb) in Hn.
          destruct (nodata b); [done|].
          exfalso. destruct Hname as [-> | ->]; not_bound Hn.
      - intros (b & Hin & Hnd). right; right.
        apply list_elem_of_lookup_1 in Hin as [i Hi].
        exists i, b. split; [done|]. rewrite (assigned_lookup img i b Hi).
        destruct (nodata b); [|by destruct Hnd].
        destruct Hname as [-> | ->]; bound. }
    unfold del. rewrite !filter_cons, filter_nil.
    pose proof (Hround "band" ltac:(by left)) as Hband.
    pose proof (Hround "outband" ltac:(by right)) as Houtband.
    pose proof (Hbranch "novalue" ltac:(by left)) as Hnovalue.
    pose proof (Hbranch "band_filter" ltac:(by right)) as Hfilter.
    destruct (bands img) as [|b0 l0] eqn:Hbands.
    - assert (Hnot : "band" ∉ L ∪ {[ "band_raw" ]}) by (by intros H%Hband).
      repeat case_decide; try done; exfalso; tauto.
    - assert (Hb : "band" ∈ L ∪ {[ "band_raw" ]}) by (by apply Hband).
      assert (Hob : "outband" ∈ L ∪ {[ "band_raw" ]}) by (by apply Houtband).
      clear Hband Houtband.
      destruct (decide (Exists (λ b, is_Some (nodata b)) (b0 :: l0))) as [Hex|Hex];
        repeat case_decide; try done; exfalso; tauto. }
  destruct Hf as [->| ->]; simpl; apply Hloop.
Qed.

End Filter.

(** *** Concrete instances *)

(** The box filter of kernel size 1: the mean over the pixel alone. *)
Definition box1 (a : ndarray) (ksize : Z) : ndarray := a.

Lemma box1_shape : shape_preserving box1.
Proof. intros a k. reflexivity. Defined.

(** A 1 x 2 raster with two bands: band 1 has the no-data value 0 and a
    no-data pixel, band 2 declares none. *)
Definition sample_img : dataset :=
  {| RasterXSize := 2; RasterYSize := 1;
     bands := [ Band (Some (Float.of_int64 0)) [Float.of_int32 <$> [0; 5]];
                Band None [Float.of_int32 <$> [1; 2]] ];
     GeoTransform := Float.of_int64 <$> [30; 1; 0; 10; 0; -1];
     Projection := "EPSG:4326"; driver := "ENVI"; options := [] |}.

Lemma guidedfilter_equations_witness :
  let g := [Float.of_int32 <$> [1; 3]] in
  shape_preserving box1 ∧ shape g = shape g ∧
  shape (_guidedfilter box1 g g 1 (Float.of_int64 0)) = shape g.
Proof.
  split; [exact box1_shape|]. split; [reflexivity|].
  exact (proj1 (proj2 (guidedfilter_equations box1
           [Float.of_int32 <$> [1; 3]] [Float.of_int32 <$> [1; 3]] 1
           (Float.of_int64 0) box1_shape eq_refl))).
Defined.

(** For [eps = 4096] the float32 value of [eps + 0.0001] is 4096, and a
    pixel with [var = -4096] has the divisor 0. *)
Lemma divisor_unguarded_witness :
  Float.eqv (Float.of_int32 4096) (Float.of_int64 4096) = true ∧
  eps_term (Float.of_int64 4096) = Float.of_int32 4096 ∧
  divisor (Float.of_int32 (-4096)) (Float.of_int64 4096) = S754_zero false ∧
  Float.div32 (Float.of_int32 7) (divisor (Float.of_int32 (-4096)) (Float.of_int64 4096))
  = S754_infinity false.
Proof.
  split; [reflexivity|]. split; [reflexivity|].
  destruct (divisor_unguarded (Float.of_int64 4096) 8388608 (-11) eq_refl eq_refl)
    as (_ & Hd & _).
  split; [exact Hd|]. reflexivity.
Defined.

(** A 1 x 2 Float32 raster of one band with the no-data value -9999 (a
    Python float) and a no-data pixel. *)
Definition marked_img : dataset :=
  {| RasterXSize := 2; RasterYSize := 1;
     bands := [ Band (Some (Float.of_int64 (-9999))) [Float.of_int32 <$> [-9999; 5]] ];
     GeoTransform := Float.of_int64 <$> [30; 1; 0; 10; 0; -1];
     Projection := "EPSG:4326"; driver := "ENVI"; options := [] |}.

Lemma guided_filter_restores_nodata_witness :
  shape_preserving box1 ∧ ("ENVI" = "ENVI" ∨ "ENVI" = "GTiff") ∧
  is_nodata (Float.float32 (Float.of_int64 (-9999)))
    (Float.float32 (Float.of_int32 (-9999))) = true ∧
  Float.is_binary32 (Float.of_int32 (-9999)) = true ∧
  ∃ out, (guided_filter box1 marked_img 1 (Float.of_int64 0) "ENVI").1 = Some out ∧
    GeoTransform out = GeoTransform marked_img ∧
    Projection out = Projection marked_img ∧
    ∃ ob, bands out !! 0%nat = Some ob ∧ nodata ob = Some (Float.of_int64 (-9999)) ∧
      px (data ob) 0 0 = Some (Float.of_int32 (-9999)).
Proof.
  split; [exact box1_shape|]. split; [by left|].
  split; [reflexivity|]. split; [reflexivity|].
  destruct (guided_filter_restores_nodata box1 marked_img 1 (Float.of_int64 0)
              "ENVI" box1_shape (or_introl eq_refl))
    as (out & Hout & Hg & Hp & Hb).
  exists out. repeat split; try done.
  destruct (Hb 0%nat _ _ eq_refl eq_refl) as (ob & Hob & Hnd & _ & Hpx).
  exists ob. repeat split; try done.
  destruct (Hpx 0%nat 0%nat (Float.of_int32 (-9999)) eq_refl eq_refl)
    as (_ & _ & H32).
  exact (H32 eq_refl).
Defined.

(** C5, as stated, fails on a Float64 band: its no-data value
    -1.7976931348623157e308 is not a float32, the no-data pixel is read as
    -inf, and -inf is what the output holds there. *)
Lemma guided_filter_float64_nodata :
  let v := S754_finite true 9007199254740991 971 in
  let img := {| RasterXSize := 1; RasterYSize := 1;
                bands := [Band (Some v) [[v]]];
                GeoTransform := default_geotransform; Projection := "";
                driver := "GTiff"; options := [] |} in
  Float.is_binary64 v = true ∧
  is_nodata (Float.float32 v) (Float.float32 v) = true ∧
  px (data (Band (Some v) [[v]])) 0 0 = Some v ∧
  (∀ boxFilter, shape_preserving boxFilter →
     ∃ out ob, (guided_filter boxFilter img 3 (Float.of_int64 1) "GTiff").1 = Some out ∧
       bands out !! 0%nat = Some ob ∧
       px (data ob) 0 0 = Some (S754_infinity true)) ∧
  S754_infinity true ≠ v.
Proof.
  repeat split; try done.
  intros boxFilter Hbox.
  destruct (guided_filter_result boxFilter
    {| RasterXSize := 1; RasterYSize := 1;
       bands := [Band (Some (S754_finite true 9007199254740991 971))
                   [[S754_finite true 9007199254740991 971]]];
       GeoTransform := default_geotransform; Projection := "";
       driver := "GTiff"; options := [] |} 3 (Float.of_int64 1) "GTiff"
    (or_intror eq_refl)) as (out & Hout & Hbands & _).
  exists out, (filtered boxFilter 3 (Float.of_int64 1)
                 (Band (Some (S754_finite true 9007199254740991 971))
                    [[S754_finite true 9007199254740991 971]])).
  split; [done|]. split; [by rewrite Hbands|].
  unfold filtered; cbn [data].
  destruct (nodata_pixel boxFilter 3 (Float.of_int64 1)
       (Band (Some (S754_finite true 9007199254740991 971))
          [[S754_finite true 9007199254740991 971]])
       (S754_finite true 9007199254740991 971)
       (S754_finite true 9007199254740991 971) 0 0 Hbox eq_refl eq_refl eq_refl)
    as [_ Ho].
  rewrite Ho. reflexivity.
Qed.

Lemma guided_filter_undeclared_nodata_witness :
  ("GTiff" = "ENVI" ∨ "GTiff" = "GTiff") ∧
  ∃ out ob, (guided_filter box1 sample_img 1 (Float.of_int64 0) "GTiff").1 = Some out ∧
    bands out !! 1%nat = Some ob ∧ nodata ob = None ∧
    data ob = _guidedfilter box1 [Float.of_int32 <$> [1; 2]]
                [Float.of_int32 <$> [1; 2]] 1 (Float.of_int64 0).
Proof.
  split; [by right|].
  destruct (guided_filter_undeclared_nodata box1 sample_img 1 (Float.of_int64 0)
              "GTiff" (or_intror eq_refl)) as (out & Hout & Hb).
  destruct (Hb 1%nat _ eq_refl eq_refl) as (ob & Hob & Hnd & Hd).
  by exists out, ob.
Defined.

(** A raster of one band that declares no no-data value. *)
Definition plain_img : dataset :=
  {| RasterXSize := 2; RasterYSize := 1;
     bands := [ Band None [Float.of_int32 <$> [1; 2]] ];
     GeoTransform := default_geotransform;
     Projection := "EPSG:4326"; driver := "ENVI"; options := [] |}.

Lemma guided_filter_outcome_witness :
  ("ENVI" = "ENVI" ∨ "ENVI" = "GTiff") ∧
  (guided_filter box1 plain_img 1 (Float.of_int64 0) "ENVI").2
  = UnboundLocalError "novalue" ∧
  is_Some (guided_filter box1 plain_img 1 (Float.of_int64 0) "ENVI").1.
Proof.
  split; [by left|]. split.
  - exact (guided_filter_outcome box1 plain_img 1 (Float.of_int64 0) "ENVI"
             (or_introl eq_refl)).
  - by eexists.
Defined.

Example guided_filter_returns :
  (guided_filter box1 sample_img 1 (Float.of_int64 0) "ENVI").2 = Returned.
Proof. by vm_compute. Qed.

Example guided_filter_exits :
  guided_filter box1 sample_img 1 (Float.of_int64 0) "PNG" = (None, SystemExit).
Proof. reflexivity. Qed.

End GuidedFilter.

(** ** preprocess_level3.py: dates and the periodic coordinate *)

Module TimeSeries.

(** A [datetime] at midnight. *)
Record date := Date { year : Z; month : Z; day : Z }.

Definition is_leap (y : Z) : bool :=
  (y mod 4 =? 0) && (negb (y mod 100 =? 0) || (y mod 400 =? 0)).

Definition days_in_month (y m : Z) : Z :=
  if m =? 2 then (if is_leap y then 29 else 28)
  else if (m =? 4) || (m =? 6) || (m =? 9) || (m =? 11) then 30
  else 31.

(** Days of the year before the first of month [m]. *)
Definition days_before_month (y m : Z) : Z :=
  foldr Z.add 0 (days_in_month y <$> (Z.of_nat <$> seq 1 (Z.to_nat (m - 1)))).

Definition valid_date (d : date) : bool :=
  (1 <=? year d) && (year d <=? 9999) &&
  (1 <=? month d) && (month d <=? 12) &&
  (1 <=? day d) && (day d <=? days_in_month (year d) (month d)).

(** [str.split(sep)] for a one-character separator. *)
Fixpoint split (sep : Ascii.ascii) (s : string) : list string :=
  match s with
  | EmptyString => [EmptyString]
  | String c s' =>
      if Ascii.eqb c sep then EmptyString :: split sep s'
      else match split sep s' with
           | h :: t => String c h :: t
           | [] => [String c EmptyString]
           end
  end.

Definition digit (c : Ascii.ascii) : option Z :=
  let n := Z.of_N (Ascii.N_of_ascii c) in
  if (48 <=? n) && (n <=? 57) then Some (n - 48) else None.

Fixpoint digits (acc : Z) (s : string) : option Z :=
  match s with
  | EmptyString => Some acc
  | String c s' => d ← digit c; digits (10 * acc + d) s'
  end.

(** The fields of [strptime(..., '%Y-%m-%d')]: four digits; one digit 1-9
    or two digits 01-12; one digit 1-9, a blank and a digit 1-9, or two
    digits 01-31. *)
Definition parse_year (s : string) : option Z :=
  if decide (String.length s = 4%nat) then digits 0 s else None.

Definition parse_month (s : string) : option Z :=
  v ← digits 0 s;
  if decide ((String.length s = 1 ∨ String.length s = 2)%nat ∧ 1 ≤ v ≤ 12)
  then Some v else None.

Definition parse_day (s : string) : option Z :=
  v ← match s with
       | String " "%char s' => if decide (String.length s' = 1%nat) then digits 0 s' else None
       | _ => digits 0 s
       end;
  if decide ((String.length s = 1 ∨ String.length s = 2)%nat ∧ 1 ≤ v ≤ 31)
  then Some v else None.

(** [_get_date(fname)]: the fifth field of the name, cut at 4, 6 and 8;
    [None] is the [IndexError] of the split or the [ValueError] of
    [strptime]. *)
Definition _get_date (fname : string) : option date :=
  date ← split "_"%char fname !! 4%nat;
  y ← parse_year (substring 0 4 date);
  m ← parse_month (substring 4 2 date);
  d ← parse_day (substring 6 2 date);
  let date := Date y m d in
  if valid_date date then Some date else None.

(** [date.timetuple().tm_yday] *)
Definition _get_date_doy (date : date) : Z :=
  let day_of_year := days_before_month (year date) (month date) + day date in
  day_of_year.

(** The order of [datetime]. *)
Definition date_le (a b : date) : Prop :=
  year a < year b ∨
  (year a = year b ∧ (month a < month b ∨ (month a = month b ∧ day a ≤ day b))).

#[global] Instance date_le_dec : RelDecision date_le.
Proof. intros a b. unfold date_le. apply _. Defined.

Definition _adjust_doy (doys : list Z) (start freq : Z) : list Z :=
  let doys := (λ doy, doy - start) <$> doys in
  let doys :=
    (λ doy, if decide (doy >= 0) then doy else doy + start + freq - start) <$> doys in
  doys.

(** The day-of-year sequence of the names, by ascending date: the value of
    [doys] before the adjustment of [_get_doy]. *)
Definition doy_sequence (fnames : list string) : option (list Z) :=
  dates ← mapM _get_date fnames;
  let dates := merge_sort date_le dates in
  Some (_get_date_doy <$> dates).

Definition _get_doy (fnames : list string) (freq : Z) : option (list Z) :=
  (* Extract time *)
  dates ← mapM _get_date fnames;
  let dates := merge_sort date_le dates in
  (* Get DOY *)
  let doys := _get_date_doy <$> dates in
  (* Adjust DOY *)
  let doys_check := merge_sort Z.le doys in
  if decide (doys_check = doys) then Some doys
  else start ← doys !! 0%nat; Some (_adjust_doy doys start freq).

(** The adjustment in the words of the specification: subtract the first
    day of year, and add the frequency to a negative result. *)
Definition wrap (start freq doy : Z) : Z :=
  if doy - start <? 0 then doy - start + freq else doy - start.

Definition non_decreasing (l : list Z) : Prop := Sorted Z.le l.

Lemma merge_sort_fixed (l : list Z) : merge_sort Z.le l = l ↔ Sorted Z.le l.
Proof.
  split.
  - intros <-. apply (Sorted_merge_sort Z.le).
  - intros Hs. apply (Sorted_unique Z.le); [|done|apply merge_sort_Permutation].
    apply (Sorted_merge_sort Z.le).
Qed.

Lemma _adjust_doy_wrap (doys : list Z) (start freq : Z) :
  _adjust_doy doys start freq = wrap start freq <$> doys.
Proof.
  unfold _adjust_doy. rewrite <- list_fmap_compose. apply list_fmap_ext.
  intros _ doy _. unfold wrap. simpl.
  case_decide; destruct (Z.ltb_spec (doy - start) 0); lia.
Qed.

Lemma StronglySorted_fmap_mono (f : Z → Z) (l : list Z) :
  (∀ x y, x ∈ l → y ∈ l → x ≤ y → f x ≤ f y) →
  StronglySorted Z.le l → StronglySorted Z.le (f <$> l).
Proof.
  intros Hf Hl. induction Hl as [|d l Hl IH Hd]; simpl; constructor.
  - apply IH. intros x y ? ?. apply Hf; by right.
  - rewrite Forall_fmap. rewrite Forall_forall in Hd |- *. intros y Hy. simpl.
    apply Hf; [by left|by right|auto].
Qed.

Lemma wrap_two_runs (start freq : Z) (hi lo : list Z) :
  1 ≤ start ≤ freq →
  Sorted Z.le hi → Sorted Z.le lo →
  Forall (λ d, start ≤ d) hi → Forall (λ d, d < start) lo →
  Forall (λ d, 1 ≤ d ≤ freq) (hi ++ lo) →
  Sorted Z.le (wrap start freq <$> (hi ++ lo)) ∧
  Forall (λ x, 0 ≤ x < freq) (wrap start freq <$> (hi ++ lo)).
Proof.
  intros Hst Shi Slo Hhi Hlo Hr.
  apply (Sorted_StronglySorted Z.le) in Shi, Slo.
  apply Forall_app in Hr as [Rhi Rlo].
  rewrite Forall_forall in Hhi, Hlo, Rhi, Rlo.
  assert (Hw_hi : ∀ d, d ∈ hi → wrap start freq d = d - start).
  { intros d Hd%Hhi. unfold wrap. destruct (Z.ltb_spec (d - start) 0); lia. }
  assert (Hw_lo : ∀ d, d ∈ lo → wrap start freq d = d - start + freq).
  { intros d Hd%Hlo. unfold wrap. destruct (Z.ltb_spec (d - start) 0); lia. }
  rewrite fmap_app. split.
  - apply StronglySorted_Sorted, StronglySorted_app_2.
    + intros x1 x2 [d1 [-> H1]]%list_elem_of_fmap [d2 [-> H2]]%list_elem_of_fmap.
      rewrite Hw_hi, Hw_lo by done.
      specialize (Rhi d1 H1). specialize (Rlo d2 H2). lia.
    + apply StronglySorted_fmap_mono; [|done].
      intros x y Hx Hy ?. rewrite !Hw_hi by done. lia.
    + apply StronglySorted_fmap_mono; [|done].
      intros x y Hx Hy ?. rewrite !Hw_lo by done. lia.
  - apply Forall_app. rewrite !Forall_fmap, !Forall_forall. split.
    + intros d Hd. simpl. rewrite Hw_hi by done.
      specialize (Rhi d Hd). specialize (Hhi d Hd). lia.
    + intros d Hd. simpl. rewrite Hw_lo by done.
      specialize (Rlo d Hd). specialize (Hlo d Hd). lia.
Qed.

(** ** Claims on the aligner *)

(** C3 (amended).  With [doys] the day-of-year sequence of the names by
    ascending date: when it is non-decreasing, [_get_doy] returns it as it
    is; otherwise it returns it with the first day of year subtracted from
    every value and the frequency added to every negative result.  That
    result is non-decreasing and within one period [0, freq) when [doys] is a
    non-decreasing run of values from the first one upwards followed by a
    non-decreasing run of values below it, all of them between 1 and [freq]. *)
Theorem _get_doy_aligns (fnames : list string) (freq : Z) (doys : list Z) :
  doy_sequence fnames = Some doys →
  (non_decreasing doys → _get_doy fnames freq = Some doys) ∧
  (¬ non_decreasing doys →
   ∃ start, doys !! 0%nat = Some start ∧
     _get_doy fnames freq = Some (wrap start freq <$> doys) ∧
     ∀ hi lo, doys = hi ++ lo →
       non_decreasing hi → non_decreasing lo →
       Forall (λ d, start ≤ d) hi → Forall (λ d, d < start) lo →
       Forall (λ d, 1 ≤ d ≤ freq) doys →
       non_decreasing (wrap start freq <$> doys) ∧
       Forall (λ x, 0 ≤ x < freq) (wrap start freq <$> doys)).
Proof.
  unfold doy_sequence, _get_doy, non_decreasing.
  destruct (mapM _get_date fnames) as [dates|]; cbn [mbind option_bind]; [|done].
  intros [= <-]. generalize (_get_date_doy <$> merge_sort date_le dates).
  intros doys. split.
  - intros Hs%merge_sort_fixed. by rewrite decide_True.
  - intros Hns. rewrite decide_False by (by rewrite merge_sort_fixed).
    destruct (doys !! 0%nat) as [start|] eqn:Hst.
    + exists start. split; [done|].
      split; [cbn [mbind option_bind]; by rewrite _adjust_doy_wrap|].
      intros hi lo Heq Shi Slo Hhi Hlo Hr.
      pose proof (Forall_lookup_1 _ _ _ _ Hr Hst) as Hstart.
      rewrite Heq in Hr |- *. by apply wrap_two_runs.
    + destruct doys; [|done]. destruct Hns. constructor.
Qed.

Definition year_crossing : list string :=
  [ "S1A_IW_GRDH_1SDV_20191110T034512_VV.img";
    "S1A_IW_GRDH_1SDV_20200210T034512_VV.img";
    "S1A_IW_GRDH_1SDV_20191210T034512_VV.img";
    "S1A_IW_GRDH_1SDV_20200110T034512_VV.img" ]%string.

Lemma _get_doy_aligns_witness :
  doy_sequence year_crossing = Some [314; 344; 10; 41] ∧
  _get_doy year_crossing 365 = Some [0; 30; 61; 92] ∧
  non_decreasing [0; 30; 61; 92].
Proof.
  split; [reflexivity|].
  destruct (proj2 (_get_doy_aligns year_crossing 365 [314; 344; 10; 41] eq_refl))
    as (start & Hst & Hget & Hrun).
  { apply (bool_decide_eq_false_1 (Sorted Z.le _)). reflexivity. }
  injection Hst as <-.
  split; [exact Hget|].
  apply (Hrun [314; 344] [10; 41] eq_refl).
  - repeat constructor; lia.
  - repeat constructor; lia.
  - repeat constructor; lia.
  - repeat constructor; lia.
  - repeat constructor; lia.
Defined.

(** C3, as stated, fails on a series longer than a year: for 2019-12-01,
    2020-06-01 and 2020-12-15 the days of year 335, 153, 350 are adjusted
    to 0, 183, 15. *)
Lemma _get_doy_not_monotone :
  doy_sequence [ "S1A_IW_GRDH_1SDV_20191201T034512_VV.img";
                 "S1A_IW_GRDH_1SDV_20200601T034512_VV.img";
                 "S1A_IW_GRDH_1SDV_20201215T034512_VV.img" ]%string
  = Some [335; 153; 350] ∧
  _get_doy [ "S1A_IW_GRDH_1SDV_20191201T034512_VV.img";
             "S1A_IW_GRDH_1SDV_20200601T034512_VV.img";
             "S1A_IW_GRDH_1SDV_20201215T034512_VV.img" ]%string 365
  = Some [0; 183; 15] ∧
  ¬ non_decreasing [0; 183; 15].
Proof.
  split; [reflexivity|]. split; [reflexivity|].
  apply (bool_decide_eq_false_1 (Sorted Z.le _)). reflexivity.
Qed.

Example doy_2019_12_01 : _get_date "S1A_IW_GRDH_1SDV_20191201T034512_VV.img"
  = Some (Date 2019 12 1).
Proof. reflexivity. Qed.

Example doy_leap : _get_date_doy (Date 2020 12 15) = 350.
Proof. reflexivity. Qed.

End TimeSeries.

(** ** preprocess_level3.py: the design matrix

    The matrix is a float64 array: the days and the column indices are
    int arrays that numpy converts, [np.pi] is the float64 nearest to pi,
    and every operation rounds to float64.  [np.cos] is numpy's and a
    section variable. *)

Module Design.
Import Np.

Definition arange (n : nat) : list Z := Z.of_nat <$> seq 0 n.

Section Cos.

(** [np.cos] on a float64. *)
Variable np_cos : spec_float → spec_float.

(** [_getVariable(freq, day_arr, n)]; [None] is the [IndexError] of
    [out[:, 0]] on an array without columns. *)
Definition _getVariable (freq : Z) (day_arr : list Z) (n : nat) : option ndarray :=
  (* t = np.tile(np.array([day_arr]).transpose(), (1, n)) *)
  let t := (λ d : Z, replicate n d) <$> day_arr in
  (* n = np.tile(np.arange(n), (len(day_arr), 1)) *)
  let n_ := replicate (length day_arr) (arange n) in
  (* n0 = np.ceil(n / 2) *)
  let n0 :=
    map1 (λ j : Z, Float.ceil64 (Float.div64 (Float.of_int64 j) (Float.of_int64 2)))
      n_ in
  (* out = np.cos((2 * np.pi * n0 * t) / freq - (n % 2) * np.pi / 2) *)
  let out :=
    map2 (λ (p : spec_float * Z) (j : Z),
            np_cos
              (Float.sub64
                 (Float.div64
                    (Float.mul64
                       (Float.mul64 (Float.mul64 (Float.of_int64 2) Float.pi) p.1)
                       (Float.of_int64 p.2))
                    (Float.of_int64 freq))
                 (Float.div64 (Float.mul64 (Float.of_int64 (j mod 2)) Float.pi)
                    (Float.of_int64 2))))
         (map2 pair n0 t) n_ in
  (* out[:, 0] = t[:, 0] *)
  if decide (n = 0%nat) then None
  else Some (zip_with (λ (row : list spec_float) (trow : list Z),
                         match trow !! 0%nat with
                         | Some d => <[0%nat := Float.of_int64 d]> row
                         | None => row
                         end) out t).

(** The angle [(2 * np.pi * h * t) / freq] of harmonic [h] at day [t], the
    phase [(j % 2) * np.pi / 2] of column [j], and the entry of column [j]
    in the row of day [t]. *)
Definition angle (freq t : Z) (h : spec_float) : spec_float :=
  Float.div64
    (Float.mul64 (Float.mul64 (Float.mul64 (Float.of_int64 2) Float.pi) h)
       (Float.of_int64 t))
    (Float.of_int64 freq).

Definition phase (j : Z) : spec_float :=
  Float.div64 (Float.mul64 (Float.of_int64 (j mod 2)) Float.pi) (Float.of_int64 2).

Definition harmonic (j : Z) : spec_float :=
  Float.ceil64 (Float.div64 (Float.of_int64 j) (Float.of_int64 2)).

Definition entry (freq t j : Z) : spec_float :=
  np_cos (Float.sub64 (angle freq t (harmonic j)) (phase j)).

(** One row of the matrix: the cosines over the column indices, with the
    day put in column 0. *)
Definition design_row (freq : Z) (n : nat) (t : Z) : list spec_float :=
  <[0%nat := Float.of_int64 t]> (entry freq t <$> arange n).

Lemma cos_row (freq d : Z) (l : list Z) :
  zip_with (λ (p : spec_float * Z) (j : Z),
              np_cos
                (Float.sub64
                   (Float.div64
                      (Float.mul64
                         (Float.mul64 (Float.mul64 (Float.of_int64 2) Float.pi) p.1)
                         (Float.of_int64 p.2))
                      (Float.of_int64 freq))
                   (Float.div64 (Float.mul64 (Float.of_int64 (j mod 2)) Float.pi)
                      (Float.of_int64 2))))
    (zip_with pair
       ((λ j : Z, Float.ceil64 (Float.div64 (Float.of_int64 j) (Float.of_int64 2)))
          <$> l)
       (replicate (length l) d)) l
  = entry freq d <$> l.
Proof.
  induction l as [|j l IH]; [done|].
  change (length (j :: l)) with (S (length l)).
  cbn [replicate fmap list_fmap zip_with]. f_equal. exact IH.
Qed.

Lemma length_arange (n : nat) : length (arange n) = n.
Proof. unfold arange. by rewrite length_fmap, length_seq. Qed.

Lemma lookup_arange (n j : nat) : (j < n)%nat → arange n !! j = Some (Z.of_nat j).
Proof.
  intros Hj. unfold arange. by rewrite list_lookup_fmap, lookup_seq_lt.
Qed.

Lemma _getVariable_rows (freq : Z) (day_arr : list Z) (n : nat) :
  n ≠ 0%nat →
  _getVariable freq day_arr n = Some (design_row freq n <$> day_arr).
Proof.
  intros Hn. unfold _getVariable. rewrite decide_False by done. f_equal.
  unfold map1, map2. induction day_arr as [|d day_arr IH]; [done|].
  change (length (d :: day_arr)) with (S (length day_arr)).
  cbn [replicate fmap list_fmap zip_with]. f_equal; [|exact IH].
  pose proof (cos_row freq d (arange n)) as Hrow.
  rewrite length_arange in Hrow. rewrite Hrow.
  destruct n as [|n]; [done|]. reflexivity.
Qed.

(** The phase of an even column is 0, that of an odd column the float64
    [np.pi / 2]. *)
Lemma phase_even (j : nat) : Nat.Even j → phase (Z.of_nat j) = S754_zero false.
Proof.
  intros [q ->]. unfold phase.
  replace (Z.of_nat (2 * q) mod 2) with 0; [reflexivity|].
  rewrite Nat2Z.inj_mul, Z.mul_comm, Z.mod_mul; lia.
Qed.

Lemma phase_odd (j : nat) :
  Nat.Odd j → phase (Z.of_nat j) = Float.div64 Float.pi (Float.of_int64 2).
Proof.
  intros [q ->]. unfold phase.
  replace (Z.of_nat (2 * q + 1) mod 2) with 1; [reflexivity|].
  rewrite Nat2Z.inj_add, Nat2Z.inj_mul, Z.add_comm, Z.mul_comm, Z.mod_add; [done|lia].
Qed.

(** ** Claims on the design matrix *)

(** C2.  For [n = 1 + 2k] columns the matrix has one row per coordinate and
    [1 + 2k] columns; column 0 holds the coordinate, and column [j] from 1
    to [2k] holds [np.cos] of [2*pi*h*t/f - (j mod 2)*pi/2] as float64
    arithmetic gives it, with [h] the float64 of [ceil(j/2)]: for an even
    [j] it is [np.cos(2*pi*h*t/f)], the cosine term, and for an odd [j] it
    is [np.cos(2*pi*h*t/f - pi/2)], the sine-phase term. *)
Theorem _getVariable_design (freq : Z) (day_arr : list Z) (k : nat) :
  ∃ out, _getVariable freq day_arr (1 + 2 * k) = Some out ∧
    length out = length day_arr ∧
    Forall (λ row, length row = (1 + 2 * k)%nat) out ∧
    ∀ (i : nat) (t : Z), day_arr !! i = Some t →
      px out i 0 = Some (Float.of_int64 t) ∧
      ∀ j : nat, (1 ≤ j ≤ 2 * k)%nat →
        let h := Float.ceil64
                   (Float.div64 (Float.of_int64 (Z.of_nat j)) (Float.of_int64 2)) in
        let x :=
          Float.div64
            (Float.mul64 (Float.mul64 (Float.mul64 (Float.of_int64 2) Float.pi) h)
               (Float.of_int64 t))
            (Float.of_int64 freq) in
        px out i j
        = Some (np_cos
                  (Float.sub64 x
                     (Float.div64
                        (Float.mul64 (Float.of_int64 (Z.of_nat j mod 2)) Float.pi)
                        (Float.of_int64 2)))) ∧
        (Z.of_nat j < 2 ^ 53 → h = Float.of_int64 (Z.of_nat ((j + 1) / 2))) ∧
        (Nat.Even j → px out i j = Some (np_cos x)) ∧
        (Nat.Odd j →
         px out i j
         = Some (np_cos (Float.sub64 x (Float.div64 Float.pi (Float.of_int64 2))))).
Proof.
  exists (design_row freq (1 + 2 * k) <$> day_arr).
  split; [by apply _getVariable_rows|].
  split; [by rewrite length_fmap|].
  split.
  { rewrite Forall_fmap. apply Forall_forall. intros t _.
    cbv beta delta [compose design_row].
    by rewrite length_insert, length_fmap, length_arange. }
  intros i t Ht. unfold px. rewrite list_lookup_fmap, Ht.
  cbn [fmap option_fmap option_map mbind option_bind].
  split.
  { unfold design_row. apply list_lookup_insert_eq.
    rewrite length_fmap, length_arange. lia. }
  intros j Hj.
  assert (Hpx : design_row freq (1 + 2 * k) t !! j = Some (entry freq t (Z.of_nat j))).
  { unfold design_row. rewrite list_lookup_insert_ne by lia.
    rewrite list_lookup_fmap, lookup_arange by lia. done. }
  rewrite Hpx. fold (harmonic (Z.of_nat j)).
  fold (angle freq t (harmonic (Z.of_nat j))). fold (phase (Z.of_nat j)).
  split; [done|]. split; [|split].
  - intros Hlt. unfold harmonic. rewrite Float.ceil64_half by lia.
    f_equal. rewrite Nat2Z.inj_div. f_equal. lia.
  - intros He. unfold entry. by rewrite (phase_even j He), Float.sub64_zero.
  - intros Ho. unfold entry. by rewrite (phase_odd j Ho).
Qed.

End Cos.

(** A stand-in for [np.cos]: the argument itself. *)
Definition cos_arg (x : spec_float) : spec_float := x.

Lemma _getVariable_design_witness :
  [335; 10] !! 1%nat = Some 10 ∧ (1 ≤ 2 ≤ 2 * 2)%nat ∧ Nat.Even 2 ∧
  ∃ out, _getVariable cos_arg 365 [335; 10] (1 + 2 * 2) = Some out ∧
    length out = 2%nat ∧
    px out 1 0 = Some (Float.of_int64 10) ∧
    px out 1 2
    = Some (cos_arg
              (Float.div64
                 (Float.mul64
                    (Float.mul64 (Float.mul64 (Float.of_int64 2) Float.pi)
                       (Float.of_int64 1))
                    (Float.of_int64 10))
                 (Float.of_int64 365))).
Proof.
  split; [reflexivity|]. split; [lia|]. split; [by exists 1%nat|].
  destruct (_getVariable_design cos_arg 365 [335; 10] 2)
    as (out & Hout & Hlen & _ & Hpx).
  exists out. split; [exact Hout|]. split; [exact Hlen|].
  destruct (Hpx 1%nat 10 eq_refl) as [H0 Hj]. split; [exact H0|].
  destruct (Hj 2%nat ltac:(lia)) as (_ & _ & Heven & _).
  exact (Heven ltac:(by exists 1%nat)).
Defined.

(** For the frequency 0 the division gives an infinite angle; the entry is
    [np.cos] of it, NaN in numpy, and no exception is raised. *)
Example _getVariable_zero_frequency :
  _getVariable cos_arg 0 [10] 3
  = Some [[Float.of_int64 10; S754_infinity false; S754_infinity false]].
Proof. reflexivity. Qed.

End Design.

(** ** preprocess_level3.py: the per-pixel regression *)

Module Fit.
Import Np.
Import GuidedFilter (band, Band, nodata, data, dataset, bands, RasterXSize, RasterYSize).

(** A Python [for] loop whose body may raise. *)
Fixpoint for_each {S T} (body : S → T → option S) (l : list T) (s : S) : option S :=
  match l with
  | [] => Some s
  | i :: l => s' ← body s i; for_each body l s'
  end.

(** [pool.starmap(func, args)] of [multiprocessing.Pool] as its caller sees
    it.  The calls of [func] write to a file, which is the state here: the
    result is the file when [starmap] returns, or the exception that
    [starmap] raises. *)
Definition pool_starmap (S T : Type) : Type :=
  (T → S → option S) → list T → S → option S.

(** A pool whose workers call [func] once on every argument tuple: [sched]
    is the order, by position in [args], in which the calls write.  The
    exception of a call is raised again by [starmap]. *)
Definition starmap {S T} (sched : list nat) : pool_starmap S T :=
  λ func args s, for_each (λ s task, a ← args !! task; func a s) sched s.

(** [starmap] on a function that is defined inside another function, as
    CPython runs it: every task goes to its worker through [pickle]
    together with [func], [pickle] writes a function as its module and
    qualified name, and a local function cannot be looked up by name, so
    [starmap] raises [AttributeError: Can't pickle local object] in the
    caller and no call of [func] happens.  Without argument tuples there is
    no task to send. *)
Definition starmap_local {S T} : pool_starmap S T :=
  λ func args s, match args with [] => Some s | _ :: _ => None end.

(** [a[mask]] with a boolean mask: [IndexError] when the lengths differ. *)
Fixpoint bool_index {T} (a : list T) (mask : list bool) : option (list T) :=
  match a, mask with
  | [], [] => Some []
  | v :: a, b :: mask => r ← bool_index a mask; Some (if b then v :: r else r)
  | _, _ => None
  end.

(** [np.zeros(shape)] in two and three dimensions. *)
Definition zeros2 (n m : nat) : ndarray := replicate n (replicate m (S754_zero false)).
Definition zeros3 (l n m : nat) : list ndarray := replicate l (zeros2 n m).

(** [a[:, col] = v] with [v] one-dimensional: [v] has one value per row of
    [a], or a single value that is broadcast; [ValueError] otherwise. *)
Definition assign_column (a : ndarray) (col : nat) (v : list spec_float)
  : option ndarray :=
  if decide (length v = length a) then
    Some (zip_with (λ (row : list spec_float) (e : spec_float), <[col := e]> row) a v)
  else match v with
       | [e] => Some ((λ row : list spec_float, <[col := e]> row) <$> a)
       | _ => None
       end.

(** [out[:, row, :] = a] for a float32 array [out] of [len(a)] bands. *)
Definition assign_row (out : list ndarray) (row : nat) (a : ndarray) : list ndarray :=
  zip_with (λ (b : ndarray) (r : list spec_float), <[row := Float.float32 <$> r]> b)
    out a.

(** [np.array([value[row_each, :] for value in values])]: the rows must
    exist and be of one length. *)
Definition values_row_of (values : list ndarray) (row_each : nat)
  : option (list (list spec_float)) :=
  rows ← mapM (λ value : ndarray, value !! row_each) values;
  if decide (Forall (λ r, length r = length (default [] (head rows))) rows)
  then Some rows else None.

(** [read_img(fname)] on the opened file: band 1 with its no-data pixels
    turned into NaN ([np.float32(None)] is NaN).  The array has the data
    type of the band and [novalue] is a float32: [values == novalue]
    compares the numbers. *)
Definition read_img (img : dataset) : option ndarray :=
  band ← bands img !! 0%nat;
  let novalue := Float.float32 (default S754_nan (nodata band)) in
  let values := data band in
  let values_out := where_scalar (eqv_scalar values novalue) S754_nan values in
  Some values_out.

Section Fitter.

(** [Lasso(max_iter=10000, alpha=alpha).fit(x_new, y_new)] is
    scikit-learn's: a function of [alpha], the design rows and the
    observations that returns [coef_] and [intercept_], or raises. *)
Context {X A : Type}.
Variable Lasso_fit :
  A → list X → list spec_float → option (list spec_float * spec_float).

(** The regression loop of [harmonic_fitting] over the opened rasters
    [imgs] (in the order of their dates) and the design matrix [x]; the
    result is [lasso_coefs], indexed by band, row and column. *)
Definition harmonic_fitting (imgs : list dataset) (x : list X) (num_pair : nat)
    (alpha : A) : option (list ndarray) :=
  (* Read meta image *)
  img_tep ← imgs !! 0%nat;
  let n_rows := RasterYSize img_tep in
  let n_cols := RasterXSize img_tep in
  let range_row := seq 0 n_rows in
  let range_col := seq 0 n_cols in
  (* Read all images *)
  values ← mapM read_img imgs;
  (* Define output *)
  let lasso_coefs := zeros3 (2 + num_pair * 2) n_rows n_cols in
  (* Do calculation *)
  for_each (λ lasso_coefs row_each,
    values_row ← values_row_of values row_each;
    let coefs_row := zeros2 (2 + num_pair * 2) n_cols in
    coefs_row ← for_each (λ coefs_row col_each,
      y ← mapM (λ r : list spec_float, r !! col_each) values_row;
      let mask := (λ v, negb (Float.isnan v)) <$> y in
      x_new ← bool_index x mask;
      y_new ← bool_index y mask;
      '(coefficients, intercept) ←
        (if decide (length y_new ≠ 0%nat) then Lasso_fit alpha x_new y_new
         else Some (replicate (1 + num_pair * 2) S754_nan, S754_nan));
      let coefs := intercept :: coefficients in
      assign_column coefs_row col_each coefs) range_col coefs_row;
    Some (assign_row lasso_coefs row_each coefs_row)) range_row lasso_coefs.

(** [_cal_row(row_each, values_row, cols)] of [harmonic_fitting_br], with
    the memory-mapped file [tmp_{tile_index}.dat] as the state it reopens
    and writes one row of. *)
Definition _cal_row (x : list X) (num_pair : nat) (alpha : A) (n_cols : nat)
    (row_each : nat) (values_row : list (list spec_float)) (cols : list nat)
    (memmap : list ndarray) : option (list ndarray) :=
  let coefs_row := zeros2 (2 + num_pair * 2) n_cols in
  coefs_row ← for_each (λ coefs_row col_each,
    y ← mapM (λ r : list spec_float, r !! col_each) values_row;
    let mask := (λ v, negb (Float.isnan v)) <$> y in
    x_new ← bool_index x mask;
    y_new ← bool_index y mask;
    '(coefficients, intercept) ←
      (if decide (length y_new ≠ 0%nat) then Lasso_fit alpha x_new y_new
       else Some (replicate (1 + num_pair * 2) S754_nan, S754_nan));
    let coefs := intercept :: coefficients in
    assign_column coefs_row col_each coefs) cols coefs_row;
  let lasso_coefs_reopen := memmap in
  Some (assign_row lasso_coefs_reopen row_each coefs_row).

(** The regression of [harmonic_fitting_br]: the memory-mapped file is
    created with zeros, the argument list of [pool.starmap] is built, one
    tuple per row, and the pool [pool] is asked to run [_cal_row] on it.
    [_cal_row] is defined inside [harmonic_fitting_br]. *)
Definition harmonic_fitting_br
    (pool : pool_starmap (list ndarray) (nat * list (list spec_float) * list nat))
    (imgs : list dataset) (x : list X) (num_pair : nat) (alpha : A)
  : option (list ndarray) :=
  img_tep ← imgs !! 0%nat;
  let n_rows := RasterYSize img_tep in
  let n_cols := RasterXSize img_tep in
  let range_row := seq 0 n_rows in
  let range_col := seq 0 n_cols in
  values ← mapM read_img imgs;
  let lasso_coefs := zeros3 (2 + num_pair * 2) n_rows n_cols in
  args ← mapM (λ row_one,
                 values_row ← values_row_of values row_one;
                 Some (row_one, values_row, range_col)) range_row;
  pool (λ '(row_each, values_row, cols) memmap,
          _cal_row x num_pair alpha n_cols row_each values_row cols memmap)
    args lasso_coefs.

End Fitter.

Lemma for_each_app {S T} (body : S → T → option S) (l1 l2 : list T) (s : S) :
  for_each body (l1 ++ l2) s = for_each body l1 s ≫= for_each body l2.
Proof.
  revert s. induction l1 as [|i l1 IH]; intros s; simpl; [done|].
  destruct (body s i) as [s'|]; simpl; [apply IH|done].
Qed.

Lemma for_each_ext {S T} (body1 body2 : S → T → option S) (l : list T) (s : S) :
  (∀ s i, i ∈ l → body1 s i = body2 s i) →
  for_each body1 l s = for_each body2 l s.
Proof.
  revert s. induction l as [|i l IH]; intros s Hb; simpl; [done|].
  rewrite Hb by left. destruct (body2 s i) as [s'|]; simpl; [|done].
  apply IH. intros ? ? ?. apply Hb. by right.
Qed.

(** *** Loops

    A loop whose body computes a value from the index alone and then
    updates the state: the order of distinct indices does not matter when
    the updates commute. *)
Section Commute.
Context {S T V : Type} (f : T → option V) (g : S → T → V → S).
Hypothesis g_comm : ∀ s i j u v, i ≠ j → g (g s i u) j v = g (g s j v) i u.

Definition update (s : S) (i : T) : option S := v ← f i; Some (g s i v).

Lemma for_each_update_swap (i j : T) (s : S) :
  i ≠ j →
  update s i ≫= (λ s', update s' j) = update s j ≫= (λ s', update s' i).
Proof.
  intros Hij. unfold update.
  destruct (f i) as [u|], (f j) as [v|]; simpl; try done.
  by rewrite g_comm.
Qed.

Lemma for_each_update_perm (l1 l2 : list T) (s : S) :
  l1 ≡ₚ l2 → NoDup l1 → for_each update l1 s = for_each update l2 s.
Proof.
  intros Hp. revert s. induction Hp as [|i l1 l2 Hp IH|i j l|l1 l2 l3 Hp1 IH1 Hp2 IH2];
    intros s Hnd.
  - done.
  - simpl. destruct (update s i); simpl; [|done]. apply IH. by inversion Hnd.
  - assert (i ≠ j).
    { inversion Hnd as [|? ? Hin _]; subst. intros ->. apply Hin. by left. }
    simpl.
    pose proof (for_each_update_swap i j s ltac:(done)) as Hsw.
    destruct (update s j) as [sj|] eqn:Hj, (update s i) as [si|] eqn:Hi;
      simpl in *; try done.
    + by rewrite Hsw.
    + by rewrite <- Hsw.
    + by rewrite Hsw.
  - rewrite IH1 by done. apply IH2. by rewrite <- Hp1.
Qed.

Lemma for_each_update_None (l : list T) (s : S) (i : T) :
  i ∈ l → f i = None → for_each update l s = None.
Proof.
  revert s. induction l as [|j l IH]; intros s Hin Hf; [by inversion Hin|].
  simpl. apply elem_of_cons in Hin as [<-|Hin].
  - unfold update. by rewrite Hf.
  - destruct (update s j); simpl; [by apply IH|done].
Qed.

End Commute.

Lemma assign_row_comm (s : list ndarray) (i j : nat) (u v : ndarray) :
  i ≠ j → assign_row (assign_row s i u) j v = assign_row (assign_row s j v) i u.
Proof.
  intros Hij. unfold assign_row. revert u v.
  induction s as [|b s IH]; intros [|ru u] [|rv v]; simpl; try done.
  f_equal; [|apply IH]. by apply list_insert_insert_ne.
Qed.

Section Pixel.
Context {X A : Type}.
Variable Lasso_fit :
  A → list X → list spec_float → option (list spec_float * spec_float).
Variables (x : list X) (num_pair : nat) (alpha : A).

(** The coefficient vector of one pixel, as both loops compute it. *)
Definition pixel_coefs (y : list spec_float) : option (list spec_float) :=
  let mask := (λ v, negb (Float.isnan v)) <$> y in
  x_new ← bool_index x mask;
  y_new ← bool_index y mask;
  '(coefficients, intercept) ←
    (if decide (length y_new ≠ 0%nat) then Lasso_fit alpha x_new y_new
     else Some (replicate (1 + num_pair * 2) S754_nan, S754_nan));
  Some (intercept :: coefficients).

Definition column_step (values_row : list (list spec_float))
    (coefs_row : ndarray) (col_each : nat) : option ndarray :=
  y ← mapM (λ r : list spec_float, r !! col_each) values_row;
  coefs ← pixel_coefs y;
  assign_column coefs_row col_each coefs.

(** [coefs_row] at the end of the loop over the columns. *)
Definition row_coefs (n_cols : nat) (values_row : list (list spec_float))
  : option ndarray :=
  for_each (column_step values_row) (seq 0 n_cols) (zeros2 (2 + num_pair * 2) n_cols).

Definition row_result (values : list ndarray) (n_cols : nat) (row_each : nat)
  : option ndarray :=
  values_row_of values row_each ≫= row_coefs n_cols.

Lemma column_step_eq (values_row : list (list spec_float)) (coefs_row : ndarray)
    (col_each : nat) :
  (y ← mapM (λ r : list spec_float, r !! col_each) values_row;
   let mask := (λ v, negb (Float.isnan v)) <$> y in
   x_new ← bool_index x mask;
   y_new ← bool_index y mask;
   '(coefficients, intercept) ←
     (if decide (length y_new ≠ 0%nat) then Lasso_fit alpha x_new y_new
      else Some (replicate (1 + num_pair * 2) S754_nan, S754_nan));
   let coefs := intercept :: coefficients in
   assign_column coefs_row col_each coefs)
  = column_step values_row coefs_row col_each.
Proof.
  unfold column_step, pixel_coefs.
  destruct (mapM _ values_row) as [y|]; simpl; [|done].
  destruct (bool_index x _) as [x_new|]; simpl; [|done].
  destruct (bool_index y _) as [y_new|]; simpl; [|done].
  destruct (if decide (length y_new ≠ 0%nat) then _ else _) as [[c i]|]; done.
Qed.

Lemma harmonic_fitting_rows (imgs : list dataset) :
  harmonic_fitting Lasso_fit imgs x num_pair alpha
  = (img_tep ← imgs !! 0%nat;
     values ← mapM read_img imgs;
     for_each (update (row_result values (RasterXSize img_tep)) assign_row)
       (seq 0 (RasterYSize img_tep))
       (zeros3 (2 + num_pair * 2) (RasterYSize img_tep) (RasterXSize img_tep))).
Proof.
  unfold harmonic_fitting.
  destruct (imgs !! 0%nat) as [img_tep|]; simpl; [|done].
  destruct (mapM read_img imgs) as [values|]; simpl; [|done].
  apply for_each_ext. intros s r _. unfold update, row_result, row_coefs.
  destruct (values_row_of values r) as [vr|]; simpl; [|done].
  erewrite for_each_ext; [done|]. intros ? ? _. apply column_step_eq.
Qed.

Lemma _cal_row_eq (n_cols row_each : nat) (values_row : list (list spec_float))
    (memmap : list ndarray) :
  _cal_row Lasso_fit x num_pair alpha n_cols row_each values_row (seq 0 n_cols) memmap
  = (coefs_row ← row_coefs n_cols values_row;
     Some (assign_row memmap row_each coefs_row)).
Proof.
  unfold _cal_row, row_coefs.
  erewrite for_each_ext; [done|]. intros ? ? _. apply column_step_eq.
Qed.

Lemma harmonic_fitting_br_rows (imgs : list dataset) (sched : list nat) :
  (∀ img_tep, imgs !! 0%nat = Some img_tep → sched ≡ₚ seq 0 (RasterYSize img_tep)) →
  harmonic_fitting_br Lasso_fit (starmap sched) imgs x num_pair alpha
  = (img_tep ← imgs !! 0%nat;
     values ← mapM read_img imgs;
     for_each (update (row_result values (RasterXSize img_tep)) assign_row)
       (seq 0 (RasterYSize img_tep))
       (zeros3 (2 + num_pair * 2) (RasterYSize img_tep) (RasterXSize img_tep))).
Proof.
  intros Hs. unfold harmonic_fitting_br, starmap.
  destruct (imgs !! 0%nat) as [img_tep|]; simpl; [|done].
  specialize (Hs img_tep eq_refl).
  destruct (mapM read_img imgs) as [values|]; simpl; [|done].
  set (n_rows := RasterYSize img_tep) in *. set (n_cols := RasterXSize img_tep).
  set (z := zeros3 _ _ _).
  destruct (mapM _ (seq 0 n_rows)) as [args|] eqn:Hargs; simpl.
  - apply mapM_Some in Hargs.
    rewrite <- (for_each_update_perm _ _ assign_row_comm sched (seq 0 n_rows)) at 1;
      [|done|rewrite Hs; apply NoDup_seq].
    apply for_each_ext. intros s t Ht. rewrite Hs in Ht.
    apply elem_of_seq in Ht.
    destruct (Forall2_lookup_l _ _ _ t t Hargs ltac:(by apply lookup_seq_lt; lia))
      as (arg & Harg & Hv).
    rewrite Harg. simpl.
    unfold update, row_result.
    destruct (values_row_of values t) as [vr|]; simpl in Hv; [|done].
    injection Hv as <-. simpl. apply _cal_row_eq.
  - symmetry.
    apply mapM_None, Exists_exists in Hargs as (r & Hr & Hnone).
    destruct (values_row_of values r) eqn:Hv; [done|].
    eapply for_each_update_None; [exact Hr|].
    unfold row_result. by rewrite Hv.
Qed.

(** With [starmap_local] the regression raises as soon as there is a row
    to fit. *)
Lemma harmonic_fitting_br_local (imgs : list dataset) (img_tep : dataset) :
  imgs !! 0%nat = Some img_tep → RasterYSize img_tep ≠ 0%nat →
  harmonic_fitting_br Lasso_fit starmap_local imgs x num_pair alpha = None.
Proof.
  intros Himg Hrows. unfold harmonic_fitting_br, starmap_local. rewrite Himg. simpl.
  destruct (mapM read_img imgs) as [values|]; simpl; [|done].
  destruct (mapM _ (seq 0 (RasterYSize img_tep))) as [args|] eqn:Hargs; simpl; [|done].
  apply mapM_Some, Forall2_length in Hargs. rewrite length_seq in Hargs.
  destruct args; [done|done].
Qed.

(** *** One pixel *)

(** The (design row, observation) pairs whose observation is not NaN. *)
Definition valid_pairs (y : list spec_float) : list (X * spec_float) :=
  filter (λ p, Float.isnan p.2 = false) (zip x y).

Lemma bool_index_zip {T} (a : list T) (y : list spec_float) :
  length a = length y →
  bool_index a ((λ v, negb (Float.isnan v)) <$> y)
  = Some ((filter (λ p : T * spec_float, Float.isnan p.2 = false) (zip a y)).*1) ∧
  bool_index y ((λ v, negb (Float.isnan v)) <$> y)
  = Some ((filter (λ p : T * spec_float, Float.isnan p.2 = false) (zip a y)).*2).
Proof.
  revert y. induction a as [|u a IH]; intros [|v y]; try done.
  intros [= Hl]. destruct (IH y Hl) as [IH1 IH2].
  cbn [fmap list_fmap bool_index zip zip_with]. rewrite IH1, IH2.
  cbn [mbind option_bind]. rewrite filter_cons. cbn [snd].
  by destruct (Float.isnan v).
Qed.

Lemma bool_index_length {T} (a : list T) (mask : list bool) (r : list T) :
  bool_index a mask = Some r → length a = length mask.
Proof.
  revert mask r. induction a as [|u a IH]; intros [|b mask] r; simpl; try done.
  destruct (bool_index a mask) eqn:Hb; simpl; [|done]. intros _. f_equal. eauto.
Qed.

Lemma pixel_coefs_spec (y : list spec_float) :
  length x = length y →
  pixel_coefs y
  = if decide (valid_pairs y = [])
    then Some (replicate (2 + num_pair * 2) S754_nan)
    else '(coefficients, intercept) ←
           Lasso_fit alpha (valid_pairs y).*1 (valid_pairs y).*2;
         Some (intercept :: coefficients).
Proof.
  intros Hl. unfold pixel_coefs.
  destruct (bool_index_zip x y Hl) as [-> Hy].
  destruct (bool_index_zip y y eq_refl) as [_ Hyy].
  assert (Hsnd : (filter (λ p : spec_float * spec_float, Float.isnan p.2 = false)
                    (zip y y)).*2 = (valid_pairs y).*2).
  { rewrite Hy in Hyy. by injection Hyy. }
  rewrite Hy. simpl. fold (valid_pairs y).
  destruct (valid_pairs y) as [|p vp]; [done|].
  rewrite decide_True by done. by rewrite decide_False.
Qed.

Lemma pixel_coefs_length (y : list spec_float) (coefs : list spec_float) :
  pixel_coefs y = Some coefs → length x = length y.
Proof.
  unfold pixel_coefs. destruct (bool_index x _) as [x_new|] eqn:Hx; simpl; [|done].
  intros _. apply bool_index_length in Hx. by rewrite length_fmap in Hx.
Qed.

Lemma valid_pairs_nan (y : list spec_float) :
  Forall (λ v, Float.isnan v = true) y → valid_pairs y = [].
Proof.
  unfold valid_pairs. generalize x. induction y as [|v y IH]; intros [|u a] Hy;
    simpl; try done.
  inversion Hy as [|? ? Hv Hy']; subst.
  rewrite filter_cons. simpl. rewrite decide_False by (by rewrite Hv). by apply IH.
Qed.

Lemma valid_pairs_nil (y : list spec_float) :
  length x = length y → valid_pairs y = [] →
  Forall (λ v, Float.isnan v = true) y.
Proof.
  unfold valid_pairs. generalize x. induction y as [|v y IH]; intros [|u a] Hl;
    try done.
  simpl. rewrite filter_cons. simpl. case_decide as Hv; [done|].
  intros Hf. constructor; [by destruct (Float.isnan v)|].
  apply (IH a); [by injection Hl|done].
Qed.

Lemma pixel_coefs_nan (y coefs : list spec_float) :
  Forall (λ v, Float.isnan v = true) y →
  pixel_coefs y = Some coefs → coefs = replicate (2 + num_pair * 2) S754_nan.
Proof.
  intros Hy Hc. pose proof (pixel_coefs_length _ _ Hc) as Hl.
  rewrite pixel_coefs_spec, valid_pairs_nan, decide_True in Hc by done.
  by injection Hc.
Qed.

End Pixel.

(** *** Arrays of coefficients *)

(** An array of [nb] rows of [w] values. *)
Definition wf (nb w : nat) (a : ndarray) : Prop :=
  length a = nb ∧ Forall (λ row, length row = w) a.

Lemma wf_zeros2 (nb w : nat) : wf nb w (zeros2 nb w).
Proof.
  unfold zeros2. split; [apply length_replicate|].
  apply Forall_replicate, length_replicate.
Qed.

Lemma wf_px (nb w : nat) (a : ndarray) (b c : nat) :
  wf nb w a → (b < nb)%nat → (c < w)%nat → is_Some (px a b c).
Proof.
  intros [Hl Hw] Hb Hc. unfold px.
  destruct (lookup_lt_is_Some_2 a b ltac:(lia)) as [row Hrow]. rewrite Hrow. simpl.
  apply lookup_lt_is_Some_2.
  rewrite Forall_forall in Hw. rewrite (Hw row); [done|].
  by eapply list_elem_of_lookup_2.
Qed.

Lemma assign_column_wf (nb w : nat) (a a' : ndarray) (c : nat) (v : list spec_float) :
  wf nb w a → assign_column a c v = Some a' → wf nb w a'.
Proof.
  intros [Hl Hw]. unfold assign_column. case_decide as Hv.
  - intros [= <-]. split; [rewrite length_zip_with; lia|].
    apply Forall_forall. intros row [i Hi]%list_elem_of_lookup_1.
    rewrite lookup_zip_with in Hi.
    apply bind_Some in Hi as (r & Hr & Hi).
    apply bind_Some in Hi as (e & He & Hi). injection Hi as <-.
    rewrite length_insert. rewrite Forall_forall in Hw. apply Hw.
    by eapply list_elem_of_lookup_2.
  - destruct v as [|e [|]]; try done. intros [= <-].
    split; [by rewrite length_fmap|].
    rewrite Forall_fmap. eapply Forall_impl; [exact Hw|].
    intros row Hr. simpl. by rewrite length_insert.
Qed.

Lemma assign_column_other (a a' : ndarray) (c c' b : nat) (v : list spec_float) :
  assign_column a c v = Some a' → c' ≠ c → px a' b c' = px a b c'.
Proof.
  unfold assign_column, px. case_decide as Hv.
  - intros [= <-] Hc. rewrite lookup_zip_with.
    destruct (a !! b) as [r|] eqn:Hr; simpl; [|done].
    destruct (lookup_lt_is_Some_2 v b) as [e ->].
    { rewrite Hv. by eapply lookup_lt_Some. }
    simpl. by rewrite list_lookup_insert_ne.
  - destruct v as [|e [|]]; try done. intros [= <-] Hc.
    rewrite list_lookup_fmap. destruct (a !! b); simpl; [|done].
    by rewrite list_lookup_insert_ne.
Qed.

Lemma assign_column_same (nb w : nat) (a a' : ndarray) (c b : nat)
    (v : list spec_float) (e : spec_float) :
  wf nb w a → (c < w)%nat → length v = nb →
  assign_column a c v = Some a' → v !! b = Some e → px a' b c = Some e.
Proof.
  intros [Hl Hw] Hc Hv. unfold assign_column, px.
  rewrite decide_True by lia. intros [= <-] He.
  rewrite lookup_zip_with.
  destruct (lookup_lt_is_Some_2 a b) as [r Hr].
  { rewrite Hl, <- Hv. by eapply lookup_lt_Some. }
  rewrite Hr, He. simpl. apply list_lookup_insert_eq.
  rewrite Forall_forall in Hw. rewrite (Hw r); [done|].
  by eapply list_elem_of_lookup_2.
Qed.

Lemma assign_column_total (a : ndarray) (c : nat) (v : list spec_float) :
  length v = length a → is_Some (assign_column a c v).
Proof. intros Hv. unfold assign_column. rewrite decide_True by done. by eexists. Qed.

(** The output of the fit: [nb] bands of [n_rows] rows. *)
Definition wf3 (nb n_rows : nat) (out : list ndarray) : Prop :=
  length out = nb ∧ Forall (λ band, length band = n_rows) out.

Definition px3 (out : list ndarray) (b r c : nat) : option spec_float :=
  out !! b ≫= λ band, px band r c.

Lemma wf3_zeros3 (nb n_rows n_cols : nat) : wf3 nb n_rows (zeros3 nb n_rows n_cols).
Proof.
  unfold zeros3, zeros2. split; [apply length_replicate|].
  apply Forall_replicate, length_replicate.
Qed.

Lemma assign_row_wf3 (nb n_rows : nat) (out : list ndarray) (r : nat) (a : ndarray) :
  wf3 nb n_rows out → length a = nb → wf3 nb n_rows (assign_row out r a).
Proof.
  intros [Hl Hw] Ha. unfold assign_row. split; [rewrite length_zip_with; lia|].
  apply Forall_forall. intros band [i Hi]%list_elem_of_lookup_1.
  rewrite lookup_zip_with in Hi.
  apply bind_Some in Hi as (band0 & Hb & Hi).
  apply bind_Some in Hi as (row & Hr & Hi). injection Hi as <-.
  rewrite length_insert. rewrite Forall_forall in Hw. apply Hw.
  by eapply list_elem_of_lookup_2.
Qed.

Lemma assign_row_same (nb n_rows : nat) (out : list ndarray) (r b : nat)
    (a : ndarray) (row : list spec_float) :
  wf3 nb n_rows out → length a = nb → (r < n_rows)%nat → a !! b = Some row →
  assign_row out r a !! b ≫= (.!! r) = Some (Float.float32 <$> row).
Proof.
  intros [Hl Hw] Ha Hr Hrow. unfold assign_row. rewrite lookup_zip_with.
  destruct (lookup_lt_is_Some_2 out b) as [band Hband].
  { rewrite Hl, <- Ha. by eapply lookup_lt_Some. }
  rewrite Hband, Hrow. simpl. apply list_lookup_insert_eq.
  rewrite Forall_forall in Hw. rewrite (Hw band); [done|].
  by eapply list_elem_of_lookup_2.
Qed.

Lemma assign_row_other (out : list ndarray) (r r' b : nat) (a : ndarray) :
  length a = length out → r' ≠ r →
  assign_row out r a !! b ≫= (.!! r') = out !! b ≫= (.!! r').
Proof.
  intros Ha Hr. unfold assign_row. rewrite lookup_zip_with.
  destruct (out !! b) as [band|] eqn:Hband; simpl; [|done].
  destruct (lookup_lt_is_Some_2 a b) as [row ->].
  { rewrite Ha. by eapply lookup_lt_Some. }
  simpl. by rewrite list_lookup_insert_ne.
Qed.

Section Loops.
Context {X A : Type}.
Variable Lasso_fit :
  A → list X → list spec_float → option (list spec_float * spec_float).
Variables (x : list X) (num_pair : nat) (alpha : A).

Local Abbreviation nb := (2 + num_pair * 2)%nat.
Local Abbreviation pixel := (pixel_coefs Lasso_fit x num_pair alpha).
Local Abbreviation step := (column_step Lasso_fit x num_pair alpha).
Local Abbreviation coefs_of := (row_coefs Lasso_fit x num_pair alpha).
Local Abbreviation result := (row_result Lasso_fit x num_pair alpha).

(** The loop over the columns, after its first [n] rounds. *)
Lemma column_loop (n_cols : nat) (values_row : list (list spec_float)) (n : nat) :
  ∀ cr, (n ≤ n_cols)%nat →
  for_each (step values_row) (seq 0 n) (zeros2 nb n_cols) = Some cr →
  wf nb n_cols cr ∧
  ∀ c, (c < n)%nat →
    ∃ y coefs, mapM (λ r : list spec_float, r !! c) values_row = Some y ∧
      pixel y = Some coefs ∧
      (length coefs = nb → ∀ b e, coefs !! b = Some e → px cr b c = Some e).
Proof.
  induction n as [|n IH]; intros cr Hn.
  - intros [= <-]. split; [apply wf_zeros2|]. lia.
  - rewrite seq_S, for_each_app. simpl.
    intros (cr0 & H0 & Hstep)%bind_Some.
    destruct (IH cr0 ltac:(lia) H0) as [Hwf Hcols].
    apply bind_Some in Hstep as (cr1 & Hstep & [= ->]).
    unfold column_step in Hstep.
    apply bind_Some in Hstep as (y & Hy & Hstep).
    apply bind_Some in Hstep as (coefs & Hc & Hassign).
    split; [by eapply assign_column_wf|].
    intros c Hlt. destruct (decide (c = n)) as [->|Hne].
    + exists y, coefs. repeat split; try done. intros Hlen b e He.
      by eapply (assign_column_same nb n_cols cr0).
    + destruct (Hcols c ltac:(lia)) as (y' & coefs' & Hy' & Hc' & Hpx).
      exists y', coefs'. repeat split; try done. intros Hlen b e He.
      rewrite (assign_column_other cr0 cr n c b coefs) by done. by apply Hpx.
Qed.

Lemma column_loop_total (n_cols : nat) (values_row : list (list spec_float)) (n : nat) :
  (n ≤ n_cols)%nat →
  (∀ c, (c < n)%nat →
     ∃ y coefs, mapM (λ r : list spec_float, r !! c) values_row = Some y ∧
       pixel y = Some coefs ∧ length coefs = nb) →
  is_Some (for_each (step values_row) (seq 0 n) (zeros2 nb n_cols)).
Proof.
  induction n as [|n IH]; intros Hn Hcols; [by eexists|].
  rewrite seq_S, for_each_app.
  destruct IH as [cr0 H0]; [lia|intros; apply Hcols; lia|].
  rewrite H0. simpl.
  destruct (column_loop n_cols values_row n cr0 ltac:(lia) H0) as [[Hl _] _].
  destruct (Hcols n ltac:(lia)) as (y & coefs & Hy & Hc & Hlen).
  unfold column_step. rewrite Hy. simpl. rewrite Hc. simpl.
  destruct (assign_column_total cr0 n coefs ltac:(lia)) as [cr1 ->]. by eexists.
Qed.

(** The loop over the rows, after its first [n] rounds. *)
Lemma row_loop (values : list ndarray) (n_rows n_cols : nat) (n : nat) :
  ∀ out, (n ≤ n_rows)%nat →
  for_each (update (result values n_cols) assign_row) (seq 0 n)
    (zeros3 nb n_rows n_cols) = Some out →
  wf3 nb n_rows out ∧
  ∀ r, (r < n)%nat →
    ∃ cr, result values n_cols r = Some cr ∧ wf nb n_cols cr ∧
      ∀ b row, cr !! b = Some row →
        out !! b ≫= (.!! r) = Some (Float.float32 <$> row).
Proof.
  assert (Hres : ∀ r cr, result values n_cols r = Some cr → wf nb n_cols cr).
  { intros r cr. unfold row_result. intros (vr & _ & Hcr)%bind_Some.
    by apply (column_loop n_cols vr n_cols cr). }
  induction n as [|n IH]; intros out Hn.
  - intros [= <-]. split; [apply wf3_zeros3|]. lia.
  - rewrite seq_S, for_each_app. simpl.
    intros (out0 & H0 & Hstep)%bind_Some.
    destruct (IH out0 ltac:(lia) H0) as [Hwf Hrows].
    apply bind_Some in Hstep as (out1 & Hstep & [= ->]).
    unfold update in Hstep. apply bind_Some in Hstep as (cr & Hcr & [= <-]).
    pose proof (Hres n cr Hcr) as Hwfcr.
    split; [apply assign_row_wf3; [done|apply Hwfcr]|].
    intros r Hlt. destruct (decide (r = n)) as [->|Hne].
    + exists cr. repeat split; try done; try apply Hwfcr. intros b row Hrow.
      eapply assign_row_same; try done; try lia. apply Hwfcr.
    + destruct (Hrows r ltac:(lia)) as (cr' & Hcr' & Hwf' & Hpx).
      exists cr'. repeat split; try done; try apply Hwf'. intros b row Hrow.
      rewrite assign_row_other; [by apply Hpx| |done].
      destruct Hwf as [-> _]. apply Hwfcr.
Qed.

Lemma row_loop_total (values : list ndarray) (n_cols : nat) (l : list nat)
    (out : list ndarray) :
  (∀ r, r ∈ l → is_Some (result values n_cols r)) →
  is_Some (for_each (update (result values n_cols) assign_row) l out).
Proof.
  revert out. induction l as [|r l IH]; intros out Hl; [by eexists|].
  cbn [for_each]. destruct (Hl r ltac:(by left)) as [cr Hcr].
  assert (update (result values n_cols) assign_row out r
          = Some (assign_row out r cr)) as ->.
  { unfold update. by rewrite Hcr. }
  cbn [mbind option_bind]. apply IH. intros ? ?. apply Hl. by right.
Qed.

End Loops.

(** *** The stack of rasters *)

(** The observation of a raster at a pixel, and the time series of a pixel. *)
Definition observation (img : dataset) (r c : nat) : option spec_float :=
  read_img img ≫= λ a, px a r c.

Definition series (imgs : list dataset) (r c : nat) : option (list spec_float) :=
  mapM (λ img, observation img r c) imgs.

(** Band 1 of the raster is an array of [n_rows] rows of [n_cols] values. *)
Definition well_shaped (n_rows n_cols : nat) (img : dataset) : Prop :=
  ∃ b, bands img !! 0%nat = Some b ∧ shape (data b) = replicate n_rows n_cols.

Lemma values_row_of_Some (values : list ndarray) (r : nat)
    (vr : list (list spec_float)) :
  values_row_of values r = Some vr →
  Forall2 (λ (a : ndarray) row, a !! r = Some row) values vr.
Proof.
  unfold values_row_of. intros (rows & Hrows & Hif)%bind_Some.
  case_decide; [|done]. injection Hif as <-. by apply mapM_Some.
Qed.

Lemma series_of_values (imgs : list dataset) (values : list ndarray) (r c : nat)
    (vr : list (list spec_float)) (y : list spec_float) :
  mapM read_img imgs = Some values →
  values_row_of values r = Some vr →
  mapM (λ row : list spec_float, row !! c) vr = Some y →
  series imgs r c = Some y.
Proof.
  intros Hv%mapM_Some Hvr%values_row_of_Some Hy%mapM_Some.
  apply mapM_Some. apply Forall2_same_length_lookup.
  split.
  - rewrite (Forall2_length _ _ _ Hv), (Forall2_length _ _ _ Hvr).
    by apply Forall2_length in Hy.
  - intros i img v Himg Hyv.
    destruct (Forall2_lookup_l _ _ _ _ _ Hv Himg) as (a & Ha & Hread).
    destruct (Forall2_lookup_l _ _ _ _ _ Hvr Ha) as (row & Hrow & Har).
    destruct (Forall2_lookup_l _ _ _ _ _ Hy Hrow) as (v' & Hv' & Hrc).
    assert (v' = v) as -> by congruence.
    unfold observation, px. rewrite Hread. simpl. by rewrite Har.
Qed.

Lemma read_img_well_shaped (n_rows n_cols : nat) (img : dataset) :
  well_shaped n_rows n_cols img →
  ∃ a, read_img img = Some a ∧ shape a = replicate n_rows n_cols.
Proof.
  intros (b & Hb & Hs). unfold read_img. rewrite Hb. simpl. eexists. split; [done|].
  rewrite shape_where_scalar; unfold eqv_scalar; by rewrite shape_map1.
Qed.

Lemma shape_lookup (n_rows n_cols : nat) (a : ndarray) (r : nat) :
  shape a = replicate n_rows n_cols → (r < n_rows)%nat →
  ∃ row, a !! r = Some row ∧ length row = n_cols.
Proof.
  intros Hs Hr. unfold shape in Hs.
  assert (Hl : (length <$> a) !! r = Some n_cols).
  { rewrite Hs. by apply lookup_replicate_2. }
  rewrite list_lookup_fmap in Hl. destruct (a !! r) as [row|]; [|done].
  exists row. split; [done|]. by injection Hl.
Qed.

Lemma values_row_of_well_shaped (n_rows n_cols : nat) (values : list ndarray) (r : nat) :
  Forall (λ a : ndarray, shape a = replicate n_rows n_cols) values →
  (r < n_rows)%nat →
  ∃ vr, values_row_of values r = Some vr ∧
    length vr = length values ∧ Forall (λ row, length row = n_cols) vr.
Proof.
  intros Hv Hr.
  assert (Hm : ∃ vr, mapM (λ a : ndarray, a !! r) values = Some vr ∧
                 Forall (λ row, length row = n_cols) vr).
  { induction Hv as [|a values Ha Hv IH]; [by exists []|].
    destruct IH as (vr & Hvr & Hlen).
    destruct (shape_lookup n_rows n_cols a r Ha Hr) as (row & Hrow & Hl).
    exists (row :: vr). split; [|by constructor].
    apply mapM_Some. constructor; [done|]. by apply mapM_Some. }
  destruct Hm as (vr & Hvr & Hlen). exists vr.
  split; [|split; [|done]].
  - unfold values_row_of. rewrite Hvr. simpl. rewrite decide_True; [done|].
    destruct vr as [|row0 vr]; [done|]. simpl.
    inversion Hlen; subst. eapply Forall_impl; [exact Hlen|].
    intros row Hrow. simpl in *. congruence.
  - apply mapM_Some in Hvr. symmetry. by eapply Forall2_length.
Qed.

Lemma column_well_shaped (n_cols : nat) (vr : list (list spec_float)) (c : nat) :
  Forall (λ row, length row = n_cols) vr → (c < n_cols)%nat →
  ∃ y, mapM (λ row : list spec_float, row !! c) vr = Some y ∧ length y = length vr.
Proof.
  intros Hvr Hc. induction Hvr as [|row vr Hrow Hvr IH]; [by exists []|].
  destruct IH as (y & Hy & Hl).
  destruct (lookup_lt_is_Some_2 row c ltac:(lia)) as [v Hv].
  exists (v :: y). split; [|by simpl; f_equal].
  apply mapM_Some. constructor; [done|]. by apply mapM_Some.
Qed.

Section Results.
Context {X A : Type}.
Variable Lasso_fit :
  A → list X → list spec_float → option (list spec_float * spec_float).
Variables (x : list X) (num_pair : nat) (alpha : A).

Local Abbreviation nb := (2 + num_pair * 2)%nat.
Local Abbreviation pixel := (pixel_coefs Lasso_fit x num_pair alpha).
Local Abbreviation result := (row_result Lasso_fit x num_pair alpha).

(** What the fit holds at a pixel when it returns. *)
Lemma fit_pixel (imgs : list dataset) (img_tep : dataset) (out : list ndarray)
    (r c : nat) :
  harmonic_fitting Lasso_fit imgs x num_pair alpha = Some out →
  imgs !! 0%nat = Some img_tep →
  (r < RasterYSize img_tep)%nat → (c < RasterXSize img_tep)%nat →
  ∃ y coefs, series imgs r c = Some y ∧ pixel y = Some coefs ∧
    (length coefs = nb → ∀ b e, coefs !! b = Some e →
       px3 out b r c = Some (Float.float32 e)).
Proof.
  rewrite harmonic_fitting_rows. intros Hfit Himg Hr Hc.
  rewrite Himg in Hfit. simpl in Hfit.
  apply bind_Some in Hfit as (values & Hvalues & Hfit).
  destruct (row_loop Lasso_fit x num_pair alpha values _ _ _ out (le_n _) Hfit)
    as [_ Hrows].
  destruct (Hrows r Hr) as (cr & Hcr & Hwf & Hout).
  unfold row_result in Hcr. apply bind_Some in Hcr as (vr & Hvr & Hcr).
  destruct (column_loop Lasso_fit x num_pair alpha _ vr _ cr (le_n _) Hcr)
    as [_ Hcols].
  destruct (Hcols c Hc) as (y & coefs & Hy & Hcoefs & Hpx).
  exists y, coefs. split; [by eapply series_of_values|]. split; [done|].
  intros Hlen b e He. specialize (Hpx Hlen b e He).
  unfold px in Hpx. apply bind_Some in Hpx as (row & Hrow & Hrc).
  specialize (Hout b row Hrow). unfold px3, px.
  apply bind_Some in Hout as (band & -> & Hband). simpl. rewrite Hband. simpl.
  by rewrite list_lookup_fmap, Hrc.
Qed.

(** The all-NaN pixels of a fit that returns. *)
Lemma fit_nan_pixel (imgs : list dataset) (img_tep : dataset) (out : list ndarray)
    (r c : nat) (y : list spec_float) :
  harmonic_fitting Lasso_fit imgs x num_pair alpha = Some out →
  imgs !! 0%nat = Some img_tep →
  (r < RasterYSize img_tep)%nat → (c < RasterXSize img_tep)%nat →
  series imgs r c = Some y → Forall (λ v, Float.isnan v = true) y →
  ∀ b, (b < nb)%nat → px3 out b r c = Some S754_nan.
Proof.
  intros Hfit Himg Hr Hc Hy Hnan b Hb.
  destruct (fit_pixel imgs img_tep out r c Hfit Himg Hr Hc)
    as (y' & coefs & Hy' & Hcoefs & Hpx).
  assert (y' = y) as -> by congruence.
  apply pixel_coefs_nan in Hcoefs; [|done]. subst coefs.
  rewrite (Hpx ltac:(by rewrite length_replicate) b S754_nan); [done|].
  by apply lookup_replicate_2.
Qed.

(** The fit returns on a stack of one shape when [Lasso] does. *)
Lemma fit_returns (imgs : list dataset) (img_tep : dataset) :
  imgs !! 0%nat = Some img_tep →
  Forall (well_shaped (RasterYSize img_tep) (RasterXSize img_tep)) imgs →
  length x = length imgs →
  (∀ r c y, series imgs r c = Some y → valid_pairs x y ≠ [] →
     ∃ cf i, Lasso_fit alpha (valid_pairs x y).*1 (valid_pairs x y).*2 = Some (cf, i) ∧
       length cf = (1 + num_pair * 2)%nat) →
  ∃ out, harmonic_fitting Lasso_fit imgs x num_pair alpha = Some out ∧
    ∀ r c, (r < RasterYSize img_tep)%nat → (c < RasterXSize img_tep)%nat →
      ∃ y coefs, series imgs r c = Some y ∧ pixel y = Some coefs ∧
        length coefs = nb ∧
        ∀ b, (b < nb)%nat → px3 out b r c = Float.float32 <$> coefs !! b.
Proof.
  intros Himg Hshape Hx HLasso.
  set (n_rows := RasterYSize img_tep) in *. set (n_cols := RasterXSize img_tep) in *.
  assert (Hvalues : ∃ values, mapM read_img imgs = Some values ∧
            length values = length imgs ∧
            Forall (λ a : ndarray, shape a = replicate n_rows n_cols) values).
  { clear Himg Hx HLasso. induction Hshape as [|img imgs Hi Hs IH]; [by exists []|].
    destruct IH as (values & Hv & Hl & Hf).
    destruct (read_img_well_shaped _ _ _ Hi) as (a & Ha & Hsa).
    exists (a :: values). split; [|split; [by simpl; f_equal|by constructor]].
    apply mapM_Some. constructor; [done|]. by apply mapM_Some. }
  destruct Hvalues as (values & Hvalues & Hlv & Hsv).
  assert (Hpixel : ∀ r c y, series imgs r c = Some y → ∃ coefs,
            pixel y = Some coefs ∧ length coefs = nb).
  { intros r c y Hy.
    assert (Hly : length x = length y).
    { rewrite Hx. apply mapM_Some in Hy. by eapply Forall2_length. }
    rewrite pixel_coefs_spec by done.
    case_decide as Hvp.
    - eexists. split; [done|]. by rewrite length_replicate.
    - destruct (HLasso r c y Hy) as (cf & i & -> & Hl).
      { by destruct (valid_pairs x y). }
      simpl. eexists. split; [done|]. simpl. by rewrite Hl. }
  assert (Hrow : ∀ r, (r < n_rows)%nat → is_Some (result values n_cols r)).
  { intros r Hr.
    destruct (values_row_of_well_shaped _ _ _ r Hsv Hr) as (vr & Hvr & Hlvr & Hfvr).
    unfold row_result. rewrite Hvr. simpl.
    apply column_loop_total; [done|]. intros c Hc.
    destruct (column_well_shaped _ vr c Hfvr Hc) as (y & Hy & Hly).
    destruct (Hpixel r c y (series_of_values imgs values r c vr y Hvalues Hvr Hy))
      as (coefs & Hcoefs & Hlen).
    by exists y, coefs. }
  destruct (row_loop_total Lasso_fit x num_pair alpha values n_cols (seq 0 n_rows)
              (zeros3 nb n_rows n_cols)) as [out Hout].
  { intros r Hr%elem_of_seq. apply Hrow. lia. }
  assert (Hfit : harmonic_fitting Lasso_fit imgs x num_pair alpha = Some out).
  { rewrite harmonic_fitting_rows, Himg. simpl. rewrite Hvalues. done. }
  exists out. split; [done|]. intros r c Hr Hc.
  destruct (fit_pixel imgs img_tep out r c Hfit Himg Hr Hc)
    as (y & coefs & Hy & Hcoefs & Hpx).
  exists y, coefs. split; [done|]. split; [done|].
  destruct (Hpixel r c y Hy) as (coefs' & Hcoefs' & Hlen).
  assert (coefs' = coefs) as -> by congruence.
  split; [done|]. intros b Hb.
  destruct (lookup_lt_is_Some_2 coefs b ltac:(lia)) as [e He].
  rewrite He. simpl. by apply Hpx.
Qed.

End Results.

(** ** Claims on the regression *)

Section Claims.
Context {X A : Type}.
Variable Lasso_fit :
  A → list X → list spec_float → option (list spec_float * spec_float).

(** [Lasso] returns a fit with [1 + 2 * num_pair] coefficients on the
    valid observations of every pixel of the stack that has some. *)
Definition Lasso_returns (imgs : list dataset) (x : list X) (num_pair : nat)
    (alpha : A) : Prop :=
  ∀ r c y, series imgs r c = Some y → valid_pairs x y ≠ [] →
    ∃ cf i,
      Lasso_fit alpha (valid_pairs x y).*1 (valid_pairs x y).*2 = Some (cf, i) ∧
      length cf = (1 + num_pair * 2)%nat.

(** C1.  [harmonic_fitting_br] hands the local function [_cal_row] to
    [pool.starmap]: on a stack of one shape with at least one row, where
    [harmonic_fitting] returns its coefficients when [Lasso] does, the call
    raises before any pixel is fitted and no coefficients come out of the
    memory-mapped strategy. *)
Theorem strategies_diverge (imgs : list dataset) (x : list X) (num_pair : nat)
    (alpha : A) (img_tep : dataset) :
  imgs !! 0%nat = Some img_tep → RasterYSize img_tep ≠ 0%nat →
  Forall (well_shaped (RasterYSize img_tep) (RasterXSize img_tep)) imgs →
  length x = length imgs → Lasso_returns imgs x num_pair alpha →
  (∃ out, harmonic_fitting Lasso_fit imgs x num_pair alpha = Some out) ∧
  harmonic_fitting_br Lasso_fit starmap_local imgs x num_pair alpha = None.
Proof.
  intros Himg Hrows Hshape Hx HLasso. split.
  - destruct (fit_returns Lasso_fit x num_pair alpha imgs img_tep Himg Hshape Hx HLasso)
      as (out & Hout & _).
    by exists out.
  - by eapply harmonic_fitting_br_local.
Qed.

(** X1.  With a pool that runs [_cal_row] once on every row, whatever the
    order in which the rows are written, the memory-mapped fit returns what
    the row-by-row fit returns: the same coefficients at every pixel, or an
    exception in both.  In that result an all-NaN pixel holds NaN in each of
    the [2 + 2 * num_pair] bands; and both return on a stack of one shape
    when [Lasso] does. *)
Theorem strategies_agree (imgs : list dataset) (x : list X) (num_pair : nat)
    (alpha : A) (sched : list nat) :
  (∀ img_tep, imgs !! 0%nat = Some img_tep → sched ≡ₚ seq 0 (RasterYSize img_tep)) →
  harmonic_fitting_br Lasso_fit (starmap sched) imgs x num_pair alpha
  = harmonic_fitting Lasso_fit imgs x num_pair alpha ∧
  (∀ out img_tep r c y,
     harmonic_fitting_br Lasso_fit (starmap sched) imgs x num_pair alpha = Some out →
     imgs !! 0%nat = Some img_tep →
     (r < RasterYSize img_tep)%nat → (c < RasterXSize img_tep)%nat →
     series imgs r c = Some y → Forall (λ v, Float.isnan v = true) y →
     ∀ b, (b < 2 + num_pair * 2)%nat → px3 out b r c = Some S754_nan) ∧
  (∀ img_tep,
     imgs !! 0%nat = Some img_tep →
     Forall (well_shaped (RasterYSize img_tep) (RasterXSize img_tep)) imgs →
     length x = length imgs → Lasso_returns imgs x num_pair alpha →
     ∃ out, harmonic_fitting_br Lasso_fit (starmap sched) imgs x num_pair alpha
            = Some out ∧
       harmonic_fitting Lasso_fit imgs x num_pair alpha = Some out).
Proof.
  intros Hs.
  assert (Heq : harmonic_fitting_br Lasso_fit (starmap sched) imgs x num_pair alpha
                = harmonic_fitting Lasso_fit imgs x num_pair alpha).
  { by rewrite harmonic_fitting_br_rows, harmonic_fitting_rows. }
  split; [done|]. rewrite Heq. split.
  - intros out img_tep r c y Hfit. by eapply fit_nan_pixel.
  - intros img_tep Himg Hshape Hx HLasso.
    destruct (fit_returns Lasso_fit x num_pair alpha imgs img_tep Himg Hshape Hx HLasso)
      as (out & Hout & _).
    by exists out.
Qed.

(** C6.  On a stack of one shape, with one design row per raster, the fit
    returns when [Lasso] does, whatever pixels are without data.  At every
    pixel the NaN observations are dropped together with their design rows:
    when none is left the coefficient vector is [2 + 2 * num_pair] NaN,
    otherwise it is the intercept and the coefficients of [Lasso] on the
    pairs that are left; the output holds its float32 values. *)
Theorem harmonic_fitting_nodata (imgs : list dataset) (x : list X) (num_pair : nat)
    (alpha : A) (img_tep : dataset) :
  imgs !! 0%nat = Some img_tep →
  Forall (well_shaped (RasterYSize img_tep) (RasterXSize img_tep)) imgs →
  length x = length imgs → Lasso_returns imgs x num_pair alpha →
  ∃ out, harmonic_fitting Lasso_fit imgs x num_pair alpha = Some out ∧
    ∀ r c, (r < RasterYSize img_tep)%nat → (c < RasterXSize img_tep)%nat →
      ∃ y coefs, series imgs r c = Some y ∧
        length coefs = (2 + num_pair * 2)%nat ∧
        (∀ b, (b < 2 + num_pair * 2)%nat →
           px3 out b r c = Float.float32 <$> coefs !! b) ∧
        (Forall (λ v, Float.isnan v = true) y →
           valid_pairs x y = [] ∧
           coefs = replicate (2 + num_pair * 2) S754_nan ∧
           ∀ b, (b < 2 + num_pair * 2)%nat → px3 out b r c = Some S754_nan) ∧
        (¬ Forall (λ v, Float.isnan v = true) y →
           ∃ cf i,
             Lasso_fit alpha (valid_pairs x y).*1 (valid_pairs x y).*2 = Some (cf, i) ∧
             coefs = i :: cf).
Proof.
  intros Himg Hshape Hx HLasso.
  destruct (fit_returns Lasso_fit x num_pair alpha imgs img_tep Himg Hshape Hx HLasso)
    as (out & Hout & Hpx).
  exists out. split; [done|]. intros r c Hr Hc.
  destruct (Hpx r c Hr Hc) as (y & coefs & Hy & Hcoefs & Hlen & Hb).
  exists y, coefs. split; [done|]. split; [done|]. split; [done|].
  assert (Hly : length x = length y).
  { rewrite Hx. apply mapM_Some in Hy. by eapply Forall2_length. }
  split.
  - intros Hnan. split; [by apply valid_pairs_nan|].
    pose proof (pixel_coefs_nan _ _ _ _ _ _ Hnan Hcoefs) as ->.
    split; [done|]. intros b Hlt. rewrite Hb by done.
    by rewrite lookup_replicate_2.
  - intros Hnot. rewrite pixel_coefs_spec in Hcoefs by done.
    rewrite decide_False in Hcoefs by (by intros ?%valid_pairs_nil).
    destruct (Lasso_fit alpha _ _) as [[cf i]|]; [|done].
    exists cf, i. split; [done|]. by injection Hcoefs.
Qed.

End Claims.

(** *** A concrete stack *)

(** A stand-in for [Lasso]: no slope, and the first observation as the
    intercept. *)
Definition first_fit (alpha : unit) (xs : list nat) (ys : list spec_float)
  : option (list spec_float * spec_float) :=
  Some (replicate 3 (S754_zero false), default S754_nan (head ys)).

(** Two rasters of two rows and one column: the pixel of row 0 is the
    no-data value 0 in the first and NaN in the second. *)
Definition stack : list dataset :=
  [ GuidedFilter.Dataset 1 2
      [Band (Some (Float.of_int64 0)) [[Float.of_int32 0]; [Float.of_int32 7]]]
      GuidedFilter.default_geotransform "" "ENVI" [];
    GuidedFilter.Dataset 1 2
      [Band None [[S754_nan]; [Float.of_int32 5]]]
      GuidedFilter.default_geotransform "" "ENVI" [] ].

Lemma first_fit_returns : Lasso_returns first_fit stack [10; 20]%nat 1 tt.
Proof. intros r c y _ _. by eexists _, _. Defined.

Lemma stack_well_shaped : Forall (well_shaped 2 1) stack.
Proof. repeat constructor; by eexists. Defined.

Lemma strategies_diverge_witness :
  stack !! 0%nat = Some (GuidedFilter.Dataset 1 2
      [Band (Some (Float.of_int64 0)) [[Float.of_int32 0]; [Float.of_int32 7]]]
      GuidedFilter.default_geotransform "" "ENVI" []) ∧
  Forall (well_shaped 2 1) stack ∧ Lasso_returns first_fit stack [10; 20]%nat 1 tt ∧
  is_Some (harmonic_fitting first_fit stack [10; 20]%nat 1 tt) ∧
  harmonic_fitting_br first_fit starmap_local stack [10; 20]%nat 1 tt = None.
Proof.
  split; [reflexivity|]. split; [exact stack_well_shaped|].
  split; [exact first_fit_returns|].
  destruct (strategies_diverge first_fit stack [10; 20]%nat 1 tt _ eq_refl
              ltac:(done) stack_well_shaped eq_refl first_fit_returns)
    as [[out Hout] Hbr].
  split; [by exists out|exact Hbr].
Defined.

Lemma strategies_agree_witness :
  [1; 0]%nat ≡ₚ seq 0 2 ∧
  harmonic_fitting_br first_fit (starmap [1; 0]%nat) stack [10; 20]%nat 1 tt
  = harmonic_fitting first_fit stack [10; 20]%nat 1 tt.
Proof.
  split; [apply perm_swap|].
  apply (strategies_agree first_fit stack [10; 20]%nat 1 tt [1; 0]%nat).
  intros img_tep [= <-]. apply perm_swap.
Defined.

Lemma harmonic_fitting_nodata_witness :
  Forall (well_shaped 2 1) stack ∧ Lasso_returns first_fit stack [10; 20]%nat 1 tt ∧
  series stack 0 0 = Some [S754_nan; S754_nan] ∧
  ∃ out, harmonic_fitting first_fit stack [10; 20]%nat 1 tt = Some out ∧
    ∀ b, (b < 4)%nat → px3 out b 0 0 = Some S754_nan.
Proof.
  split; [exact stack_well_shaped|]. split; [exact first_fit_returns|].
  split; [reflexivity|].
  destruct (harmonic_fitting_nodata first_fit stack [10; 20]%nat 1 tt _ eq_refl
              stack_well_shaped eq_refl first_fit_returns) as (out & Hout & Hpx).
  exists out. split; [exact Hout|].
  destruct (Hpx 0%nat 0%nat ltac:(simpl; lia) ltac:(simpl; lia))
    as (y & coefs & Hy & _ & _ & Hnan & _).
  injection Hy as <-.
  by destruct (Hnan ltac:(by repeat constructor)) as (_ & _ & ?).
Defined.

End Fit.

(** ** preprocess_level3.py: the scratch file of [harmonic_fitting_br]

    The file system is the set of paths that exist; a run also keeps the
    log of what it did to it.  An exception (or [sys.exit]) leaves the
    function with the file system as it is at that point. *)

Module Scratch.
Import GuidedFilter (dataset, RasterXSize, RasterYSize).

Inductive event :=
  | Created (path : string)
  | FitStarted
  | FitFinished
  | Written (path : string)
  | Removed (path : string).

Record world := World {
  files : gset string;
  log : list event
}.

(** State and exceptions: [None] is a raised exception. *)
Definition io (A : Type) : Type := world → world * option A.

#[global] Instance io_ret : MRet io := λ A a w, (w, Some a).
#[global] Instance io_bind : MBind io :=
  λ A B k m w, match m w with
               | (w', Some a) => k a w'
               | (w', None) => (w', None)
               end.

Definition raise {A} : io A := λ w, (w, None).
Definition lift {A} (o : option A) : io A := λ w, (w, o).
Definition emit (e : event) : io unit :=
  λ w, (World (files w) (log w ++ [e]), Some tt).

(** [os.path.isdir], [os.mkdir], opening a file for writing, [os.unlink]. *)
Definition isdir (path : string) : io bool :=
  λ w, (w, Some (bool_decide (path ∈ files w))).
Definition mkdir (path : string) : io unit :=
  λ w, (World ({[path]} ∪ files w) (log w ++ [Created path]), Some tt).
Definition create (path : string) : io unit :=
  λ w, (World ({[path]} ∪ files w) (log w ++ [Created path]), Some tt).
Definition unlink (path : string) : io unit :=
  λ w, if decide (path ∈ files w)
       then (World (files w ∖ {[path]}) (log w ++ [Removed path]), Some tt)
       else (w, None).

(** ["tmp_{}.dat".format(tile_index)] and the path of the output raster. *)
Definition tmp_path (tile_index : string) : string :=
  "tmp_" +:+ tile_index +:+ ".dat".
Definition dst_path (dir_coefs tile_index pol : string) : string :=
  dir_coefs +:+ "/" +:+ "tile" +:+ tile_index +:+ "_" +:+ pol +:+ "_harmonic.tif".

(** The two paths differ: one ends in [t], the other in [f]. *)
Fixpoint last_char (s : string) : option ascii :=
  match s with
  | EmptyString => None
  | String c EmptyString => Some c
  | String _ s' => last_char s'
  end.

Lemma last_char_app (s t : string) (c : ascii) :
  last_char t = Some c → last_char (s +:+ t) = Some c.
Proof.
  intros Ht. induction s as [|a s IH]; [done|].
  simpl. rewrite IH. by destruct (s +:+ t).
Qed.

Lemma tmp_path_dst_path (dir_coefs tile_index pol : string) :
  tmp_path tile_index ≠ dst_path dir_coefs tile_index pol.
Proof.
  intros Heq. apply (f_equal last_char) in Heq. unfold tmp_path, dst_path in Heq.
  rewrite (last_char_app _ _ "t") in Heq by (by apply last_char_app).
  rewrite (last_char_app _ _ "f") in Heq by (by do 5 apply last_char_app).
  done.
Qed.

Ltac not_in_log H :=
  repeat (apply elem_of_cons in H as [H|H]; [discriminate|]);
  by apply elem_of_nil in H.

(** Membership in a file system built by [create], [mkdir] and [unlink]. *)
Ltac in_files :=
  rewrite ?elem_of_difference, ?elem_of_union, ?elem_of_singleton in *;
  intuition congruence.

Section Run.
Context {X A : Type}.
Variable Lasso_fit :
  A → list X → list spec_float → option (list spec_float * spec_float).
Variable pool :
  Fit.pool_starmap (list (list (list spec_float)))
    (nat * list (list spec_float) * list nat).

(** [harmonic_fitting_br(tile_index, pol, config)] on the file system.
    [imgs] are the rasters of [dir_ard] for [pol] by date and [x] their
    design matrix; [pool] is the process pool; [gtiff] tells whether the
    GTiff driver writes the output raster. *)
Definition harmonic_fitting_br (tile_index pol dir_ard dir_coefs : string)
    (imgs : list dataset) (x : list X) (num_pair : nat) (alpha : A)
    (gtiff : bool) : io (list (list (list spec_float))) :=
  ard ← isdir dir_ard;
  (if negb ard then raise else mret tt);;
  coefs ← isdir dir_coefs;
  (if negb coefs then mkdir dir_coefs else mret tt);;
  (* Read meta image, read all images *)
  img_tep ← lift (imgs !! 0%nat);
  values ← lift (mapM Fit.read_img imgs);
  (* Define output *)
  create (tmp_path tile_index);;
  emit FitStarted;;
  lasso_coefs ← lift (Fit.harmonic_fitting_br Lasso_fit pool imgs x num_pair alpha);
  emit FitFinished;;
  (* Write out *)
  (if gtiff then (create (dst_path dir_coefs tile_index pol);;
                  emit (Written (dst_path dir_coefs tile_index pol)))
   else raise);;
  unlink (tmp_path tile_index);;
  mret lasso_coefs.

(** ** Claims on the scratch file *)

(** C7 (amended).  In a run of [harmonic_fitting_br], whatever the pool
    does, the scratch file [tmp_{tile_index}.dat] is created just before the
    parallel fit starts.  When the run returns, the output raster has been
    written, the scratch file has been removed after that, and it does not
    exist any more.  When the fit raises, or the output raster cannot be
    written, the run ends with the scratch file still in place: nothing
    removes it. *)
Theorem scratch_file_lifetime (tile_index pol dir_ard dir_coefs : string)
    (imgs : list dataset) (x : list X) (num_pair : nat) (alpha : A)
    (gtiff : bool) (w w' : world)
    (r : option (list (list (list spec_float)))) :
  harmonic_fitting_br tile_index pol dir_ard dir_coefs imgs x num_pair
    alpha gtiff w = (w', r) →
  ∃ evs, log w' = log w ++ evs ∧
    (FitStarted ∈ evs →
       ∃ l1 l2, evs = l1 ++ Created (tmp_path tile_index) :: FitStarted :: l2) ∧
    (∀ lasso_coefs, r = Some lasso_coefs →
       Fit.harmonic_fitting_br Lasso_fit pool imgs x num_pair alpha = Some lasso_coefs ∧
       (tmp_path tile_index ∉ files w') ∧
       dst_path dir_coefs tile_index pol ∈ files w' ∧
       ∃ l, evs = l ++ [Created (tmp_path tile_index); FitStarted; FitFinished;
                        Created (dst_path dir_coefs tile_index pol);
                        Written (dst_path dir_coefs tile_index pol);
                        Removed (tmp_path tile_index)]) ∧
    (r = None → FitStarted ∈ evs →
       tmp_path tile_index ∈ files w' ∧ (Removed (tmp_path tile_index) ∉ evs) ∧
       (Fit.harmonic_fitting_br Lasso_fit pool imgs x num_pair alpha = None ∨
        gtiff = false)).
Proof.
  pose proof (tmp_path_dst_path dir_coefs tile_index pol) as Hne.
  unfold harmonic_fitting_br, isdir, mkdir, create, unlink, emit, lift, raise.
  unfold mbind, mret, io_bind, io_ret. destruct w as [F L]. simpl.
  case_bool_decide as Hard; simpl;
    [case_bool_decide as Hcoefs; simpl;
     (destruct (imgs !! 0%nat) as [img_tep|]; simpl;
      [destruct (mapM Fit.read_img imgs) as [values|]; simpl;
       [destruct (Fit.harmonic_fitting_br Lasso_fit pool imgs x num_pair alpha)
          as [coefs|] eqn:Hfit; simpl;
        [destruct gtiff; simpl; [case_decide as Htmp; simpl; [|in_files]|]|]|]|])|];
    intros [= <- <-]; simpl; rewrite <- ?app_assoc; simpl;
    (eexists; split; [first [reflexivity | by rewrite app_nil_r]|]);
    (split; [|split]).
  all: try (intros Hin; first
    [ by (exfalso; not_in_log Hin)
    | by (exists []; eexists)
    | by (exists [Created dir_coefs]; eexists) ]).
  all: try (intros lc Hr; first
    [ discriminate
    | injection Hr as <-; split; [done|]; split; [in_files|]; split; [in_files|];
      first [by exists [] | by exists [Created dir_coefs]] ]).
  all: intros Hr Hin; first
    [ discriminate
    | by (exfalso; not_in_log Hin)
    | split; [in_files|]; split; [intros H; not_in_log H|]; auto ].
Qed.

End Run.

(** *** Concrete runs *)

(** A stack whose second raster has one row less than the first. *)
Definition ragged : list dataset :=
  [ GuidedFilter.Dataset 1 2
      [GuidedFilter.Band None [[Float.of_int32 3]; [Float.of_int32 7]]]
      GuidedFilter.default_geotransform "" "ENVI" [];
    GuidedFilter.Dataset 1 1
      [GuidedFilter.Band None [[Float.of_int32 5]]]
      GuidedFilter.default_geotransform "" "ENVI" [] ].

(** A file system with the directory of the tile's rasters only. *)
Definition w0 : world := World {["ard_7"]} [].

Lemma scratch_file_lifetime_witness :
  let run := harmonic_fitting_br Fit.first_fit (Fit.starmap [1; 0]%nat)
               "7" "VV" "ard_7" "coefs" Fit.stack [10; 20]%nat 1 tt true w0 in
  is_Some run.2 ∧ (tmp_path "7" ∉ files run.1) ∧
  dst_path "coefs" "7" "VV" ∈ files run.1.
Proof.
  intros run.
  destruct (scratch_file_lifetime Fit.first_fit (Fit.starmap [1; 0]%nat)
              "7" "VV" "ard_7" "coefs" Fit.stack
              [10; 20]%nat 1 tt true w0 run.1 run.2
              (surjective_pairing run)) as (evs & _ & _ & Hret & _).
  destruct run.2 as [coefs|] eqn:Hr; [|by vm_compute in Hr].
  destruct (Hret coefs eq_refl) as (_ & Htmp & Hdst & _).
  split; [by eexists|]. by split.
Defined.

(** C7, as stated, fails: on the ragged stack the argument list of the
    pool cannot be built, the run raises before the pool is used, and the
    scratch file, created before, is still there. *)
Lemma scratch_file_left_on_failure :
  let run := harmonic_fitting_br Fit.first_fit (Fit.starmap [0; 1]%nat)
               "7" "VV" "ard_7" "coefs" ragged [10; 20]%nat 1 tt true w0 in
  run.2 = None ∧
  log run.1 = [Created "coefs"; Created "tmp_7.dat"; FitStarted] ∧
  tmp_path "7" ∈ files run.1.
Proof.
  split; [by vm_compute|]. split; [by vm_compute|].
  apply (bool_decide_unpack (_ ∈ _)). by vm_compute.
Qed.

(** The same end on the stack of one shape when [_cal_row] cannot be sent
    to the workers. *)
Lemma scratch_file_left_by_local_function :
  let run := harmonic_fitting_br Fit.first_fit Fit.starmap_local
               "7" "VV" "ard_7" "coefs" Fit.stack [10; 20]%nat 1 tt true w0 in
  run.2 = None ∧
  log run.1 = [Created "coefs"; Created "tmp_7.dat"; FitStarted] ∧
  tmp_path "7" ∈ files run.1.
Proof.
  split; [by vm_compute|]. split; [by vm_compute|].
  apply (bool_decide_unpack (_ ∈ _)). by vm_compute.
Qed.

End Scratch.

(** ** The bounded work pool and the batch drivers *)

Module Pool.

(** A unit of work of a batch (one tile) and whether running it succeeds;
    a task that raises or exits has failed. *)
Record task := Task {
  tile : string;
  succeeds : bool
}.

(** Modelled from the spec: the class [FixedThreadPoolExecutor] of
    [fixed_thread_pool_executor.py], which the batch drivers import and
    which is not among the sources.  Following section 4.5: a pool has a
    fixed worker capacity; [submit] enqueues a task and returns whether it
    was accepted, not whether it succeeded; [drain] blocks until all
    submitted tasks have finished and accepts no task meanwhile; after
    [close] a submission is rejected. *)
Record pool := Pool_ {
  capacity : nat;
  queue : list task;
  running : list task;
  finished : list task;
  draining : bool;
  closed : bool
}.

(** Modelled from the spec: the constructor, with the worker capacity. *)
Definition FixedThreadPoolExecutor (size : nat) : pool :=
  Pool_ size [] [] [] false false.

(** Modelled from the spec: [submit] of the missing class; the task is
    enqueued unless the pool is closed or draining. *)
Definition submit (t : task) (p : pool) : pool * bool :=
  if closed p || draining p then (p, false)
  else (Pool_ (capacity p) (queue p ++ [t]) (running p) (finished p)
          (draining p) (closed p), true).

(** Modelled from the spec: [close] of the missing class. *)
Definition close (p : pool) : pool :=
  Pool_ (capacity p) (queue p) (running p) (finished p) (draining p) true.

(** Modelled from the spec: [drain] of the missing class, as a function:
    the state in which it returns, with every task finished.  It blocks
    until the submitted tasks have finished: on a pool without a worker
    and with a task in its queue it does not return ([None]). *)
Definition drain (p : pool) : option pool :=
  if decide (capacity p = 0%nat ∧ queue p ≠ []) then None
  else Some (Pool_ (capacity p) [] [] (finished p ++ running p ++ queue p) false
               (closed p)).

(** Modelled from the spec: what is observed of a pool of the missing
    class, one event at a time: the calls of the client and the moves of
    the workers. *)
Inductive label :=
  | Submitted (t : task) (accepted : bool)
  | Started (t : task)
  | Finished (t : task)
  | DrainCalled
  | DrainReturned
  | Closed.

(** Modelled from the spec: the moves of a pool of the missing class.  A
    worker starts the task at the head of the queue while fewer than
    [capacity] tasks are running; [drain] returns once nothing is queued or
    running. *)
Inductive step : pool → label → pool → Prop :=
  | step_submit t p :
      step p (Submitted t (submit t p).2) (submit t p).1
  | step_start t q p :
      queue p = t :: q → (length (running p) < capacity p)%nat →
      step p (Started t)
        (Pool_ (capacity p) q (running p ++ [t]) (finished p) (draining p) (closed p))
  | step_finish t l1 l2 p :
      running p = l1 ++ t :: l2 →
      step p (Finished t)
        (Pool_ (capacity p) (queue p) (l1 ++ l2) (finished p ++ [t])
           (draining p) (closed p))
  | step_drain_call p :
      step p DrainCalled
        (Pool_ (capacity p) (queue p) (running p) (finished p) true (closed p))
  | step_drain_return p :
      draining p = true → queue p = [] → running p = [] →
      step p DrainReturned
        (Pool_ (capacity p) [] [] (finished p) false (closed p))
  | step_close p :
      step p Closed (close p).

(** The runs of a pool from a state, with the labels in order. *)
Inductive exec (p : pool) : list label → pool → Prop :=
  | exec_nil : exec p [] p
  | exec_snoc tr l p' p'' : exec p tr p' → step p' l p'' → exec p (tr ++ [l]) p''.

(** The tasks a run has accepted. *)
Definition accepted (tr : list label) : list task :=
  omap (λ l, match l with Submitted t true => Some t | _ => None end) tr.

(** The batch drivers of [preprocess_level3.py]. *)
Record summary := Summary {
  total : nat;
  success_count : nat;
  failure_count : nat
}.

(** The parallel branch of [s1_harmonic_batch]: one task
    [s1_harmonic_each] per tile of the footprint; [None] when the call
    does not return. *)
Definition s1_harmonic_batch (threads_number : nat) (features : list task)
  : option (pool * summary) :=
  let harmonic_executor := FixedThreadPoolExecutor threads_number in
  (* Batch process *)
  let success_count := 0%nat in
  let failure_count := 0%nat in
  let '(harmonic_executor, success_count, failure_count) :=
    foldl (λ '(executor, success_count, failure_count) t,
             let '(executor, accepted) := submit t executor in
             if accepted then (executor, S success_count, failure_count)
             else (executor, success_count, S failure_count))
          (harmonic_executor, success_count, failure_count) features in
  (* await all tile finished *)
  harmonic_executor ← drain harmonic_executor;
  (* await thread pool to stop *)
  let harmonic_executor := close harmonic_executor in
  Some (harmonic_executor, Summary (length features) success_count failure_count).

(** [s2_wasp_batch]: one task [s2_wasp] per tile id. *)
Definition s2_wasp_batch (threads_number : nat) (tile_ids : list task)
  : option (pool * summary) :=
  let wasp_executor := FixedThreadPoolExecutor threads_number in
  (* Batch process *)
  let success_count := 0%nat in
  let failure_count := 0%nat in
  let '(wasp_executor, success_count, failure_count) :=
    foldl (λ '(executor, success_count, failure_count) t,
             let '(executor, accepted) := submit t executor in
             if accepted then (executor, S success_count, failure_count)
             else (executor, success_count, S failure_count))
          (wasp_executor, success_count, failure_count) tile_ids in
  (* await all tile finished *)
  wasp_executor ← drain wasp_executor;
  (* await thread pool to stop *)
  let wasp_executor := close wasp_executor in
  Some (wasp_executor, Summary (length tile_ids) success_count failure_count).

Lemma submit_frame (t : task) (p : pool) :
  capacity (submit t p).1 = capacity p ∧ running (submit t p).1 = running p ∧
  finished (submit t p).1 = finished p ∧ draining (submit t p).1 = draining p ∧
  closed (submit t p).1 = closed p ∧
  queue (submit t p).1 = (if (submit t p).2 then queue p ++ [t] else queue p) ∧
  (submit t p).2 = negb (closed p || draining p).
Proof. unfold submit. by destruct (closed p || draining p). Qed.

Lemma accepted_snoc (tr : list label) (l : label) :
  accepted (tr ++ [l])
  = accepted tr ++ match l with Submitted t true => [t] | _ => [] end.
Proof.
  unfold accepted. rewrite omap_app. f_equal. by destruct l as [t []| | | | |].
Qed.

(** The invariant of the runs of a new pool. *)
Lemma exec_invariant (N : nat) (tr : list label) (p : pool) :
  exec (FixedThreadPoolExecutor N) tr p →
  capacity p = N ∧ (length (running p) ≤ N)%nat ∧
  accepted tr ≡ₚ finished p ++ running p ++ queue p ∧
  (Closed ∈ tr → closed p = true).
Proof.
  induction 1 as [|tr l p p' Hex IH Hstep].
  - repeat split; try done. simpl. lia. by intros ?%elem_of_nil.
  - destruct IH as (Hcap & Hrun & Hacc & Hcl).
    rewrite accepted_snoc.
    inversion Hstep as [t p0|t q p0 Hq Hlt|t l1 l2 p0 Hr|p0|p0 Hd Hq Hr|p0]; subst;
      simpl in *.
    + destruct (submit_frame t p) as (-> & -> & -> & _ & Hc & Hqu & Hacc').
      rewrite Hqu. repeat split; try done.
      * destruct (submit t p).2; [|by rewrite app_nil_r].
        rewrite Hacc. by rewrite !app_assoc.
      * rewrite Hc. by intros [Hin|Hin%list_elem_of_singleton]%elem_of_app; auto.
    + repeat split; try done.
      * rewrite length_app. simpl. lia.
      * rewrite app_nil_r, Hacc, Hq. by rewrite <- !app_assoc.
      * by intros [Hin|Hin%list_elem_of_singleton]%elem_of_app; auto.
    + rewrite Hr in Hrun, Hacc. rewrite length_app in *. simpl in *.
      repeat split; try done.
      * lia.
      * rewrite app_nil_r, Hacc, <- !app_assoc. simpl.
        apply Permutation_app_head. by rewrite <- Permutation_middle.
      * by intros [Hin|Hin%list_elem_of_singleton]%elem_of_app; auto.
    + repeat split; try done; [by rewrite app_nil_r|].
      by intros [Hin|Hin%list_elem_of_singleton]%elem_of_app; auto.
    + rewrite Hq, Hr in Hacc. repeat split; try done; try lia.
      * by rewrite app_nil_r.
      * by intros [Hin|Hin%list_elem_of_singleton]%elem_of_app; auto.
    + repeat split; try done. by rewrite app_nil_r.
Qed.

Lemma exec_app (p p1 p2 : pool) (tr1 tr2 : list label) :
  exec p tr1 p1 → exec p1 tr2 p2 → exec p (tr1 ++ tr2) p2.
Proof.
  intros H1 H2. induction H2 as [|tr l p' p'' H2 IH Hstep].
  - by rewrite app_nil_r.
  - rewrite app_assoc. by eapply exec_snoc.
Qed.

Lemma exec_one (p p' : pool) (l : label) : step p l p' → exec p [l] p'.
Proof. intros Hs. apply (exec_snoc p [] l p p'); [constructor|done]. Qed.

Lemma exec_cons (p p1 p2 : pool) (l : label) (tr : list label) :
  step p l p1 → exec p1 tr p2 → exec p (l :: tr) p2.
Proof. intros Hs He. apply (exec_app p p1 p2 [l] tr); [by apply exec_one|done]. Qed.

(** The moves of the workers. *)
Definition is_work (l : label) : Prop :=
  match l with Started _ | Finished _ => True | _ => False end.

(** The workers can finish what is running ... *)
Lemma finish_running (c : nat) (q r f : list task) (d cl : bool) :
  ∃ work, Forall is_work work ∧
    exec (Pool_ c q r f d cl) work (Pool_ c q [] (f ++ r) d cl).
Proof.
  revert f. induction r as [|t r IH]; intros f.
  - exists []. split; [done|]. rewrite app_nil_r. constructor.
  - destruct (IH (f ++ [t])) as (work & Hw & Hex).
    exists (Finished t :: work). split; [by constructor|].
    eapply exec_cons; [apply (step_finish t [] r); reflexivity|].
    simpl. by rewrite <- app_assoc in Hex.
Qed.

(** ... and then all that is queued, one task at a time. *)
Lemma finish_queue (c : nat) (q f : list task) (d cl : bool) :
  (0 < c)%nat ∨ q = [] →
  ∃ work, Forall is_work work ∧
    exec (Pool_ c q [] f d cl) work (Pool_ c [] [] (f ++ q) d cl).
Proof.
  intros Hc. revert f. induction q as [|t q IH]; intros f.
  - exists []. split; [done|]. rewrite app_nil_r. constructor.
  - destruct Hc as [Hc|Hc]; [|done].
    destruct (IH (or_introl Hc) (f ++ [t])) as (work & Hw & Hex).
    exists (Started t :: Finished t :: work). split; [by repeat constructor|].
    eapply exec_cons; [apply (step_start t q); [reflexivity|simpl; lia]|].
    eapply exec_cons; [apply (step_finish t [] []); reflexivity|].
    simpl. by rewrite <- app_assoc in Hex.
Qed.

(** Where [drain] returns, the workers can bring the call to its return in
    that state. *)
Lemma drain_reachable (p p' : pool) :
  drain p = Some p' →
  ∃ work, Forall is_work work ∧
    exec p (DrainCalled :: work ++ [DrainReturned]) p'.
Proof.
  unfold drain. case_decide as Hc; [done|]. intros [= <-].
  destruct p as [c q r f d cl]. simpl in Hc |- *.
  assert (Hq : (0 < c)%nat ∨ q = []).
  { destruct c; [|left; lia]. right. destruct q; [done|]. by destruct Hc. }
  destruct (finish_running c q r f true cl) as (w1 & Hw1 & He1).
  destruct (finish_queue c q (f ++ r) true cl Hq) as (w2 & Hw2 & He2).
  exists (w1 ++ w2). split; [by apply Forall_app|].
  eapply exec_cons; [apply step_drain_call|]. simpl.
  eapply exec_snoc; [eapply exec_app; [exact He1|exact He2]|].
  rewrite <- app_assoc.
  by apply (step_drain_return (Pool_ c [] [] (f ++ r ++ q) true cl)).
Qed.

Lemma drain_returns (p : pool) : (0 < capacity p)%nat → is_Some (drain p).
Proof. intros Hc. unfold drain. rewrite decide_False by lia. by eexists. Qed.

(** Without a worker the queue stays as it is under the moves of the
    workers, so a call of [drain] with a task queued never returns. *)
Lemma exec_no_worker (p p' : pool) (tr : list label) :
  capacity p = 0%nat → Forall (λ l, l = DrainCalled ∨ is_work l) tr →
  exec p tr p' → capacity p' = 0%nat ∧ queue p' = queue p.
Proof.
  intros Hc Htr Hex. induction Hex as [|tr l p1 p2 Hex IH Hstep]; [done|].
  apply Forall_app in Htr as [Htr Hl]. destruct (IH Htr) as [Hc1 Hq1].
  inversion Hl as [|? ? Hlab _]; subst.
  inversion Hstep as [t p0|t q p0 Hq Hlt|t l1 l2 p0 Hr|p0|p0 Hd Hq Hr|p0]; subst;
    simpl in *; try done; try lia.
  all: by destruct Hlab.
Qed.

Lemma drain_blocks (p : pool) :
  drain p = None →
  ¬ ∃ work p', Forall is_work work ∧
      exec p (DrainCalled :: work ++ [DrainReturned]) p'.
Proof.
  unfold drain. case_decide as Hc; [|done]. destruct Hc as [Hc Hq].
  intros _ (work & p' & Hw & Hex).
  change (DrainCalled :: work ++ [DrainReturned])
    with ((DrainCalled :: work) ++ [DrainReturned]) in Hex.
  remember ((DrainCalled :: work) ++ [DrainReturned]) as tr0 eqn:Htr.
  destruct Hex as [|tr l p1 p2 Hex1 Hstep]; [done|].
  apply app_inj_tail in Htr as [-> ->].
  destruct (exec_no_worker p p1 (DrainCalled :: work) Hc) as [_ Hq1]; [|done|].
  { constructor; [by left|]. eapply Forall_impl; [exact Hw|]. by right. }
  inversion Hstep as [| | | |p0 Hd Hq0 Hr|]; subst. congruence.
Qed.

(** ** Claims on the pool and the batches *)

(** C9.  In every run of a pool made with capacity [N]: at most [N] tasks
    are running; a submission starts no worker, and an accepted task joins
    the queue; [drain] returns only when the queue and the workers are
    empty, and then every task accepted so far has finished; while it
    waits, and after [close], a submission is rejected and leaves the pool
    as it is.  With [N > 0] the workers can always bring a call of [drain]
    to its return. *)
Theorem pool_bounded (N : nat) (tr : list label) (p : pool) :
  exec (FixedThreadPoolExecutor N) tr p →
  (length (running p) ≤ N)%nat ∧
  (∀ t, running (submit t p).1 = running p ∧
        ((submit t p).2 = true → queue (submit t p).1 = queue p ++ [t])) ∧
  (∀ p', step p DrainReturned p' →
         accepted tr ≡ₚ finished p' ∧ queue p' = [] ∧ running p' = []) ∧
  (draining p = true → ∀ t, submit t p = (p, false)) ∧
  (Closed ∈ tr → ∀ t, submit t p = (p, false)) ∧
  ((0 < N)%nat →
   ∃ work p', drain p = Some p' ∧ Forall is_work work ∧
     exec p (DrainCalled :: work ++ [DrainReturned]) p').
Proof.
  intros Hex. destruct (exec_invariant N tr p Hex) as (Hcap & Hrun & Hacc & Hcl).
  split; [done|]. split.
  { intros t. destruct (submit_frame t p) as (_ & Hr & _ & _ & _ & Hq & _).
    split; [done|]. intros Ht. by rewrite Hq, Ht. }
  split.
  { intros p' Hstep. inversion Hstep as [| | | |p0 Hd Hq Hr|]; subst. simpl.
    split; [|done]. by rewrite Hacc, Hq, Hr, !app_nil_r. }
  split.
  { intros Hd t. unfold submit. by rewrite Hd, orb_true_r. }
  split.
  { intros Hin t. unfold submit. by rewrite (Hcl Hin). }
  intros HN. destruct (drain_returns p ltac:(by rewrite Hcap)) as [p' Hp'].
  destruct (drain_reachable p p' Hp') as (work & Hw & Hex').
  by exists work, p'.
Qed.

(** The loop of the batch drivers over an open pool: every task is
    accepted and counted as a success. *)
Lemma submit_loop (tasks : list task) (p : pool) (s f : nat) :
  closed p = false → draining p = false →
  foldl (λ '(executor, success_count, failure_count) t,
           let '(executor, accepted) := submit t executor in
           if accepted then (executor, S success_count, failure_count)
           else (executor, success_count, S failure_count))
        (p, s, f) tasks
  = (Pool_ (capacity p) (queue p ++ tasks) (running p) (finished p) false false,
     (s + length tasks)%nat, f).
Proof.
  revert p s. induction tasks as [|t tasks IH]; intros [c q r fi d cl] s; simpl;
    intros -> ->.
  - by rewrite app_nil_r, Nat.add_0_r.
  - unfold submit at 1. simpl. rewrite IH by done. simpl.
    rewrite <- app_assoc. simpl. repeat f_equal. lia.
Qed.

Lemma submit_loop_exec (tasks : list task) (p : pool) :
  closed p = false → draining p = false →
  exec p ((λ t, Submitted t true) <$> tasks)
    (Pool_ (capacity p) (queue p ++ tasks) (running p) (finished p) false false).
Proof.
  revert p. induction tasks as [|t tasks IH]; intros [c q r fi d cl]; simpl;
    intros -> ->.
  - rewrite app_nil_r. constructor.
  - eapply exec_cons.
    + apply (step_submit t (Pool_ c q r fi false false)).
    + simpl. specialize (IH (Pool_ c (q ++ [t]) r fi false false) eq_refl eq_refl).
      simpl in IH. by rewrite <- app_assoc in IH.
Qed.

Lemma accepted_submitted (tasks : list task) :
  accepted ((λ t, Submitted t true) <$> tasks) = tasks.
Proof. induction tasks as [|t tasks IH]; simpl; [done|]. by f_equal. Qed.

(** The labels of the submissions that were rejected. *)
Definition rejected (tr : list label) : list task :=
  omap (λ l, match l with Submitted t false => Some t | _ => None end) tr.

(** The units of a batch that failed, and those that succeeded. *)
Definition failed (tasks : list task) : list task :=
  filter (λ t, succeeds t = false) tasks.
Definition succeeded (tasks : list task) : list task :=
  filter (λ t, succeeds t = true) tasks.

(** C8.  The summary of a batch does not tell the outcomes.  The drivers
    count the submissions the pool accepted as successes and those it
    rejected as failures: a batch of [n] tasks on its new pool returns,
    with every task run, and reports [n] successes and no failure,
    whether the tasks succeed or fail; when a task fails the failure count
    is below the number of failed units and the success count above the
    number of succeeded ones. *)
Theorem batch_counts (threads_number : nat) (tasks : list task) :
  (0 < threads_number)%nat →
  ∃ p1 p2,
    s1_harmonic_batch threads_number tasks
    = Some (p1, Summary (length tasks) (length tasks) 0) ∧
    s2_wasp_batch threads_number tasks
    = Some (p2, Summary (length tasks) (length tasks) 0) ∧
    finished p1 = tasks ∧ finished p2 = tasks ∧
    (∃ tr, exec (FixedThreadPoolExecutor threads_number) tr p1 ∧
       accepted tr = tasks ∧ rejected tr = []) ∧
    (Exists (λ t, succeeds t = false) tasks →
     (0 < length (failed (finished p1)))%nat ∧
     (length (succeeded (finished p1)) < length tasks)%nat).
Proof.
  intros Hn. unfold s1_harmonic_batch, s2_wasp_batch.
  rewrite (submit_loop tasks (FixedThreadPoolExecutor threads_number) 0 0) by done.
  cbn [FixedThreadPoolExecutor capacity queue running finished app].
  set (p0 := Pool_ threads_number tasks [] [] false false).
  destruct (drain_returns p0 Hn) as [pd Hpd]. rewrite Hpd.
  cbn [mbind option_bind].
  assert (Hfin : finished pd = tasks).
  { revert Hpd. unfold drain, p0. case_decide; [done|]. by intros [= <-]. }
  exists (close pd), (close pd). split; [done|]. split; [done|].
  split; [done|]. split; [done|]. split.
  - pose proof (submit_loop_exec tasks (FixedThreadPoolExecutor threads_number)
                  eq_refl eq_refl) as Hsub. simpl in Hsub. fold p0 in Hsub.
    destruct (drain_reachable p0 pd Hpd) as (work & Hwork & Hdrain).
    exists (((λ t, Submitted t true) <$> tasks)
            ++ (DrainCalled :: work ++ [DrainReturned]) ++ [Closed]).
    assert (Hacc : ∀ w, Forall is_work w → accepted w = [] ∧ rejected w = []).
    { induction 1 as [|l w Hl Hw [IH1 IH2]]; [done|]. by destruct l. }
    destruct (Hacc work Hwork) as [Ha Hr].
    split; [|split].
    + eapply exec_app; [exact Hsub|]. eapply exec_snoc; [exact Hdrain|].
      apply (step_close pd).
    + unfold accepted. rewrite !omap_app.
      fold (accepted ((λ t, Submitted t true) <$> tasks)).
      rewrite accepted_submitted. simpl. rewrite omap_app. fold (accepted work).
      rewrite Ha. simpl. by rewrite app_nil_r.
    + unfold rejected. rewrite !omap_app. simpl. rewrite omap_app.
      fold (rejected work). rewrite Hr. simpl. rewrite app_nil_r.
      clear. induction tasks; [done|]. simpl. done.
  - intros Hex. cbn [close finished]. rewrite Hfin. clear -Hex.
    unfold failed, succeeded.
    induction Hex as [t l Ht|t l Hex IH]; rewrite !filter_cons.
    + pose proof (length_filter (λ t, succeeds t = true) l) as Hl.
      repeat case_decide; simpl; try congruence; lia.
    + destruct IH as [IH1 IH2]. repeat case_decide; simpl; lia.
Qed.

(** *** Concrete runs *)

Definition five : list task :=
  [Task "1" true; Task "2" true; Task "3" false; Task "4" true; Task "5" true].

(** Five submissions to a pool of capacity 2, and two tasks started. *)
Lemma five_exec :
  exec (FixedThreadPoolExecutor 2)
    (((λ t, Submitted t true) <$> five) ++ [Started (Task "1" true)]
       ++ [Started (Task "2" true)])
    (Pool_ 2 [Task "3" false; Task "4" true; Task "5" true]
       [Task "1" true; Task "2" true] [] false false).
Proof.
  rewrite app_assoc.
  eapply exec_snoc; [eapply exec_snoc|].
  - apply (submit_loop_exec five (FixedThreadPoolExecutor 2)); reflexivity.
  - apply (step_start (Task "1" true) (tail five) (Pool_ 2 five [] [] false false));
      [reflexivity|simpl; lia].
  - apply (step_start (Task "2" true) [Task "3" false; Task "4" true; Task "5" true]
             (Pool_ 2 (tail five) [Task "1" true] [] false false));
      [reflexivity|simpl; lia].
Defined.

Lemma pool_bounded_witness :
  (length (running (Pool_ 2 [Task "3" false; Task "4" true; Task "5" true]
                      [Task "1" true; Task "2" true] [] false false)) ≤ 2)%nat.
Proof. exact (proj1 (pool_bounded 2 _ _ five_exec)). Defined.

(** Of two tasks one fails, and the summary counts two successes and no
    failure. *)
Lemma batch_counts_witness :
  (0 < 2)%nat ∧
  ∃ p, s1_harmonic_batch 2 [Task "1" true; Task "2" false] = Some (p, Summary 2 2 0) ∧
    failed (finished p) = [Task "2" false] ∧
    succeeded (finished p) = [Task "1" true].
Proof.
  split; [lia|].
  destruct (batch_counts 2 [Task "1" true; Task "2" false] ltac:(lia))
    as (p1 & _ & H1 & _ & Hf & _).
  exists p1. split; [exact H1|]. by rewrite Hf.
Defined.

(** A batch on a pool without a worker does not return. *)
Example batch_without_worker :
  s1_harmonic_batch 0 [Task "1" true] = None.
Proof. reflexivity. Qed.

End Pool.

(** ** The names of a tile: selection, order and the inputs of the fit

    [os.listdir] is the list of names it returns; [np.argsort], [np.cos]
    and [gdal.Open] are section variables. *)

Module Stack.
Import TimeSeries.

(** [sub in s] for strings. *)
Fixpoint contains (sub s : string) : bool :=
  String.prefix sub s ||
  match s with
  | EmptyString => false
  | String _ s' => contains sub s'
  end.

#[global] Instance date_le_trans : Transitive date_le.
Proof. intros [y1 m1 d1] [y2 m2 d2] [y3 m3 d3]. unfold date_le. simpl. lia. Qed.

#[global] Instance date_le_total : Total date_le.
Proof. intros [y1 m1 d1] [y2 m2 d2]. unfold date_le. simpl. lia. Qed.

#[global] Instance date_le_antisymm : AntiSymm (=) date_le.
Proof.
  intros [y1 m1 d1] [y2 m2 d2]. unfold date_le. simpl. intros H1 H2.
  f_equal; lia.
Qed.

Lemma merge_sort_sorted (l : list date) : Sorted date_le l → merge_sort date_le l = l.
Proof.
  intros Hl. apply (Sorted_unique date_le); [apply Sorted_merge_sort, _|done|].
  apply merge_sort_Permutation.
Qed.

Lemma merge_sort_perm (l1 l2 : list date) :
  l1 ≡ₚ l2 → merge_sort date_le l1 = merge_sort date_le l2.
Proof.
  intros Hp. apply (Sorted_unique date_le); try (apply Sorted_merge_sort, _).
  by rewrite !merge_sort_Permutation.
Qed.

Lemma mapM_perm {A B} (f : A → option B) (l1 l2 : list A) :
  l1 ≡ₚ l2 →
  match mapM f l1, mapM f l2 with
  | Some k1, Some k2 => k1 ≡ₚ k2
  | None, None => True
  | _, _ => False
  end.
Proof.
  induction 1 as [|a l1 l2 Hp IH|a b l|l1 l2 l3 Hp1 IH1 Hp2 IH2]; simpl.
  - done.
  - destruct (f a); simpl; [|done].
    destruct (mapM f l1), (mapM f l2); simpl; try done. by constructor.
  - destruct (f a), (f b); simpl; try done;
      destruct (mapM f l); simpl; try done. apply perm_swap.
  - destruct (mapM f l1), (mapM f l2), (mapM f l3); try done. by etrans.
Qed.

Lemma mapM_lookup_seq {A} (l : list A) :
  mapM (λ i, l !! i) (seq 0 (length l)) = Some l.
Proof.
  apply mapM_Some, Forall2_same_length_lookup. split; [by rewrite length_seq|].
  intros i j y Hj Hy. apply lookup_seq in Hj as [-> _]. done.
Qed.

(** ** [_get_doy] and the order of the names *)

Lemma _get_doy_perm (fnames fnames' : list string) (freq : Z) :
  fnames ≡ₚ fnames' → _get_doy fnames freq = _get_doy fnames' freq.
Proof.
  intros Hp. unfold _get_doy. pose proof (mapM_perm _get_date _ _ Hp) as Hd.
  destruct (mapM _get_date fnames) as [d1|], (mapM _get_date fnames') as [d2|];
    try done.
  simpl. by rewrite (merge_sort_perm d1 d2).
Qed.

Section Sort.

(** [np.argsort] on a list of [datetime] is numpy's: for equal dates the
    order of the positions is its choice. *)
Variable argsort : list date → list nat.

(** What [argsort] returns for [keys]: every position of [keys] once, in an
    order in which the keys do not decrease. *)
Definition sorts (keys : list date) (idx : list nat) : Prop :=
  idx ≡ₚ seq 0 (length keys) ∧
  ∃ sorted, mapM (λ i, keys !! i) idx = Some sorted ∧ Sorted date_le sorted.

(** [_sort_fnames(fnames)] *)
Definition _sort_fnames (fnames : list string) : option (list string) :=
  dates ← mapM _get_date fnames;
  let fnames := mapM (λ i, fnames !! i) (argsort dates) in
  fnames.

Lemma _sort_fnames_dates (fnames : list string) (dates : list date) :
  mapM _get_date fnames = Some dates → sorts dates (argsort dates) →
  ∃ sorted, _sort_fnames fnames = Some sorted ∧ sorted ≡ₚ fnames ∧
    mapM _get_date sorted = Some (merge_sort date_le dates) ∧
    Sorted date_le (merge_sort date_le dates).
Proof.
  intros Hd (Hperm & sdates & Hsd & Hsorted).
  unfold _sort_fnames. rewrite Hd. simpl.
  pose proof (length_mapM _ _ _ Hd) as Hlen.
  pose proof (mapM_perm (λ i, fnames !! i) _ _ Hperm) as Hnames.
  rewrite <- Hlen, mapM_lookup_seq in Hnames.
  destruct (mapM (λ i, fnames !! i) (argsort dates)) as [sorted|] eqn:Hsrt; [|done]. simpl.
  exists sorted. split; [done|]. split; [done|].
  assert (Hsdates : sdates ≡ₚ dates).
  { pose proof (mapM_perm (λ i, dates !! i) _ _ Hperm) as Hk.
    by rewrite Hsd, mapM_lookup_seq in Hk. }
  rewrite (merge_sort_perm dates sdates) by done.
  rewrite (merge_sort_sorted sdates Hsorted). split; [|done].
  apply mapM_Some. apply mapM_Some in Hsd, Hd.
  assert (Hs : Forall2 (λ i y, fnames !! i = Some y) (argsort dates) sorted).
  { by apply mapM_Some. }
  apply Forall2_same_length_lookup. split.
  - rewrite <- (Forall2_length _ _ _ Hs). by apply Forall2_length in Hsd.
  - intros j y d Hy Hdj.
    destruct (Forall2_lookup_r _ _ _ _ _ Hs Hy) as (i & Hi & Hfi).
    destruct (Forall2_lookup_l _ _ _ _ _ Hsd Hi) as (d' & Hd' & Hdi).
    assert (d' = d) as -> by congruence.
    destruct (Forall2_lookup_l _ _ _ _ _ Hd Hfi) as (d'' & Hd'' & Hget).
    congruence.
Qed.

(** The names of [dir_ard] that [harmonic_fitting] and
    [harmonic_fitting_br] take for [pol], and the names of [dir_clip] that
    [guided_filter_batch] takes. *)
Definition select (pol : string) (fnames : list string) : list string :=
  filter (λ fname,
            (contains ".img" fname && contains pol fname
               && negb (contains ".aux.xml" fname))
            || (contains ".tif" fname && contains pol fname) = true) fnames.

Definition select_br (pol : string) (fnames : list string) : list string :=
  filter (λ fname,
            contains ".img" fname && contains pol fname
              && negb (contains ".aux.xml" fname) = true) fnames.

Definition select_clip (fnames : list string) : list string :=
  filter (λ fname,
            contains ".img" fname && negb (contains ".aux.xml" fname) = true) fnames.

(** [os.path.join(a, b)] *)
Definition join (a b : string) : string :=
  if String.prefix "/" b then b
  else if bool_decide (a = "") || bool_decide (Scratch.last_char a = Some "/"%char)
       then a +:+ b
       else a +:+ "/" +:+ b.

Section Tile.
Context {A : Type}.
Variable Lasso_fit :
  A → list (list spec_float) → list spec_float
  → option (list spec_float * spec_float).

(** [np.cos] on a float64. *)
Variable np_cos : spec_float → spec_float.

(** [gdal.Open(path)]: the raster at [path], [None] when there is none that
    GDAL can read. *)
Variable gdal_Open : string → option GuidedFilter.dataset.

(** [harmonic_fitting(tile_index, pol, config)] from the listing of
    [dir_ard] to [lasso_coefs]: the names are selected and put in the order
    of their dates, the day coordinates and the design matrix are made from
    them, and the rasters are opened and fitted. *)
Definition harmonic_fitting (dir_ard : string) (listing : list string)
    (pol : string) (freq : Z) (num_pair : nat) (alpha : A)
  : option (list Np.ndarray) :=
  let fnames := listing in
  let fnames := select pol fnames in
  fnames ← _sort_fnames fnames;
  days ← _get_doy fnames freq;
  x ← Design._getVariable np_cos freq days (1 + num_pair * 2);
  (* Harmonic regression fitting *)
  let fnames := join dir_ard <$> fnames in
  imgs ← mapM gdal_Open fnames;
  Fit.harmonic_fitting Lasso_fit imgs x num_pair alpha.

End Tile.

Lemma _get_doy_sorted_dates (fnames : list string) (dates : list date) (freq : Z) :
  mapM _get_date fnames = Some dates → Sorted date_le dates →
  ∃ days, _get_doy fnames freq = Some days ∧
    (days = _get_date_doy <$> dates ∨
     ∃ d0, dates !! 0%nat = Some d0 ∧
       days = wrap (_get_date_doy d0) freq <$> (_get_date_doy <$> dates)).
Proof.
  intros Hd Hs. unfold _get_doy. rewrite Hd. simpl.
  rewrite (merge_sort_sorted dates Hs).
  case_decide as Hdoys.
  - eexists. split; [done|]. by left.
  - destruct dates as [|d0 dates].
    + exfalso. by apply Hdoys.
    + simpl. eexists. split; [done|]. right. exists d0. split; [done|].
      by rewrite _adjust_doy_wrap.
Qed.

(** X3.  When [np.argsort] orders the dates of the names, [_sort_fnames]
    returns the same names, each as often as before, in an order in which
    their dates do not decrease, and [_get_doy] gives for them what it
    gives for the names as they were.  A name without a date makes it
    raise. *)
Theorem _sort_fnames_by_date (fnames : list string) :
  (∀ dates, mapM _get_date fnames = Some dates → sorts dates (argsort dates)) →
  match mapM _get_date fnames with
  | None => _sort_fnames fnames = None
  | Some dates =>
      ∃ sorted sdates, _sort_fnames fnames = Some sorted ∧ sorted ≡ₚ fnames ∧
        mapM _get_date sorted = Some sdates ∧ Sorted date_le sdates ∧
        sdates ≡ₚ dates ∧
        ∀ freq, _get_doy sorted freq = _get_doy fnames freq
  end.
Proof.
  intros Hsort. destruct (mapM _get_date fnames) as [dates|] eqn:Hd.
  - destruct (_sort_fnames_dates fnames dates Hd (Hsort dates eq_refl))
      as (sorted & Hs & Hp & Hsd & Hsorted).
    exists sorted, (merge_sort date_le dates). repeat split; try done.
    + apply merge_sort_Permutation.
    + intros freq. by apply _get_doy_perm.
  - unfold _sort_fnames. by rewrite Hd.
Qed.

(** X5.  The head of [harmonic_fitting] on the names it selects, when they
    all have a date: there is one day coordinate and one row of the design
    matrix per raster, in the order of the rasters; the coordinate of a
    raster is the day of year of its date, or that day shifted by the day
    of year of the first raster and wrapped; so the design matrix has as
    many rows as rasters are opened, and the regression runs on them.
    Without a selected name the call raises. *)
Theorem harmonic_fitting_inputs {A : Type}
    (Lasso_fit : A → list (list spec_float) → list spec_float
                 → option (list spec_float * spec_float))
    (np_cos : spec_float → spec_float)
    (gdal_Open : string → option GuidedFilter.dataset)
    (dir_ard : string) (listing : list string) (pol : string) (freq : Z)
    (num_pair : nat) (alpha : A) (dates : list date) :
  mapM _get_date (select pol listing) = Some dates →
  sorts dates (argsort dates) →
  ∃ fnames days x,
    _sort_fnames (select pol listing) = Some fnames ∧
    _get_doy fnames freq = Some days ∧
    Design._getVariable np_cos freq days (1 + num_pair * 2) = Some x ∧
    length days = length fnames ∧ length x = length fnames ∧
    (∀ i name, fnames !! i = Some name →
       ∃ d t, _get_date name = Some d ∧ days !! i = Some t ∧
         Np.px x i 0 = Some (Float.of_int64 t) ∧
         (t = _get_date_doy d ∨
          ∃ name0 d0, fnames !! 0%nat = Some name0 ∧ _get_date name0 = Some d0 ∧
            t = wrap (_get_date_doy d0) freq (_get_date_doy d))) ∧
    (∀ imgs, mapM gdal_Open (join dir_ard <$> fnames) = Some imgs →
       length x = length imgs ∧
       harmonic_fitting Lasso_fit np_cos gdal_Open dir_ard listing pol freq num_pair alpha
       = Fit.harmonic_fitting Lasso_fit imgs x num_pair alpha) ∧
    (select pol listing = [] →
     harmonic_fitting Lasso_fit np_cos gdal_Open dir_ard listing pol freq num_pair alpha
     = None).
Proof.
  intros Hd Hsort.
  destruct (_sort_fnames_dates _ dates Hd Hsort) as (fnames & Hs & Hp & Hsd & Hsorted).
  destruct (_get_doy_sorted_dates fnames _ freq Hsd Hsorted) as (days & Hdays & Hcase).
  set (sdates := merge_sort date_le dates) in *.
  assert (Hx : Design._getVariable np_cos freq days (1 + num_pair * 2)
               = Some (Design.design_row np_cos freq (1 + num_pair * 2) <$> days)).
  { by apply Design._getVariable_rows. }
  assert (Hlen : length days = length fnames).
  { rewrite (length_mapM _ _ _ Hsd).
    destruct Hcase as [->|(d0 & _ & ->)]; by rewrite ?length_fmap. }
  exists fnames, days, (Design.design_row np_cos freq (1 + num_pair * 2) <$> days).
  split; [done|]. split; [done|]. split; [done|]. split; [done|].
  split; [by rewrite length_fmap|].
  assert (Hrun : ∀ imgs, mapM gdal_Open (join dir_ard <$> fnames) = Some imgs →
    harmonic_fitting Lasso_fit np_cos gdal_Open dir_ard listing pol freq num_pair alpha
    = Fit.harmonic_fitting Lasso_fit imgs
        (Design.design_row np_cos freq (1 + num_pair * 2) <$> days) num_pair alpha).
  { intros imgs Himgs. unfold harmonic_fitting.
    rewrite Hs. cbn [mbind option_bind]. rewrite Hdays. cbn [mbind option_bind].
    rewrite Hx. cbn [mbind option_bind]. by rewrite Himgs. }
  split; [|split].
  - intros i name Hname.
    apply mapM_Some in Hsd.
    destruct (Forall2_lookup_l _ _ _ _ _ Hsd Hname) as (d & Hdi & Hget).
    assert (Hcol : ∀ t, days !! i = Some t →
      Np.px (Design.design_row np_cos freq (1 + num_pair * 2) <$> days) i 0 = Some (Float.of_int64 t)).
    { intros t Ht. unfold Np.px. by rewrite list_lookup_fmap, Ht. }
    destruct Hcase as [->|(d0 & Hd0 & ->)].
    + exists d, (_get_date_doy d). split; [done|].
      assert (Ht : (_get_date_doy <$> sdates) !! i = Some (_get_date_doy d)).
      { by rewrite list_lookup_fmap, Hdi. }
      split; [done|]. split; [by apply Hcol|]. by left.
    + exists d, (wrap (_get_date_doy d0) freq (_get_date_doy d)). split; [done|].
      assert (Ht : (wrap (_get_date_doy d0) freq <$> (_get_date_doy <$> sdates)) !! i
                   = Some (wrap (_get_date_doy d0) freq (_get_date_doy d))).
      { by rewrite !list_lookup_fmap, Hdi. }
      split; [done|]. split; [by apply Hcol|]. right.
      destruct (Forall2_lookup_r _ _ _ _ _ Hsd Hd0) as (name0 & Hn0 & Hg0).
      by exists name0, d0.
  - intros imgs Himgs. split; [|by apply Hrun].
    rewrite length_fmap, Hlen. apply length_mapM in Himgs.
    by rewrite length_fmap in Himgs.
  - intros Hnil. rewrite Hnil in Hp. apply Permutation_nil_r in Hp. subst fnames.
    rewrite (Hrun [] eq_refl). done.
Qed.

End Sort.

(** X4.  [_get_doy] does not depend on the order of the names: it sorts
    the dates itself, so the same names in another order give the same
    days, or the same exception.  It raises exactly when a name has no
    date, and returns one day per name. *)
Theorem _get_doy_any_order (fnames fnames' : list string) (freq : Z) :
  fnames ≡ₚ fnames' →
  _get_doy fnames freq = _get_doy fnames' freq ∧
  (is_Some (_get_doy fnames freq) ↔ Forall (λ fname, is_Some (_get_date fname)) fnames) ∧
  ∀ days, _get_doy fnames freq = Some days → length days = length fnames.
Proof.
  intros Hp. split; [by apply _get_doy_perm|].
  unfold _get_doy. destruct (mapM _get_date fnames) as [dates|] eqn:Hd.
  - cbn [mbind option_bind].
    set (doys := _get_date_doy <$> merge_sort date_le dates).
    assert (Hlen : length doys = length fnames).
    { unfold doys. rewrite length_fmap, merge_sort_Permutation.
      symmetry. by eapply length_mapM. }
    split.
    + split; [intros _|intros _].
      * apply mapM_is_Some. by rewrite Hd.
      * case_decide as Hs; [by eexists|].
        destruct doys as [|start doys']; [by destruct Hs|]. by eexists.
    + intros days. case_decide as Hs; [by intros [= <-]|].
      destruct (doys !! 0%nat) as [start|]; [|done]. intros [= <-].
      unfold _adjust_doy. by rewrite !length_fmap.
  - split; [|done]. split; [by intros [? ?]|].
    intros Hall%mapM_is_Some. rewrite Hd in Hall. by destruct Hall.
Qed.

(** The positions of [year_crossing] in the order of the dates. *)
Definition by_date (dates : list date) : list nat := [0; 2; 3; 1]%nat.

Definition year_crossing_dates : list date :=
  [Date 2019 11 10; Date 2020 2 10; Date 2019 12 10; Date 2020 1 10].

Lemma by_date_sorts : sorts year_crossing_dates (by_date year_crossing_dates).
Proof.
  split.
  - apply perm_skip. etrans; [apply perm_skip, perm_swap|apply perm_swap].
  - eexists. split; [reflexivity|]. repeat constructor; unfold date_le; simpl; lia.
Defined.

Lemma _sort_fnames_by_date_witness :
  (∀ dates, mapM _get_date year_crossing = Some dates → sorts dates (by_date dates)) ∧
  ∃ sorted, _sort_fnames by_date year_crossing = Some sorted ∧
    sorted ≡ₚ year_crossing ∧
    _get_doy sorted 365 = _get_doy year_crossing 365.
Proof.
  assert (H : ∀ dates, mapM _get_date year_crossing = Some dates →
                sorts dates (by_date dates)).
  { intros dates [= <-]. exact by_date_sorts. }
  split; [exact H|].
  pose proof (_sort_fnames_by_date by_date year_crossing H) as Hs.
  change (mapM _get_date year_crossing) with (Some year_crossing_dates) in Hs.
  destruct Hs as (sorted & sdates & Hsorted & Hp & _ & _ & _ & Hdoy).
  exists sorted. split; [done|]. split; [done|]. apply Hdoy.
Defined.

Lemma _get_doy_any_order_witness :
  year_crossing ≡ₚ reverse year_crossing ∧
  _get_doy year_crossing 365 = _get_doy (reverse year_crossing) 365.
Proof.
  assert (H : year_crossing ≡ₚ reverse year_crossing).
  { symmetry. apply reverse_Permutation. }
  split; [exact H|]. exact (proj1 (_get_doy_any_order _ _ 365 H)).
Defined.

(** A directory listing with the four rasters of [year_crossing], an
    auxiliary file and a raster of the other polarization. *)
Definition ard_listing : list string :=
  year_crossing
  ++ [ "S1A_IW_GRDH_1SDV_20191110T034512_VV.img.aux.xml";
       "S1A_IW_GRDH_1SDV_20191110T034512_VH.img" ]%string.

Lemma harmonic_fitting_inputs_witness :
  let Lasso_fit := λ (_ : unit) (_ : list (list spec_float)) (_ : list spec_float),
                     Some (replicate 3 (S754_zero false), S754_zero false) in
  let gdal_Open := λ _ : string, Some GuidedFilter.sample_img in
  mapM _get_date (select "VV" ard_listing) = Some year_crossing_dates ∧
  sorts year_crossing_dates (by_date year_crossing_dates) ∧
  ∃ fnames days x,
    _sort_fnames by_date (select "VV" ard_listing) = Some fnames ∧
    _get_doy fnames 365 = Some days ∧
    Design._getVariable Design.cos_arg 365 days 3 = Some x ∧
    length days = 4%nat ∧ length x = 4%nat.
Proof.
  intros Lasso_fit gdal_Open.
  split; [reflexivity|]. split; [exact by_date_sorts|].
  destruct (harmonic_fitting_inputs by_date Lasso_fit Design.cos_arg gdal_Open "/data/ard_1"
              ard_listing "VV" 365 1 tt year_crossing_dates eq_refl by_date_sorts)
    as (fnames & days & x & Hs & Hdays & Hx & Hld & Hlx & _).
  exists fnames, days, x. split; [done|]. split; [done|]. split; [done|].
  assert (Hf : length fnames = 4%nat).
  { change (_sort_fnames by_date (select "VV" ard_listing))
      with (Some [ "S1A_IW_GRDH_1SDV_20191110T034512_VV.img";
                   "S1A_IW_GRDH_1SDV_20191210T034512_VV.img";
                   "S1A_IW_GRDH_1SDV_20200110T034512_VV.img";
                   "S1A_IW_GRDH_1SDV_20200210T034512_VV.img" ]%string) in Hs.
    by injection Hs as <-. }
  by rewrite Hld, Hlx, Hf.
Defined.

End Stack.

(** ** Days of year within one calendar year *)

Module Calendar.
Import TimeSeries Stack.

Lemma valid_date_fields (d : date) :
  valid_date d = true →
  1 ≤ month d ≤ 12 ∧ 1 ≤ day d ≤ days_in_month (year d) (month d).
Proof.
  unfold valid_date. rewrite !andb_true_iff, !Z.leb_le. lia.
Qed.

Ltac month_cases m H :=
  assert (m = 1 ∨ m = 2 ∨ m = 3 ∨ m = 4 ∨ m = 5 ∨ m = 6 ∨ m = 7 ∨ m = 8 ∨ m = 9
          ∨ m = 10 ∨ m = 11 ∨ m = 12) as H by lia;
  repeat (destruct H as [H|H]); subst m.

(** Within a year the day of year grows with the date. *)
Lemma _get_date_doy_mono (a b : date) :
  valid_date a = true → valid_date b = true → year a = year b →
  date_le a b → _get_date_doy a ≤ _get_date_doy b.
Proof.
  intros [Hma Hda]%valid_date_fields [Hmb Hdb]%valid_date_fields Hy Hle.
  destruct a as [y ma da], b as [yb mb db]. simpl in *. subst yb.
  unfold date_le in Hle. simpl in Hle.
  assert (Hcase : ma < mb ∨ (ma = mb ∧ da ≤ db)) by lia. clear Hle.
  unfold _get_date_doy. simpl.
  destruct Hcase as [Hlt|[-> Hd]].
  - month_cases ma Ha; month_cases mb Hb; try lia;
      unfold days_before_month, days_in_month in *; simpl in *;
      destruct (is_leap y); lia.
  - lia.
Qed.

Lemma _get_date_doy_range (d : date) :
  valid_date d = true →
  1 ≤ _get_date_doy d ≤ (if is_leap (year d) then 366 else 365).
Proof.
  intros [Hm Hd]%valid_date_fields. destruct d as [y m d]. simpl in *.
  unfold _get_date_doy. simpl.
  month_cases m H; unfold days_before_month, days_in_month in *; simpl in *;
    destruct (is_leap y); lia.
Qed.

Lemma _get_date_valid (fname : string) (d : date) :
  _get_date fname = Some d → valid_date d = true.
Proof.
  unfold _get_date. intros (f & _ & H)%bind_Some.
  apply bind_Some in H as (y & _ & H). apply bind_Some in H as (m & _ & H).
  apply bind_Some in H as (dd & _ & H).
  destruct (valid_date (Date y m dd)) eqn:Hv; [|done]. by injection H as <-.
Qed.

Lemma mapM_get_date_valid (fnames : list string) (dates : list date) :
  mapM _get_date fnames = Some dates → Forall (λ d, valid_date d = true) dates.
Proof.
  intros H%mapM_Some. induction H as [|n d ns ds Hd _ IH]; constructor; [|done].
  by eapply _get_date_valid.
Qed.

Lemma Sorted_doy (y : Z) (l : list date) :
  Forall (λ d, valid_date d = true) l → Forall (λ d, year d = y) l →
  Sorted date_le l → Sorted Z.le (_get_date_doy <$> l).
Proof.
  intros Hv Hy Hs. induction Hs as [|a l Hs IH Hhd]; [constructor|].
  inversion Hv as [|? ? Hva Hvl]; inversion Hy as [|? ? Hya Hyl]; subst.
  simpl. constructor; [by apply IH|].
  destruct Hhd as [|b l Hab]; [constructor|]. simpl. constructor.
  inversion Hvl; inversion Hyl; subst. by apply _get_date_doy_mono.
Qed.

(** X6.  When the names all have a date and the dates are of one
    calendar year, [_get_doy] returns the days of year of the dates in
    ascending order of date, without the adjustment: the days do not
    decrease and are between 1 and 365, or 366 in a leap year. *)
Theorem _get_doy_one_year (fnames : list string) (freq y : Z) (dates : list date) :
  mapM _get_date fnames = Some dates →
  Forall (λ d, year d = y) dates →
  ∃ doys, _get_doy fnames freq = Some doys ∧
    doys = _get_date_doy <$> merge_sort date_le dates ∧
    non_decreasing doys ∧
    Forall (λ t, 1 ≤ t ≤ (if is_leap y then 366 else 365)) doys.
Proof.
  intros Hd Hy. pose proof (mapM_get_date_valid _ _ Hd) as Hv.
  set (sorted := merge_sort date_le dates).
  assert (Hp : sorted ≡ₚ dates) by apply merge_sort_Permutation.
  assert (Hvs : Forall (λ d, valid_date d = true) sorted) by by rewrite Hp.
  assert (Hys : Forall (λ d, year d = y) sorted) by by rewrite Hp.
  assert (Hs : Sorted Z.le (_get_date_doy <$> sorted)).
  { apply (Sorted_doy y); try done. apply Sorted_merge_sort, _. }
  exists (_get_date_doy <$> sorted). split; [|split; [done|split; [done|]]].
  - unfold _get_doy. rewrite Hd. simpl. fold sorted.
    rewrite decide_True; [done|]. by apply merge_sort_fixed.
  - apply Forall_fmap. rewrite Forall_forall in Hvs, Hys |- *.
    intros d Hin. simpl. rewrite <- (Hys d Hin). apply _get_date_doy_range.
    by apply Hvs.
Qed.

Lemma _get_doy_one_year_witness :
  let fnames := [ "S1A_IW_GRDH_1SDV_20200301T034512_VV.img";
                  "S1A_IW_GRDH_1SDV_20200110T034512_VV.img" ]%string in
  mapM _get_date fnames = Some [Date 2020 3 1; Date 2020 1 10] ∧
  Forall (λ d, year d = 2020) [Date 2020 3 1; Date 2020 1 10] ∧
  _get_doy fnames 365 = Some [10; 61].
Proof.
  intros fnames. split; [reflexivity|].
  assert (Hy : Forall (λ d, year d = 2020) [Date 2020 3 1; Date 2020 1 10]).
  { repeat constructor. }
  split; [exact Hy|].
  destruct (_get_doy_one_year fnames 365 2020 _ eq_refl Hy) as (doys & -> & -> & _).
  reflexivity.
Defined.

End Calendar.

(** ** The names of the filtered rasters *)

Module Rename.
Import TimeSeries Stack.

(** [name.replace('img', 'tif')]: the occurrences from the left that do not
    overlap. *)
Fixpoint replace_img_tif (s : string) : string :=
  match s with
  | String a (String b (String c s') as t) =>
      if Ascii.eqb a "i" && Ascii.eqb b "m" && Ascii.eqb c "g"
      then String "t" (String "i" (String "f" (replace_img_tif s')))
      else String a (replace_img_tif t)
  | String a t => String a (replace_img_tif t)
  | EmptyString => EmptyString
  end.

Example replace_twice :
  replace_img_tif "img_S1A_imimgg.img" = "tif_S1A_imtifg.tif"%string.
Proof. reflexivity. Qed.

Lemma prefix_cons (a b : ascii) (s t : string) :
  String.prefix (String a s) (String b t) = bool_decide (a = b) && String.prefix s t.
Proof. simpl. destruct (ascii_dec a b); by case_bool_decide. Qed.

Lemma prefix_empty (s : string) : String.prefix "" s = true.
Proof. by destruct s. Qed.

Lemma replace_cons (a : ascii) (t : string) :
  (String.prefix "img" (String a t) = true ∧
   ∃ s', String a t = String "i" (String "m" (String "g" s')) ∧
     replace_img_tif (String a t)
     = String "t" (String "i" (String "f" (replace_img_tif s')))) ∨
  (String.prefix "img" (String a t) = false ∧
   replace_img_tif (String a t) = String a (replace_img_tif t)).
Proof.
  destruct t as [|b [|c s']].
  - right. split; [|done]. rewrite prefix_cons. by rewrite andb_false_r.
  - right. split; [|done]. rewrite !prefix_cons. by rewrite !andb_false_r.
  - rewrite !prefix_cons.
    change (replace_img_tif (String a (String b (String c s'))))
      with (if Ascii.eqb a "i" && Ascii.eqb b "m" && Ascii.eqb c "g"
            then String "t" (String "i" (String "f" (replace_img_tif s')))
            else String a (replace_img_tif (String b (String c s')))).
    destruct (Ascii.eqb_spec a "i") as [->|Ha];
      [destruct (Ascii.eqb_spec b "m") as [->|Hb];
       [destruct (Ascii.eqb_spec c "g") as [->|Hc]|]|].
    + left. split; [by rewrite !bool_decide_eq_true_2, prefix_empty|]. by eexists.
    + right. split; [|done]. rewrite (bool_decide_eq_false_2 ("g"%char = c)) by done.
      by rewrite !andb_false_r.
    + right. split; [|done]. rewrite (bool_decide_eq_false_2 ("m"%char = b)) by done.
      by rewrite !andb_false_r.
    + right. split; [|done]. by rewrite (bool_decide_eq_false_2 ("i"%char = a)).
Qed.

(** No ["img"] is left, at the head ... *)
Lemma replace_no_img_head (s : string) :
  String.prefix "img" (replace_img_tif s) = false.
Proof.
  destruct s as [|a t]; [done|].
  destruct (replace_cons a t) as [(_ & s' & _ & ->)|[Hs ->]]; [done|].
  rewrite prefix_cons. case_bool_decide as Ha; [subst a|done]. simpl andb.
  destruct t as [|b u]; [done|].
  destruct (replace_cons b u) as [(_ & s' & _ & ->)|[Ht ->]]; [done|].
  rewrite prefix_cons. case_bool_decide as Hb; [subst b|done]. simpl andb.
  destruct u as [|c v]; [done|].
  destruct (replace_cons c v) as [(_ & s' & _ & ->)|[Hu ->]]; [done|].
  rewrite prefix_cons. case_bool_decide as Hc; [subst c|done].
  rewrite !prefix_cons, prefix_empty in Hs.
  by rewrite !bool_decide_eq_true_2 in Hs.
Qed.

(** ... and anywhere. *)
Lemma replace_no_img (s : string) : contains "img" (replace_img_tif s) = false.
Proof.
  assert (H : ∀ n s, (String.length s < n)%nat →
              contains "img" (replace_img_tif s) = false).
  { clear s. induction n as [|n IH]; intros s Hn; [lia|].
    destruct s as [|a t]; [done|].
    pose proof (replace_no_img_head (String a t)) as Hhead.
    destruct (replace_cons a t) as [(_ & s' & Heq & Hr)|[Hs Hr]];
      rewrite Hr in Hhead |- *.
    - cbn [contains]. rewrite Hhead.
      change (String.prefix "img" (String "i" (String "f" (replace_img_tif s'))))
        with false.
      change (String.prefix "img" (String "f" (replace_img_tif s'))) with false.
      simpl orb. apply IH. rewrite Heq in Hn. simpl in Hn. lia.
    - cbn [contains]. rewrite Hhead. simpl orb. apply IH. simpl in Hn. lia. }
  apply (H (S (String.length s))). lia.
Qed.

Lemma contains_cons (a : ascii) (sub s : string) :
  contains (String a sub) s = true → contains sub s = true.
Proof.
  induction s as [|b s IH]; [done|]. cbn [contains].
  intros [Hp|Hc]%orb_true_iff; apply orb_true_iff.
  - right. rewrite prefix_cons in Hp. apply andb_true_iff in Hp as [_ Hp].
    destruct s as [|c s]; [by destruct sub|].
    cbn [contains]. by rewrite Hp.
  - right. by apply IH.
Qed.

(** [os.path.basename(p)] *)
Definition basename (p : string) : string := default "" (last (split "/" p)).

(** [dst_path] of [guided_filter]: the path of the raster it creates; it
    creates none for another format. *)
Definition dst_path (out_format dst_dir src_path : string) : option string :=
  if decide (out_format = "ENVI") then
    Some (join dst_dir (basename src_path))
  else if decide (out_format = "GTiff") then
    Some (join dst_dir (replace_img_tif (basename src_path)))
  else None.

(** Two names that differ only where both have a character that is no
    digit, no underscore and no blank. *)
Definition alike (a b : ascii) : Prop :=
  a = b ∨ (digit a = None ∧ digit b = None ∧ a ≠ "_"%char ∧ b ≠ "_"%char
           ∧ a ≠ " "%char ∧ b ≠ " "%char).

Fixpoint related (s t : string) : Prop :=
  match s, t with
  | EmptyString, EmptyString => True
  | String a s', String b t' => alike a b ∧ related s' t'
  | _, _ => False
  end.

Lemma related_refl (s : string) : related s s.
Proof. induction s; simpl; [done|]. split; [by left|done]. Qed.

Lemma replace_related (s : string) : related s (replace_img_tif s).
Proof.
  assert (H : ∀ n s, (String.length s < n)%nat → related s (replace_img_tif s)).
  { clear s. induction n as [|n IH]; intros s Hn; [lia|].
    destruct s as [|a t]; [done|].
    destruct (replace_cons a t) as [(_ & s' & Heq & Hr)|[Hs Hr]]; rewrite Hr.
    - rewrite Heq in Hn |- *. simpl in Hn. simpl.
      repeat (split; [right; by vm_compute|]). apply IH. lia.
    - simpl. split; [by left|]. apply IH. simpl in Hn. lia. }
  apply (H (S (String.length s))). lia.
Qed.

Lemma related_length (s t : string) : related s t → String.length s = String.length t.
Proof.
  revert t. induction s as [|a s IH]; intros [|b t]; simpl; try done.
  intros [_ H]. f_equal. by apply IH.
Qed.

Lemma related_substring (n m : nat) (s t : string) :
  related s t → related (substring n m s) (substring n m t).
Proof.
  revert m s t. induction n as [|n IHn]; intros m.
  - induction m as [|m IHm]; intros [|a s] [|b t]; simpl; try done.
    intros [Ha H]. split; [done|]. by apply IHm.
  - intros [|a s] [|b t]; simpl; try done. intros [_ H]. by apply IHn.
Qed.

Lemma related_digits (acc : Z) (s t : string) :
  related s t → digits acc s = digits acc t.
Proof.
  revert acc t. induction s as [|a s IH]; intros acc [|b t]; simpl; try done.
  intros [[->|(Ha & Hb & _)] H].
  - destruct (digit b); simpl; [by apply IH|done].
  - by rewrite Ha, Hb.
Qed.

Lemma related_split (s t : string) :
  related s t → Forall2 related (split "_" s) (split "_" t).
Proof.
  revert t. induction s as [|a s IH]; intros [|b t]; simpl; try done.
  - intros _. by repeat constructor.
  - intros [Hab H]. specialize (IH t H).
    assert (Hsep : Ascii.eqb a "_" = Ascii.eqb b "_").
    { destruct Hab as [->|(_ & _ & Ha & Hb & _)]; [done|].
      by destruct (Ascii.eqb_spec a "_"), (Ascii.eqb_spec b "_"). }
    rewrite Hsep. destruct (Ascii.eqb b "_").
    + constructor; [done|exact IH].
    + destruct IH as [|h1 h2 l1 l2 Hh Hl].
      * constructor; [by split|constructor].
      * constructor; [by split|done].
Qed.

Lemma parse_day_nonblank (a : ascii) (u : string) :
  a ≠ " "%char →
  parse_day (String a u)
  = (v ← digits 0 (String a u);
     if decide ((String.length (String a u) = 1 ∨ String.length (String a u) = 2)%nat
                ∧ 1 ≤ v ≤ 31)
     then Some v else None).
Proof.
  intros Ha. unfold parse_day.
  destruct a as [[] [] [] [] [] [] [] []]; done.
Qed.

(** The renamed raster has the date of the source name. *)
Lemma _get_date_related (s t : string) : related s t → _get_date s = _get_date t.
Proof.
  intros H. unfold _get_date.
  pose proof (related_split s t H) as Hsp.
  destruct (split "_" s !! 4%nat) as [f|] eqn:Hf.
  - destruct (Forall2_lookup_l _ _ _ _ _ Hsp Hf) as (g & -> & Hfg). simpl.
    assert (Hy : parse_year (substring 0 4 f) = parse_year (substring 0 4 g)).
    { unfold parse_year.
      pose proof (related_substring 0 4 f g Hfg) as Hr.
      rewrite (related_length _ _ Hr). case_decide; [|done].
      by apply related_digits. }
    assert (Hm : parse_month (substring 4 2 f) = parse_month (substring 4 2 g)).
    { unfold parse_month.
      pose proof (related_substring 4 2 f g Hfg) as Hr.
      rewrite (related_length _ _ Hr), (related_digits 0 _ _ Hr). done. }
    assert (Hd : parse_day (substring 6 2 f) = parse_day (substring 6 2 g)).
    { pose proof (related_substring 6 2 f g Hfg) as Hr.
      destruct (substring 6 2 f) as [|a f'], (substring 6 2 g) as [|b g'];
        try done.
      assert (Hs : related (String a f') (String b g')) by done.
      destruct Hr as [Hab Hr].
      assert (Hblank : (a = " "%char ∧ b = " "%char) ∨ (a ≠ " "%char ∧ b ≠ " "%char)).
      { destruct Hab as [->|(_ & _ & _ & _ & Ha & Hb)]; [|by right].
        destruct (decide (b = " "%char)); [by left|by right]. }
      destruct Hblank as [[-> ->]|[Ha Hb]].
      - unfold parse_day. simpl String.length.
        by rewrite (related_length _ _ Hr), (related_digits 0 _ _ Hr).
      - rewrite !parse_day_nonblank by done.
        by rewrite (related_length _ _ Hs), (related_digits 0 _ _ Hs). }
    by rewrite Hy, Hm, Hd.
  - destruct (split "_" t !! 4%nat) as [g|] eqn:Hg; [|done].
    destruct (Forall2_lookup_r _ _ _ _ _ Hsp Hg) as (f & Hf' & _). congruence.
Qed.

(** A string without the letters of ["img"]. *)
Fixpoint free_of_img (sub : string) : bool :=
  match sub with
  | EmptyString => true
  | String c sub' =>
      negb (Ascii.eqb c "i" || Ascii.eqb c "m" || Ascii.eqb c "g") && free_of_img sub'
  end.

Lemma prefix_contains (sub s : string) :
  String.prefix sub s = true → contains sub s = true.
Proof. intros H. destruct s; cbn [contains]; by rewrite H. Qed.

Lemma contains_tail (a : ascii) (sub s : string) :
  contains sub s = true → contains sub (String a s) = true.
Proof. intros H. cbn [contains]. rewrite H. apply orb_true_r. Qed.

Lemma prefix_replace (sub s : string) :
  free_of_img sub = true → String.prefix sub s = true →
  String.prefix sub (replace_img_tif s) = true.
Proof.
  revert s. induction sub as [|c sub IH]; intros s Hfree Hp; [apply prefix_empty|].
  destruct s as [|a t]; [done|].
  rewrite prefix_cons in Hp. apply andb_true_iff in Hp as [Hc Hp].
  apply bool_decide_eq_true in Hc. subst a.
  cbn [free_of_img] in Hfree. apply andb_true_iff in Hfree as [Hc Hfree].
  destruct (replace_cons c t) as [(_ & s' & Heq & _)|[_ ->]].
  - injection Heq as -> _. done.
  - rewrite prefix_cons, bool_decide_eq_true_2 by done. by apply IH.
Qed.

Lemma contains_replace (sub s : string) :
  free_of_img sub = true → contains sub s = true →
  contains sub (replace_img_tif s) = true.
Proof.
  intros Hfree. destruct sub as [|c sub].
  { intros _. apply prefix_contains, prefix_empty. }
  assert (H : ∀ n s, (String.length s < n)%nat → contains (String c sub) s = true →
              contains (String c sub) (replace_img_tif s) = true).
  { clear s. induction n as [|n IH]; intros s Hn Hc; [lia|].
    destruct s as [|a t]; [done|].
    cbn [contains] in Hc. apply orb_true_iff in Hc as [Hp|Hc].
    { by apply prefix_contains, prefix_replace. }
    cbn [free_of_img] in Hfree. apply andb_true_iff in Hfree as [Hhead _].
    destruct (replace_cons a t) as [(_ & s' & Heq & ->)|[_ ->]].
    - injection Heq as -> ->.
      cbn [contains] in Hc. rewrite !prefix_cons in Hc.
      assert (Hm : bool_decide (c = "m"%char) = false).
      { apply bool_decide_eq_false. intros ->. done. }
      assert (Hg : bool_decide (c = "g"%char) = false).
      { apply bool_decide_eq_false. intros ->. done. }
      rewrite Hm, Hg in Hc. simpl in Hc.
      do 3 apply contains_tail. apply IH; [simpl in Hn; lia|done].
    - apply contains_tail. apply IH; [simpl in Hn; lia|done]. }
  apply (H (S (String.length s))). lia.
Qed.

(** The extension [".img"] becomes [".tif"]. *)
Lemma contains_dot_img (s : string) :
  contains ".img" s = true → contains ".tif" (replace_img_tif s) = true.
Proof.
  assert (H : ∀ n s, (String.length s < n)%nat → contains ".img" s = true →
              contains ".tif" (replace_img_tif s) = true).
  { clear s. induction n as [|n IH]; intros s Hn Hc; [lia|].
    destruct s as [|a t]; [done|].
    cbn [contains] in Hc. apply orb_true_iff in Hc as [Hp|Hc].
    - destruct t as [|b [|c [|d s']]]; rewrite ?prefix_cons in Hp;
        try (by rewrite ?andb_false_r in Hp).
      repeat (apply andb_true_iff in Hp as [?%bool_decide_eq_true Hp]). subst.
      change (replace_img_tif (String "." (String "i" (String "m" (String "g" s')))))
        with (String "." (String "t" (String "i" (String "f" (replace_img_tif s'))))).
      apply prefix_contains. rewrite !prefix_cons, prefix_empty.
      by rewrite !bool_decide_eq_true_2.
    - destruct (replace_cons a t) as [(_ & s' & Heq & ->)|[_ ->]].
      + injection Heq as -> ->.
        cbn [contains] in Hc. rewrite !prefix_cons in Hc. simpl in Hc.
        do 3 apply contains_tail. apply IH; [simpl in Hn; lia|done].
      + apply contains_tail. apply IH; [simpl in Hn; lia|done]. }
  apply (H (S (String.length s))). lia.
Qed.

Lemma contains_slash_cons (c : ascii) (s : string) :
  contains "/" (String c s) = Ascii.eqb c "/" || contains "/" s.
Proof.
  cbn [contains]. rewrite prefix_cons, prefix_empty, andb_true_r. f_equal.
  destruct (Ascii.eqb_spec c "/") as [->|Hc]; [done|].
  apply bool_decide_eq_false. congruence.
Qed.

Lemma split_not_nil (sep : ascii) (s : string) : split sep s ≠ [].
Proof.
  induction s as [|c s IH]; simpl; [done|].
  destruct (Ascii.eqb c sep); [done|]. by destruct (split sep s).
Qed.

Lemma split_no_slash (s : string) : contains "/" s = false → split "/" s = [s].
Proof.
  induction s as [|c s IH]; [done|]. rewrite contains_slash_cons.
  intros [Hc Hs]%orb_false_iff. simpl. by rewrite Hc, IH.
Qed.

Lemma split_fields (s : string) :
  Forall (λ f, contains "/" f = false) (split "/" s).
Proof.
  induction s as [|c s IH]; simpl; [by repeat constructor|].
  destruct (Ascii.eqb c "/") eqn:Hc; [by constructor|].
  pose proof (split_not_nil "/" s) as Hn.
  destruct (split "/" s) as [|h t]; [done|].
  inversion IH as [|? ? Hh Ht]; subst. constructor; [|done].
  by rewrite contains_slash_cons, Hc.
Qed.

Lemma basename_no_slash (p : string) : contains "/" (basename p) = false.
Proof.
  unfold basename. pose proof (split_fields p) as Hf.
  destruct (last (split "/" p)) as [f|] eqn:Hlast; [|done]. simpl.
  rewrite Forall_forall in Hf. apply Hf.
  apply last_Some in Hlast as [l ->]. apply elem_of_app. right. by left.
Qed.

Lemma split_two (a b : string) :
  (2 ≤ length (split "/" (a +:+ String "/" b)))%nat.
Proof.
  induction a as [|c a IH]; simpl.
  - pose proof (split_not_nil "/" b). destruct (split "/" b); [done|simpl; lia].
  - destruct (Ascii.eqb c "/"); [simpl; lia|].
    destruct (split "/" (a +:+ String "/" b)); simpl in *; lia.
Qed.

Lemma last_split_app (a b : string) :
  last (split "/" (a +:+ String "/" b)) = last (split "/" b).
Proof.
  induction a as [|c a IH]; simpl.
  - rewrite last_cons. pose proof (split_not_nil "/" b) as Hn.
    destruct (last (split "/" b)) eqn:Hl; [done|]. by apply last_None in Hl.
  - pose proof (split_two a b) as Hlen.
    destruct (Ascii.eqb c "/").
    + rewrite last_cons, IH. pose proof (split_not_nil "/" b) as Hn.
      destruct (last (split "/" b)) eqn:Hl; [done|]. by apply last_None in Hl.
    + destruct (split "/" (a +:+ String "/" b)) as [|h [|h' t]];
        simpl in Hlen; try lia.
      rewrite <- IH. by rewrite !last_cons_cons.
Qed.

Lemma last_char_Some (a : string) (c : ascii) :
  Scratch.last_char a = Some c → ∃ a', a = a' +:+ String c "".
Proof.
  induction a as [|d a IH]; [done|]. simpl. destruct a as [|e a].
  - intros [= ->]. by exists ""%string.
  - intros [a' ->]%IH. by exists (String d a').
Qed.

Lemma append_slash (a b : string) :
  (a +:+ String "/" "") +:+ b = a +:+ String "/" b.
Proof.
  induction a as [|c a IH]; [done|].
  change (String c ((a +:+ String "/" "") +:+ b) = String c (a +:+ String "/" b)).
  by rewrite IH.
Qed.

(** A name of a directory listing is the base name of its path. *)
Lemma basename_join (a b : string) :
  contains "/" b = false → basename (join a b) = b.
Proof.
  intros Hb. unfold join.
  destruct (String.prefix "/" b) eqn:Hp.
  { apply prefix_contains in Hp. congruence. }
  assert (Hbase : ∀ a', basename (a' +:+ String "/" b) = b).
  { intros a'. unfold basename. by rewrite last_split_app, split_no_slash. }
  destruct (bool_decide (a = "")) eqn:Ha.
  - apply bool_decide_eq_true in Ha. subst a. simpl.
    unfold basename. by rewrite split_no_slash.
  - destruct (bool_decide (Scratch.last_char a = Some "/"%char)) eqn:Hl; simpl.
    + apply bool_decide_eq_true, last_char_Some in Hl as [a' ->].
      rewrite append_slash. apply Hbase.
    + apply Hbase.
Qed.

Lemma replace_no_slash (s : string) :
  contains "/" s = false → contains "/" (replace_img_tif s) = false.
Proof.
  assert (H : ∀ n s, (String.length s < n)%nat → contains "/" s = false →
              contains "/" (replace_img_tif s) = false).
  { clear s. induction n as [|n IH]; intros s Hn Hs; [lia|].
    destruct s as [|a t]; [done|].
    destruct (replace_cons a t) as [(_ & s' & Heq & ->)|[_ ->]].
    - rewrite Heq in Hs, Hn. rewrite !contains_slash_cons in Hs |- *.
      simpl in Hs |- *. apply IH; [simpl in Hn; lia|done].
    - rewrite contains_slash_cons in Hs |- *.
      apply orb_false_iff in Hs as [-> Hs]. simpl. apply IH; [simpl in Hn; lia|done]. }
  apply (H (S (String.length s))). lia.
Qed.

Lemma elem_of_select (pol out : string) (listing : list string) :
  out ∈ select pol listing ↔
  out ∈ listing ∧
  (contains ".img" out && contains pol out && negb (contains ".aux.xml" out))
  || (contains ".tif" out && contains pol out) = true.
Proof. unfold select. rewrite list_elem_of_filter. tauto. Qed.

Lemma elem_of_select_br (pol out : string) (listing : list string) :
  out ∈ select_br pol listing ↔
  out ∈ listing ∧
  contains ".img" out && contains pol out && negb (contains ".aux.xml" out) = true.
Proof. unfold select_br. rewrite list_elem_of_filter. tauto. Qed.

(** X7.  A raster that [guided_filter_batch] takes from the listing of the
    clip directory and [guided_filter] writes to [dir_ard], for a
    polarization [pol] that is in the name and has none of the letters i,
    m, g (VV and VH have none).  The raster is written to [dir_ard] under
    a name [out] without a separator; [harmonic_fitting] selects [out]
    from every listing that holds it, in both formats, and
    [harmonic_fitting_br] selects it in the format ENVI only, because
    [replace('img', 'tif')] leaves no [".img"] in a GTiff name. *)
Theorem outputs_selection (out_format pol dir_clip dir_ard fname p : string)
    (clip_listing : list string) :
  fname ∈ select_clip clip_listing → contains "/" fname = false →
  dst_path out_format dir_ard (join dir_clip fname) = Some p →
  contains pol fname = true → free_of_img pol = true →
  ∃ out, p = join dir_ard out ∧ basename p = out ∧
    ∀ listing, out ∈ listing →
      out ∈ select pol listing ∧
      (out ∈ select_br pol listing ↔ out_format = "ENVI").
Proof.
  intros Hclip Hname Hout Hpol Hfree.
  apply list_elem_of_filter in Hclip as [Hclip _].
  apply andb_true_iff in Hclip as [Himg Haux%negb_true_iff].
  unfold dst_path in Hout. rewrite (basename_join dir_clip fname Hname) in Hout.
  case_decide as Henvi.
  - injection Hout as <-. exists fname. split; [done|].
    split; [by apply basename_join|]. intros listing Hin.
    rewrite elem_of_select, elem_of_select_br.
    rewrite Himg, Hpol, Haux. simpl. tauto.
  - case_decide as Hgtiff; [|done]. injection Hout as <-.
    exists (replace_img_tif fname). split; [done|].
    split; [by apply basename_join, replace_no_slash|]. intros listing Hin.
    rewrite elem_of_select, elem_of_select_br.
    rewrite (contains_dot_img fname Himg), (contains_replace pol fname Hfree Hpol).
    assert (Hno : contains ".img" (replace_img_tif fname) = false).
    { destruct (contains ".img" (replace_img_tif fname)) eqn:Hc; [|done].
      apply contains_cons in Hc. by rewrite replace_no_img in Hc. }
    rewrite Hno. simpl. split; [done|]. split; [by intros [_ ?]|done].
Qed.

Lemma outputs_selection_witness :
  let fname := "S1A_IW_GRDH_1SDV_20191110T034512_VV.img"%string in
  let out := "S1A_IW_GRDH_1SDV_20191110T034512_VV.tif"%string in
  fname ∈ select_clip [fname] ∧ contains "/" fname = false ∧
  dst_path "GTiff" "/data/ard_7" (join "/data/clip_7" fname)
  = Some ("/data/ard_7/" +:+ out) ∧
  contains "VV" fname = true ∧ free_of_img "VV" = true ∧
  out ∈ select "VV" [out] ∧ out ∉ select_br "VV" [out].
Proof.
  intros fname out.
  assert (Hclip : fname ∈ select_clip [fname]) by apply list_elem_of_here.
  assert (Hin : out ∈ [out]) by apply list_elem_of_here.
  destruct (outputs_selection "GTiff" "VV" "/data/clip_7" "/data/ard_7" fname
              ("/data/ard_7/" +:+ out) [fname] Hclip eq_refl eq_refl eq_refl eq_refl)
    as (out' & _ & Hbase & Hsel).
  change (basename ("/data/ard_7/" +:+ out)) with out in Hbase. subst out'.
  destruct (Hsel [out] Hin) as [Hs Hbr].
  repeat (split; [done|]). intros H. by apply Hbr in H.
Defined.

(** X8.  The raster that [guided_filter] writes has the date of its
    source: [_get_date] reads the same date from the base name of the
    output path as from the base name of the source path, or fails on
    both, in either format. *)
Theorem dst_path_keeps_date (out_format dst_dir src_path p : string) :
  dst_path out_format dst_dir src_path = Some p →
  _get_date (basename p) = _get_date (basename src_path).
Proof.
  unfold dst_path. pose proof (basename_no_slash src_path) as Hb.
  case_decide; [intros [= <-]; by rewrite basename_join|].
  case_decide; [|done]. intros [= <-].
  rewrite basename_join by by apply replace_no_slash.
  symmetry. apply _get_date_related, replace_related.
Qed.

Lemma dst_path_keeps_date_witness :
  dst_path "GTiff" "ard_7" "clip_7/img_IW_GRDH_1SDV_20191110_img_VV.img"
  = Some "ard_7/tif_IW_GRDH_1SDV_20191110_tif_VV.tif"%string ∧
  _get_date "tif_IW_GRDH_1SDV_20191110_tif_VV.tif" = Some (Date 2019 11 10).
Proof.
  split; [reflexivity|].
  exact (dst_path_keeps_date "GTiff" "ard_7"
           "clip_7/img_IW_GRDH_1SDV_20191110_img_VV.img"
           "ard_7/tif_IW_GRDH_1SDV_20191110_tif_VV.tif" eq_refl).
Defined.

End Rename.


(** ** The filtered raster *)

Module Filtering.
Import Np GuidedFilter.

(** [np.full(shape, c)]: the array of that shape with [c] everywhere. *)
Definition full (sh : list nat) (c : spec_float) : ndarray :=
  (λ n, replicate n c) <$> sh.

Lemma shape_full (sh : list nat) (c : spec_float) : shape (full sh c) = sh.
Proof.
  unfold shape, full. rewrite <- list_fmap_compose.
  rewrite <- (list_fmap_id sh) at 2. apply list_fmap_ext.
  intros i n _. apply length_replicate.
Qed.

Lemma map2_full {A B C} (f : A → B → C) (sh : list nat) (c : A) (d : B) :
  map2 f ((λ n, replicate n c) <$> sh) ((λ n, replicate n d) <$> sh)
  = (λ n, replicate n (f c d)) <$> sh.
Proof.
  unfold map2. induction sh as [|n sh IH]; simpl; [done|]. f_equal; [|exact IH].
  clear. induction n as [|n IH]; simpl; [done|]. by f_equal.
Qed.

Lemma map1_full {A B} (f : A → B) (sh : list nat) (c : A) :
  map1 f ((λ n, replicate n c) <$> sh) = (λ n, replicate n (f c)) <$> sh.
Proof.
  unfold map1. induction sh as [|n sh IH]; simpl; [done|]. f_equal; [|exact IH].
  by rewrite fmap_replicate.
Qed.

Lemma sub32_diag (s : bool) (m : positive) (e : Z) :
  Float.sub32 (S754_finite s m e) (S754_finite s m e) = S754_zero false.
Proof.
  unfold Float.sub32, SFsub. cbv zeta. rewrite Z.min_id.
  unfold shl_align. by rewrite !Z.sub_diag.
Qed.

Section Flat.
Variable boxFilter : ndarray → Z → ndarray.

(** The box filter gives back an array that holds one value everywhere:
    the mean of equal numbers is that number. *)
Definition keeps_flat : Prop :=
  ∀ (sh : list nat) (c : spec_float) (k : Z), boxFilter (full sh c) k = full sh c.

(** X10.  A band that holds one finite value that is not zero, whose
    square is finite in float32, comes out of [_guidedfilter] as it went
    in, for every kernel size and every [eps] that is not negative, when
    the box filter returns a constant array as it is. *)
Theorem flat_band_unchanged (sh : list nat) (s : bool) (m : positive) (e : Z)
    (ksize : Z) (eps : spec_float) :
  let c := S754_finite s m e in
  keeps_flat → Float.nonneg eps = true →
  (∀ sp, Float.mul32 c c ≠ S754_infinity sp) →
  _guidedfilter boxFilter (full sh c) (full sh c) ksize eps = full sh c.
Proof.
  intros c Hbox Heps Hfin.
  unfold _guidedfilter, _boxfilter, full.
  rewrite !map2_full. fold (full sh c) (full sh (Float.mul32 c c)).
  rewrite !Hbox. unfold full. rewrite !map2_full.
  assert (Hzero : Float.sub32 (Float.mul32 c c) (Float.mul32 c c) = S754_zero false).
  { destruct (Float.mul32 c c) as [sp|sp| |sp mp ep] eqn:Hp.
    - by destruct sp.
    - by destruct (Hfin sp).
    - unfold c, Float.mul32, SFmul in Hp.
      exfalso. revert Hp. apply Float.binary_round_aux_not_nan; done.
    - apply sub32_diag. }
  rewrite Hzero, map1_full, map2_full.
  pose proof (divisor_at_least (S754_zero false) eps eq_refl Heps) as Hd.
  assert (Ha : Float.div32 (S754_zero false) (divisor (S754_zero false) eps)
               = S754_zero false).
  { destruct (divisor (S754_zero false) eps) as [| | |sd md ed]; try done;
      simpl in Hd.
    - by subst.
    - by destruct Hd as [-> _]. }
  rewrite Ha, !map2_full.
  assert (Hb : Float.sub32 c (Float.mul32 (S754_zero false) c) = c) by done.
  rewrite Hb. fold (full sh (S754_zero false)) (full sh c).
  rewrite !Hbox. unfold full. rewrite !map2_full. done.
Qed.

End Flat.

Section Raster.
Variable boxFilter : ndarray → Z → ndarray.

Lemma filter_loop_size (ksize : Z) (eps : spec_float) (img ds : dataset)
    (l : list nat) :
  let ds' := foldl (filter_band boxFilter ksize eps img) ds l in
  RasterXSize ds' = RasterXSize ds ∧ RasterYSize ds' = RasterYSize ds.
Proof.
  revert ds. induction l as [|i l IH]; intros ds; simpl; [done|].
  destruct (IH (filter_band boxFilter ksize eps img ds i)) as (-> & ->).
  unfold filter_band. destruct (bands img !! i) as [b|]; [|done].
  by destruct (nodata b).
Qed.

Lemma shape_where (cond : list (list bool)) (a b : ndarray) :
  shape a = shape cond → shape b = shape cond → shape (where_ cond a b) = shape cond.
Proof.
  intros Ha Hb. unfold where_. apply shape_map2.
  rewrite (shape_map2 _ a b) by congruence. done.
Qed.

Lemma shape_filter_output (ksize : Z) (eps : spec_float) (b : band) :
  shape_preserving boxFilter →
  shape (filter_output boxFilter ksize eps b) = shape (data b).
Proof.
  intros Hbox.
  assert (Hf : shape (_guidedfilter boxFilter (filter_input b) (filter_input b) ksize eps)
               = shape (data b)).
  { rewrite shape_guidedfilter by done. apply shape_filter_input. }
  destruct (nodata b) as [nd|] eqn:Hnd.
  - rewrite (filter_output_nodata _ _ _ _ _ Hnd).
    rewrite shape_where; rewrite shape_nodata_mask; unfold float32;
      rewrite ?shape_map1; done.
  - unfold filter_output. rewrite Hnd. unfold filter_input in Hf.
    by rewrite Hnd in Hf.
Qed.

(** X11.  For another format than ENVI and GTiff [guided_filter] exits
    and creates no raster.  For these two it creates a raster of the size,
    band count, geotransform and projection of the source, with the
    driver of the format and the option INTERLEAVE=BIP for ENVI only;
    every band keeps its no-data value and its shape, and at a pixel that
    is not a no-data pixel the filter reads the float32 of the source value
    and the output holds the value of [_guidedfilter] there. *)
Theorem guided_filter_raster (img : dataset) (ksize : Z) (eps : spec_float)
    (out_format : string) :
  shape_preserving boxFilter →
  (out_format ≠ "ENVI" → out_format ≠ "GTiff" →
   guided_filter boxFilter img ksize eps out_format = (None, SystemExit)) ∧
  (out_format = "ENVI" ∨ out_format = "GTiff" →
   ∃ out, (guided_filter boxFilter img ksize eps out_format).1 = Some out ∧
     RasterXSize out = RasterXSize img ∧ RasterYSize out = RasterYSize img ∧
     RasterCount out = RasterCount img ∧
     GeoTransform out = GeoTransform img ∧ Projection out = Projection img ∧
     driver out = out_format ∧
     options out = (if decide (out_format = "ENVI") then ["INTERLEAVE=BIP"] else []) ∧
     ∀ (i : nat) (b : band), bands img !! i = Some b →
       ∃ ob, bands out !! i = Some ob ∧ nodata ob = nodata b ∧
         shape (data ob) = shape (data b) ∧
         ∀ (r c : nat) (v : spec_float), px (data b) r c = Some v →
           match nodata b with
           | Some nd => is_nodata (Float.float32 nd) (Float.float32 v) = false
           | None => True
           end →
           px (filter_input b) r c = Some (Float.float32 v) ∧
           px (data ob) r c
           = px (_guidedfilter boxFilter (filter_input b) (filter_input b) ksize eps)
               r c).
Proof.
  intros Hbox. split.
  { intros H1 H2. unfold guided_filter. by rewrite !decide_False. }
  intros Hf.
  destruct (guided_filter_result boxFilter img ksize eps out_format Hf)
    as (out & Hout & Hbands & Hg & Hp & Hd).
  exists out. split; [done|].
  assert (Hframe : RasterXSize out = RasterXSize img ∧
                   RasterYSize out = RasterYSize img ∧
                   options out
                   = (if decide (out_format = "ENVI") then ["INTERLEAVE=BIP"] else [])).
  { revert Hout. unfold guided_filter.
    destruct Hf as [->| ->]; simpl; rewrite filter_loop_split; simpl;
      intros [= <-]; simpl;
      match goal with
      | |- context [foldl _ ?ds ?l] =>
          destruct (filter_loop_size ksize eps img ds l) as [-> ->];
          destruct (filter_loop_frame boxFilter ksize eps img ds l)
            as (_ & _ & _ & ->)
      end; done. }
  destruct Hframe as (Hx & Hy & Ho).
  split; [done|]. split; [done|].
  split; [unfold RasterCount; by rewrite Hbands, length_fmap|].
  split; [done|]. split; [done|]. split; [done|]. split; [done|].
  intros i b Hb. exists (filtered boxFilter ksize eps b).
  split; [by rewrite Hbands, list_lookup_fmap, Hb|]. split; [done|].
  split; [by apply shape_filter_output|].
  intros r c v Hv Hdata. cbn [filtered data].
  assert (Hraw : px (float32 (data b)) r c = Some (Float.float32 v)).
  { unfold float32. by rewrite px_map1, Hv. }
  destruct (nodata b) as [nd|] eqn:Hnd.
  - assert (Hmask : px (nodata_mask nd (float32 (data b))) r c = Some false).
    { by rewrite px_nodata_mask, Hv, <- Hdata. }
    split.
    + unfold filter_input. by rewrite Hnd, px_where_scalar, Hmask, Hraw.
    + rewrite (filter_output_nodata _ _ _ _ _ Hnd), px_where, Hmask, Hraw.
      cbn [mbind option_bind].
      by destruct (px (_guidedfilter _ _ _ _ _) r c).
  - split.
    + unfold filter_input. by rewrite Hnd.
    + unfold filter_output, filter_input. by rewrite Hnd.
Qed.

End Raster.

Lemma box1_keeps_flat : keeps_flat box1.
Proof. intros sh c k. reflexivity. Defined.

Lemma flat_band_unchanged_witness :
  let c := S754_finite false 10485760 (-21) in
  keeps_flat box1 ∧ Float.nonneg (Float.of_int64 0) = true ∧
  (∀ sp, Float.mul32 c c ≠ S754_infinity sp) ∧
  _guidedfilter box1 (full [2; 2]%nat c) (full [2; 2]%nat c) 3 (Float.of_int64 0)
  = full [2; 2]%nat c.
Proof.
  split; [exact box1_keeps_flat|]. split; [reflexivity|].
  split; [intros sp; vm_compute; discriminate|].
  apply (flat_band_unchanged box1 [2; 2]%nat false 10485760 (-21) 3 (Float.of_int64 0)).
  - exact box1_keeps_flat.
  - reflexivity.
  - intros sp. vm_compute. discriminate.
Defined.

Lemma guided_filter_raster_witness :
  shape_preserving box1 ∧
  ∃ out, (guided_filter box1 sample_img 1 (Float.of_int64 0) "GTiff").1 = Some out ∧
    RasterXSize out = 2%nat ∧ RasterYSize out = 1%nat ∧ RasterCount out = 2%nat ∧
    driver out = "GTiff" ∧ options out = [].
Proof.
  split; [exact box1_shape|].
  destruct (guided_filter_raster box1 sample_img 1 (Float.of_int64 0) "GTiff"
              box1_shape) as [_ H].
  destruct (H (or_intror eq_refl)) as (out & Ho & Hx & Hy & Hc & _ & _ & Hd & Hopt & _).
  exists out. repeat split; done.
Defined.

End Filtering.

(** ** Reading the rasters back, and the fit pixel by pixel *)

Module Reading.
Import Np GuidedFilter Fit Filtering.

Lemma where_scalar_false (a : ndarray) (f : spec_float → bool) (v : spec_float) :
  (∀ x, f x = false) → where_scalar (map1 f a) v a = a.
Proof.
  intros Hf. unfold where_scalar, map1, map2.
  induction a as [|row a IH]; simpl; [done|]. f_equal; [|exact IH].
  clear IH. induction row as [|x row IH]; simpl; [done|]. rewrite Hf. by f_equal.
Qed.

(** X12.  [read_img] raises on a raster without a band.  Otherwise it
    returns an array of the shape of band 1 in which a pixel is NaN when
    its value is the same number as the float32 of the no-data value,
    whatever the data type of the band, and is the value of the band
    otherwise; a pixel that compares equal to the float32 of the no-data
    value in its own format is such a pixel; when the band declares no
    no-data value, or declares NaN, the band comes back as it is. *)
Theorem read_img_values (img : dataset) :
  match bands img !! 0%nat with
  | None => read_img img = None
  | Some b =>
      let novalue := Float.float32 (default S754_nan (nodata b)) in
      ∃ values_out, read_img img = Some values_out ∧
        shape values_out = shape (data b) ∧
        (∀ (r c : nat) (v : spec_float), px (data b) r c = Some v →
           px values_out r c
           = Some (if Float.eqv v novalue then S754_nan else v) ∧
           (Float.eqb v novalue = true → px values_out r c = Some S754_nan)) ∧
        (Float.isnan (default S754_nan (nodata b)) = true → values_out = data b)
  end.
Proof.
  unfold read_img. destruct (bands img !! 0%nat) as [b|]; [|done]. simpl.
  eexists. split; [done|]. split; [|split].
  - rewrite shape_where_scalar; unfold eqv_scalar; by rewrite shape_map1.
  - intros r c v Hv. unfold eqv_scalar.
    rewrite px_where_scalar, px_map1, Hv. split; [done|].
    intros Heq%Float.eqb_eqv. simpl. by rewrite Heq.
  - intros Hnan. unfold eqv_scalar.
    destruct (default S754_nan (nodata b)); try done. simpl.
    apply where_scalar_false, Float.eqv_nan.
Qed.

(** A Float64 band with the no-data value -9999: the pixel -9999.0 is read
    as NaN.  With the no-data value 0.1, which np.float32 changes, the
    pixel 0.1 is not. *)
Example read_img_float64 :
  let tenth := Float.div64 (Float.of_int64 1) (Float.of_int64 10) in
  read_img (Dataset 2 1 [Band (Some (Float.of_int64 (-9999)))
                           [Float.of_int64 <$> [-9999; 5]]]
              default_geotransform "" "GTiff" [])
  = Some [[S754_nan; Float.of_int64 5]] ∧
  read_img (Dataset 2 1 [Band (Some tenth) [[tenth; Float.of_int64 5]]]
              default_geotransform "" "GTiff" [])
  = Some [[tenth; Float.of_int64 5]].
Proof. split; reflexivity. Qed.

Section Pipeline.
Variable boxFilter : ndarray → Z → ndarray.

(** X13.  [read_img] on a raster that [guided_filter] wrote: where band 1
    of the source has a no-data pixel the array holds NaN; at every other
    pixel it holds the value of [_guidedfilter], or NaN when that value
    compares equal to the float32 of the no-data value. *)
Theorem filtered_raster_read (img out : dataset) (ksize : Z) (eps : spec_float)
    (out_format : string) (b : band) (nd : spec_float) :
  shape_preserving boxFilter →
  (guided_filter boxFilter img ksize eps out_format).1 = Some out →
  bands img !! 0%nat = Some b → nodata b = Some nd →
  ∃ values_out, read_img out = Some values_out ∧
    shape values_out = shape (data b) ∧
    ∀ (r c : nat) (v : spec_float), px (data b) r c = Some v →
      if is_nodata (Float.float32 nd) (Float.float32 v)
      then px values_out r c = Some S754_nan
      else ∃ q,
        px (_guidedfilter boxFilter (filter_input b) (filter_input b) ksize eps) r c
        = Some q ∧
        px values_out r c
        = Some (if Float.eqv q (Float.float32 nd) then S754_nan else q).
Proof.
  intros Hbox Hout Hb Hnd.
  assert (Hf : out_format = "ENVI" ∨ out_format = "GTiff").
  { revert Hout. unfold guided_filter.
    case_decide; [by left|]. case_decide; [by right|]. done. }
  destruct (guided_filter_result boxFilter img ksize eps out_format Hf)
    as (out' & Hout' & Hbands & _).
  assert (out' = out) as -> by congruence.
  assert (Hob : bands out !! 0%nat = Some (filtered boxFilter ksize eps b)).
  { by rewrite Hbands, list_lookup_fmap, Hb. }
  set (gf := _guidedfilter boxFilter (filter_input b) (filter_input b) ksize eps).
  assert (Hgf : shape gf = shape (data b)).
  { unfold gf. rewrite shape_guidedfilter by done. apply shape_filter_input. }
  unfold read_img. rewrite Hob. cbn [mbind option_bind filtered nodata data].
  rewrite Hnd. change (default S754_nan (Some nd)) with nd. eexists. split; [done|]. split.
  { rewrite shape_where_scalar; unfold eqv_scalar; rewrite shape_map1;
      by rewrite ?shape_filter_output. }
  intros r c v Hv.
  assert (Hraw : px (float32 (data b)) r c = Some (Float.float32 v)).
  { unfold float32. by rewrite px_map1, Hv. }
  assert (Hmask : px (nodata_mask nd (float32 (data b))) r c
                  = Some (is_nodata (Float.float32 nd) (Float.float32 v))).
  { by rewrite px_nodata_mask, Hv. }
  destruct (px_shape (data b) gf r c Hgf ltac:(by eexists)) as [q Hq].
  assert (Hpx : px (filter_output boxFilter ksize eps b) r c
                = Some (if is_nodata (Float.float32 nd) (Float.float32 v)
                        then Float.float32 v else q)).
  { rewrite (filter_output_nodata _ _ _ _ _ Hnd), px_where, Hmask, Hraw.
    fold gf. by rewrite Hq. }
  unfold eqv_scalar. rewrite px_where_scalar, px_map1, Hpx.
  cbn [fmap option_fmap option_map mbind option_bind].
  destruct (is_nodata (Float.float32 nd) (Float.float32 v)) eqn:Hcase.
  - unfold is_nodata in Hcase. rewrite Float.isnan_float32 in Hcase.
    destruct (Float.isnan nd) eqn:Hn.
    + by destruct (Float.float32 v).
    + by rewrite (Float.eqb_eqv _ _ Hcase).
  - exists q. done.
Qed.

End Pipeline.

Lemma filtered_raster_read_witness :
  shape_preserving box1 ∧
  ∃ out values_out,
    (guided_filter box1 sample_img 1 (Float.of_int64 0) "ENVI").1 = Some out ∧
    read_img out = Some values_out ∧ px values_out 0 0 = Some S754_nan.
Proof.
  split; [exact box1_shape|].
  destruct (guided_filter_result box1 sample_img 1 (Float.of_int64 0) "ENVI"
              (or_introl eq_refl)) as (out & Hout & _).
  destruct (filtered_raster_read box1 sample_img out 1 (Float.of_int64 0) "ENVI"
              (Band (Some (Float.of_int64 0)) [Float.of_int32 <$> [0; 5]])
              (Float.of_int64 0) box1_shape Hout eq_refl eq_refl)
    as (values_out & Hread & _ & Hpx).
  exists out, values_out. split; [done|]. split; [done|].
  exact (Hpx 0%nat 0%nat (Float.of_int32 0) eq_refl).
Defined.

Section Local.
Context {X A : Type}.
Variable Lasso_fit :
  A → list X → list spec_float → option (list spec_float * spec_float).

(** [coef_] has one value per column of the design matrix. *)
Definition one_per_column (num_pair : nat) : Prop :=
  ∀ alpha xs ys cf i, Lasso_fit alpha xs ys = Some (cf, i) →
    length cf = (1 + num_pair * 2)%nat.

Lemma pixel_coefs_full (x : list X) (num_pair : nat) (alpha : A)
    (y coefs : list spec_float) :
  one_per_column num_pair →
  pixel_coefs Lasso_fit x num_pair alpha y = Some coefs →
  length coefs = (2 + num_pair * 2)%nat.
Proof.
  intros HL. unfold pixel_coefs.
  intros (x_new & _ & H)%bind_Some. apply bind_Some in H as (y_new & _ & H).
  apply bind_Some in H as ([cf i] & Hfit & [= <-]).
  case_decide.
  - simpl. f_equal. by eapply HL.
  - injection Hfit as <- <-. simpl. by rewrite length_replicate.
Qed.

(** X14.  The coefficients of a pixel depend on the time series of that
    pixel only: two fits with the same design matrix, on stacks whose
    series at a pixel are equal, return the same value there in each of
    the [2 + 2 * num_pair] bands, when [Lasso] returns one coefficient per
    column of the design matrix.  The result has [2 + 2 * num_pair] bands
    of as many rows as the first raster. *)
Theorem harmonic_fitting_local (imgs imgs' : list dataset) (x : list X)
    (num_pair : nat) (alpha : A) (out out' : list ndarray)
    (img_tep img_tep' : dataset) (r c : nat) :
  one_per_column num_pair →
  harmonic_fitting Lasso_fit imgs x num_pair alpha = Some out →
  harmonic_fitting Lasso_fit imgs' x num_pair alpha = Some out' →
  imgs !! 0%nat = Some img_tep → imgs' !! 0%nat = Some img_tep' →
  (r < RasterYSize img_tep)%nat → (c < RasterXSize img_tep)%nat →
  (r < RasterYSize img_tep')%nat → (c < RasterXSize img_tep')%nat →
  series imgs r c = series imgs' r c →
  length out = (2 + num_pair * 2)%nat ∧
  Forall (λ band : ndarray, length band = RasterYSize img_tep) out ∧
  ∀ b, (b < 2 + num_pair * 2)%nat →
    is_Some (px3 out b r c) ∧ px3 out b r c = px3 out' b r c.
Proof.
  intros HL Hfit Hfit' Himg Himg' Hr Hc Hr' Hc' Hseries.
  assert (Hwf : wf3 (2 + num_pair * 2) (RasterYSize img_tep) out).
  { pose proof Hfit as H. rewrite harmonic_fitting_rows, Himg in H. simpl in H.
    apply bind_Some in H as (values & _ & H).
    by destruct (row_loop Lasso_fit x num_pair alpha values _ _ _ out (le_n _) H). }
  destruct Hwf as [Hlen Hrows]. split; [done|]. split; [done|].
  destruct (fit_pixel Lasso_fit x num_pair alpha imgs img_tep out r c
              Hfit Himg Hr Hc) as (y & coefs & Hy & Hcoefs & Hpx).
  destruct (fit_pixel Lasso_fit x num_pair alpha imgs' img_tep' out' r c
              Hfit' Himg' Hr' Hc') as (y' & coefs' & Hy' & Hcoefs' & Hpx').
  assert (y' = y) as -> by congruence.
  assert (coefs' = coefs) as -> by congruence.
  pose proof (pixel_coefs_full x num_pair alpha y coefs HL Hcoefs) as Hl.
  intros b Hb.
  destruct (lookup_lt_is_Some_2 coefs b ltac:(lia)) as [e He].
  rewrite (Hpx Hl b e He), (Hpx' Hl b e He). split; [by eexists|done].
Qed.

End Local.

(** The rasters of [stack] with another first row. *)
Definition stack' : list dataset :=
  [ GuidedFilter.Dataset 1 2
      [Band (Some (Float.of_int64 0)) [[Float.of_int32 3]; [Float.of_int32 7]]]
      GuidedFilter.default_geotransform "" "ENVI" [];
    GuidedFilter.Dataset 1 2
      [Band None [[Float.of_int32 4]; [Float.of_int32 5]]]
      GuidedFilter.default_geotransform "" "ENVI" [] ].

Lemma first_fit_one_per_column : one_per_column first_fit 1.
Proof. intros alpha xs ys cf i [= <- _]. reflexivity. Defined.

Lemma harmonic_fitting_local_witness :
  one_per_column first_fit 1 ∧
  series stack 1 0 = series stack' 1 0 ∧
  ∃ out out',
    harmonic_fitting first_fit stack [10; 20]%nat 1 tt = Some out ∧
    harmonic_fitting first_fit stack' [10; 20]%nat 1 tt = Some out' ∧
    px3 out 2 1 0 = px3 out' 2 1 0.
Proof.
  split; [exact first_fit_one_per_column|]. split; [reflexivity|].
  destruct (harmonic_fitting first_fit stack [10; 20]%nat 1 tt) as [out|] eqn:Hfit;
    [|by vm_compute in Hfit].
  destruct (harmonic_fitting first_fit stack' [10; 20]%nat 1 tt) as [out'|] eqn:Hfit';
    [|by vm_compute in Hfit'].
  exists out, out'. split; [done|]. split; [done|].
  destruct (harmonic_fitting_local first_fit stack stack' [10; 20]%nat 1 tt out out'
              _ _ 1 0 first_fit_one_per_column Hfit Hfit' eq_refl eq_refl)
    as (_ & _ & H); simpl; try lia; [reflexivity|].
  apply (H 2%nat). lia.
Defined.

End Reading.

(** ** Stacks that are not aligned *)

Module Misaligned.
Import Np GuidedFilter Fit.

Section Raises.
Context {X A : Type}.
Variable Lasso_fit :
  A → list X → list spec_float → option (list spec_float * spec_float).

Lemma values_row_of_missing (values : list ndarray) (k r : nat) (a : ndarray) :
  values !! k = Some a → a !! r = None → values_row_of values r = None.
Proof.
  intros Hk Hr. unfold values_row_of.
  destruct (mapM (λ value : ndarray, value !! r) values) as [rows|] eqn:Hrows;
    [|done].
  apply mapM_Some in Hrows.
  destruct (Forall2_lookup_l _ _ _ _ _ Hrows Hk) as (row & _ & Hrow). congruence.
Qed.

Lemma values_row_of_uneven (values : list ndarray) (k r : nat) (a0 a : ndarray)
    (row0 row : list spec_float) :
  values !! 0%nat = Some a0 → values !! k = Some a →
  a0 !! r = Some row0 → a !! r = Some row → length row ≠ length row0 →
  values_row_of values r = None.
Proof.
  intros H0 Hk Hr0 Hr Hlen. unfold values_row_of.
  destruct (mapM (λ value : ndarray, value !! r) values) as [rows|] eqn:Hrows;
    [|done].
  apply mapM_Some in Hrows. cbn [mbind option_bind].
  destruct (Forall2_lookup_l _ _ _ _ _ Hrows H0) as (r0 & Hrows0 & Hr0').
  destruct (Forall2_lookup_l _ _ _ _ _ Hrows Hk) as (rk & Hrowsk & Hrk).
  assert (r0 = row0) as -> by congruence. assert (rk = row) as -> by congruence.
  rewrite decide_False; [done|]. intros Hall.
  rewrite Forall_lookup in Hall. specialize (Hall k row Hrowsk).
  destruct rows as [|h rows]; [done|]. simpl in Hrows0, Hall. congruence.
Qed.

(** X16.  [harmonic_fitting] raises instead of fitting a stack that is not
    aligned: when no raster is given, when a raster has no band, when a
    raster has fewer rows than the first raster says, and when a row of
    a raster within the rows of the first has another length than that
    row of the first raster. *)
Theorem harmonic_fitting_misaligned (imgs : list dataset) (x : list X)
    (num_pair : nat) (alpha : A) :
  (imgs = [] → harmonic_fitting Lasso_fit imgs x num_pair alpha = None) ∧
  (∀ k img, imgs !! k = Some img → bands img = [] →
     harmonic_fitting Lasso_fit imgs x num_pair alpha = None) ∧
  (∀ img_tep k img a, imgs !! 0%nat = Some img_tep → imgs !! k = Some img →
     read_img img = Some a → (length a < RasterYSize img_tep)%nat →
     harmonic_fitting Lasso_fit imgs x num_pair alpha = None) ∧
  (∀ img_tep a0 k img a r row0 row,
     imgs !! 0%nat = Some img_tep → read_img img_tep = Some a0 →
     imgs !! k = Some img → read_img img = Some a →
     (r < RasterYSize img_tep)%nat →
     a0 !! r = Some row0 → a !! r = Some row → length row ≠ length row0 →
     harmonic_fitting Lasso_fit imgs x num_pair alpha = None).
Proof.
  rewrite harmonic_fitting_rows.
  assert (Hrow : ∀ img_tep values r, imgs !! 0%nat = Some img_tep →
            mapM read_img imgs = Some values →
            (r < RasterYSize img_tep)%nat → values_row_of values r = None →
            (img_tep ← imgs !! 0%nat;
             values ← mapM read_img imgs;
             for_each (update (row_result Lasso_fit x num_pair alpha values
                                 (RasterXSize img_tep)) assign_row)
               (seq 0 (RasterYSize img_tep))
               (zeros3 (2 + num_pair * 2) (RasterYSize img_tep)
                  (RasterXSize img_tep))) = None).
  { intros img_tep values r H0 Hv Hr Hnone. rewrite H0. cbn [mbind option_bind].
    rewrite Hv. cbn [mbind option_bind].
    apply (for_each_update_None _ _ _ _ r); [apply elem_of_seq; lia|].
    unfold row_result. by rewrite Hnone. }
  split; [by intros ->|]. split; [|split].
  - intros k img Hk Hb.
    assert (Hmap : mapM read_img imgs = None).
    { apply mapM_None, Exists_exists. exists img.
      split; [by eapply list_elem_of_lookup_2|]. unfold read_img. by rewrite Hb. }
    rewrite Hmap. by destruct (imgs !! 0%nat).
  - intros img_tep k img a H0 Hk Ha Hlen.
    destruct (mapM read_img imgs) as [values|] eqn:Hv; [|by rewrite H0].
    apply (Hrow img_tep values (length a) H0 eq_refl Hlen).
    pose proof Hv as Hv'. apply mapM_Some in Hv'.
    destruct (Forall2_lookup_l _ _ _ _ _ Hv' Hk) as (a' & Hk' & Ha').
    assert (a' = a) as -> by congruence.
    apply (values_row_of_missing values k (length a) a Hk').
    by apply lookup_ge_None.
  - intros img_tep a0 k img a r row0 row H0 Ha0 Hk Ha Hr Hr0 Hrk Hlen.
    destruct (mapM read_img imgs) as [values|] eqn:Hv; [|by rewrite H0].
    apply (Hrow img_tep values r H0 eq_refl Hr).
    pose proof Hv as Hv'. apply mapM_Some in Hv'.
    destruct (Forall2_lookup_l _ _ _ _ _ Hv' H0) as (b0 & Hv0 & Hb0).
    destruct (Forall2_lookup_l _ _ _ _ _ Hv' Hk) as (b & Hvk & Hb).
    assert (b0 = a0) as -> by congruence. assert (b = a) as -> by congruence.
    by apply (values_row_of_uneven values k r a0 a row0 row).
Qed.

End Raises.

Lemma harmonic_fitting_misaligned_witness :
  Scratch.ragged !! 1%nat
  = Some (Dataset 1 1 [Band None [[Float.of_int32 5]]] default_geotransform ""
            "ENVI" []) ∧
  harmonic_fitting first_fit Scratch.ragged [10; 20]%nat 1 tt = None.
Proof.
  split; [reflexivity|].
  destruct (harmonic_fitting_misaligned first_fit Scratch.ragged [10; 20]%nat 1 tt)
    as (_ & _ & H & _).
  apply (H _ 1%nat _ [[Float.of_int32 5]] eq_refl eq_refl eq_refl). simpl. lia.
Defined.

End Misaligned.

(** ** [_divide_chunks] of [internal_functions.py] *)

Module Chunks.

(** [range(start, stop, step)]: [ValueError] for a zero step. *)
Definition range (start stop step : Z) : option (list Z) :=
  if decide (step = 0) then None
  else
    let n := if decide (0 < step) then (stop - start + step - 1) / step
             else (stop - start + step + 1) / step in
    Some ((λ k : nat, start + Z.of_nat k * step) <$> seq 0 (Z.to_nat n)).

(** [l[i:j]]: an index below zero counts from the end, and both are
    clipped to the list. *)
Definition slice {T} (l : list T) (i j : Z) : list T :=
  let len := Z.of_nat (length l) in
  let clip k := if decide (k < 0) then Z.max 0 (k + len) else Z.min k len in
  take (Z.to_nat (clip j) - Z.to_nat (clip i)) (drop (Z.to_nat (clip i)) l).

(** [list(_divide_chunks(l, n))] *)
Definition _divide_chunks {T} (l : list T) (n : Z) : option (list (list T)) :=
  r ← range 0 (Z.of_nat (length l)) n;
  Some ((λ i : Z, slice l i (i + n)) <$> (r : list Z)).

Lemma slice_chunk {T} (l : list T) (n k : nat) :
  slice l (0 + Z.of_nat k * Z.of_nat n) (0 + Z.of_nat k * Z.of_nat n + Z.of_nat n)
  = take n (drop (k * n) l).
Proof.
  unfold slice. rewrite !decide_False by lia.
  destruct (decide (k * n ≤ length l)%nat) as [Hle|Hgt].
  - replace (Z.to_nat (Z.min (0 + Z.of_nat k * Z.of_nat n) (Z.of_nat (length l))))
      with (k * n)%nat by lia.
    destruct (decide (k * n + n ≤ length l)%nat).
    + f_equal. lia.
    + rewrite !take_ge; [done| |]; rewrite length_drop; lia.
  - rewrite !drop_ge by lia. by rewrite !take_nil.
Qed.

Lemma concat_chunks {T} (l : list T) (n m : nat) :
  concat ((λ k, take n (drop (k * n) l)) <$> seq 0 m) = take (m * n) l.
Proof.
  induction m as [|m IH]; [by rewrite take_0|].
  rewrite seq_S, fmap_app, concat_app, IH. simpl. rewrite app_nil_r.
  rewrite take_take_drop. f_equal. lia.
Qed.

Lemma ceil_div_bounds (len n : Z) :
  0 ≤ len → 0 < n →
  let m := (len + n - 1) / n in
  0 ≤ m ∧ len ≤ m * n ∧ (0 < len → (m - 1) * n < len) ∧ (len = 0 → m = 0).
Proof.
  intros Hlen Hn m.
  pose proof (Z.div_mod (len + n - 1) n ltac:(lia)) as Hdm.
  pose proof (Z.mod_pos_bound (len + n - 1) n Hn) as Hmod.
  fold m in Hdm. repeat split; nia.
Qed.

Lemma range_down_empty (len n : Z) : 0 ≤ len → n < 0 → (len - 0 + n + 1) / n ≤ 0.
Proof.
  intros Hlen Hn.
  pose proof (Z.div_mod (len - 0 + n + 1) n ltac:(lia)) as Hdm.
  pose proof (Z.mod_neg_bound (len - 0 + n + 1) n Hn) as Hmod.
  nia.
Qed.

(** X15.  [_divide_chunks(l, n)] raises for [n = 0] and yields nothing
    for [n < 0].  For [n > 0] the chunks, put together in order, are [l];
    there are [ceil(len(l) / n)] of them; none is empty or longer than
    [n], and every chunk but the last has exactly [n] elements. *)
Theorem _divide_chunks_partition {T} (l : list T) (n : Z) :
  (n = 0 → _divide_chunks l n = None) ∧
  (n < 0 → _divide_chunks l n = Some []) ∧
  (0 < n →
   ∃ chunks, _divide_chunks l n = Some chunks ∧ concat chunks = l ∧
     Z.of_nat (length chunks) = (Z.of_nat (length l) + n - 1) / n ∧
     ∀ (k : nat) (chunk : list T), chunks !! k = Some chunk →
       chunk ≠ [] ∧ Z.of_nat (length chunk) ≤ n ∧
       (S k < length chunks → Z.of_nat (length chunk) = n)%nat).
Proof.
  unfold _divide_chunks, range. split; [|split].
  - intros ->. done.
  - intros Hn. rewrite decide_False by lia. simpl. rewrite decide_False by lia.
    pose proof (range_down_empty (Z.of_nat (length l)) n ltac:(lia) Hn).
    replace (Z.to_nat _) with 0%nat by lia. done.
  - intros Hn. rewrite decide_False by lia. simpl. rewrite decide_True by lia.
    destruct (ceil_div_bounds (Z.of_nat (length l)) n ltac:(lia) Hn)
      as (Hm0 & Hup & Hlow & Hzero).
    replace (Z.of_nat (length l) - 0 + n - 1) with (Z.of_nat (length l) + n - 1)
      by lia.
    set (m := Z.to_nat ((Z.of_nat (length l) + n - 1) / n)) in *.
    assert (Hchunks :
      (λ i, slice l i (i + n)) <$> ((λ k : nat, 0 + Z.of_nat k * n) <$> seq 0 m)
      = (λ k, take (Z.to_nat n) (drop (k * Z.to_nat n) l)) <$> seq 0 m).
    { rewrite <- list_fmap_compose. apply list_fmap_ext. intros i k _. simpl.
      rewrite <- (slice_chunk l (Z.to_nat n) k). by rewrite Z2Nat.id by lia. }
    rewrite Hchunks. eexists. split; [done|].
    split; [|split].
    + rewrite concat_chunks. apply take_ge. unfold m. nia.
    + rewrite length_fmap, length_seq. unfold m. lia.
    + intros k chunk Hk. rewrite list_lookup_fmap in Hk.
      destruct (seq 0 m !! k) as [k'|] eqn:Hseq; [|done].
      apply lookup_seq in Hseq as [-> Hlt]. simpl in Hk. injection Hk as <-.
      rewrite length_fmap, length_seq.
      assert (Hlen : length (take (Z.to_nat n) (drop (k * Z.to_nat n) l))
                     = (Z.to_nat n `min` (length l - k * Z.to_nat n))%nat).
      { by rewrite length_take, length_drop. }
      assert (Hpos : (k * Z.to_nat n < length l)%nat) by (unfold m in Hlt; nia).
      split; [|split].
      * intros Hnil. rewrite Hnil in Hlen. simpl in Hlen. lia.
      * lia.
      * intros Hnext. rewrite Hlen. unfold m in Hnext. nia.
Qed.

Lemma _divide_chunks_partition_witness :
  ∃ chunks, _divide_chunks [1; 2; 3; 4; 5; 6; 7] 3 = Some chunks ∧
    concat chunks = [1; 2; 3; 4; 5; 6; 7] ∧ length chunks = 3%nat.
Proof.
  destruct (_divide_chunks_partition [1; 2; 3; 4; 5; 6; 7] 3) as (_ & _ & H).
  destruct (H ltac:(lia)) as (chunks & Hc & Hcat & Hlen & _).
  exists chunks. split; [done|]. split; [done|].
  apply Nat2Z.inj. rewrite Hlen. reflexivity.
Defined.

Example _divide_chunks_seven :
  _divide_chunks [1; 2; 3; 4; 5; 6; 7] 3 = Some [[1; 2; 3]; [4; 5; 6]; [7]] ∧
  _divide_chunks [1; 2; 3] (-2) = Some [] ∧
  _divide_chunks [1; 2; 3] 0 = None.
Proof. repeat split. Qed.

End Chunks.
